(* ===== verification/_CoqProject ===== *)
-Q . S2P
Prelude.v
Types.v
Composite.v
Blackboard.v
RandomUtil.v
Utility.v
Node.v
World.v
Leaves.v
Tree.v
Semantics.v
Build.v
Turn.v
Typing.v
Dmaps.v
Input.v
Render.v
