(* ===== verification/Prelude.v ===== *)
(** * A verification development of the behaviour-tree core of ai_roguelike_hw

    The program (src/) drives the non-player entities of a turn-based
    roguelike.  Every such entity owns a behaviour tree (src/w2/behaviourTree.h,
    [BehaviourTree]) and a blackboard; once per resolved turn the turn loop
    (src/w2/roguelike.cpp, [process_turn]) ticks every tree, the tree
    delegates to its root node, composite nodes delegate to their children
    (src/w2/behLibrary.cpp and src/w3/behLibrary.cpp) and leaf nodes read and
    write the entity-component world and the blackboard.  A leaf may also
    dispatch an event synchronously into the trees of other entities
    ([AlertHoard] -> [BehaviourTree::event] -> [react]).  The utility selector
    of src/w3/behLibrary.cpp draws its child by weighted sampling
    (src/w3/randomUtil.hpp, [rnd::sample]) with a hysteresis bonus.

    ** Files, in dependency order (verification/_CoqProject)

    - [Prelude]    (this file) the state-and-error computations [SE] shared by
                   the evaluators and the construction code, the hint databases
                   [bt] and [bt_rw], tactics, generic lemmas on lists.
    - [Types]      [BehResult], [EventType], [Event] of behaviourTree.h;
                   [Entity] handles and [Position].
    - [Composite]  the update loops of [Sequence], [Selector], [OrNode],
                   [Parallel], [NotNode] (w2/behLibrary.cpp lines 56-148), generic
                   in the child and the state, each characterised exactly by the
                   prefix of children it invokes ([run_prefix]); the [react]
                   loop of [CompoundNode]; invocation-log harnesses for the
                   scenarios of spec §8; preservation of any reflexive,
                   transitive relation the children keep.
    - [Blackboard] the process-wide first-wins name table and typed per-entity
                   storage (blackboard.h is not under src/: spec §3, §4.8).
    - [RandomUtil] the [RandomSource] interface (the std engine and raylib's
                   [GetRandomValue]) and [rnd::sample] of randomUtil.hpp: total
                   weight, normalisation with NaN for 0/0, partial sums, the
                   libstdc++ binary search of [std::lower_bound] (proved equal to
                   a linear search), the retry loop with its [size_t] counter.
    - [Utility]    [UtilitySelector::update] (w3 lines 59-110), generic in the
                   child: scores, chill bonus, sampling, erase-on-failure,
                   [last_choice] and [stale].
    - [Node]       the node language: one constructor per [BehNode] class of w2
                   and w3 with the fields their constructors compute; [react]
                   of both libraries; dispatch as a sequence of listener writes.
    - [World]      the flecs world (components of ecsTypes.h as a record,
                   entities in query order), [entity.set]/[entity.get], the
                   helpers of aiUtils.h, the faults, well-formed worlds and the
                   [frame] of a tick.
    - [Leaves]     the [update] of every leaf of w2 and w3; closest-target
                   search; the alert of [AlertHoard] through [react].
    - [Tree]       the evaluator [update] (virtual dispatch over the node
                   language, nested through the generic composites),
                   [BehaviourTree::update] and the tree pass of [process_turn].
    - [Semantics]  a relational specification of a tick read off spec
                   §4.2-4.6 (no loops: a prefix of children that ran, then the
                   child that stopped the composite), deterministic, and the
                   refinement of it by the evaluator.
    - [Build]      node factories with the registrations and blackboard writes
                   of the constructors, the [create_*_beh] builders, entity
                   constructors and [init_roguelike].
    - [Turn]       [process_turn]: player counters, [move_pos], attacks and
                   blocking, deaths, pickups with deferred destruction.
    - [Typing]     a typing discipline for blackboards and trees (the slot
                   types of the name table, the slots a tree reads and writes)
                   and type safety of the tree pass: a typed world never
                   raises a [bad_any_cast] or a dead-entity fault.
    - [Dmaps]      the helpers of src/w5: [sgn], the stream output of a
                   [Position], the [DmapWeights] presets of dmapBeh.cpp.
    - [Input]      the [PlayerInput] system of [register_roguelike_systems]
                   (edge-triggered keys setting [Action]) and its interplay with
                   [process_turn] and [process_actions].
    - [Render]     the two drawing systems of [register_roguelike_systems] and
                   [print_stats], as the list of raylib draw calls of a frame,
                   with the null-texture and [int]-conversion errors.

    ** What the theorems show (the claims C1..Cn of PROJECT.json)

    - Composites: each loop returns what spec §4.1-4.6 says and invokes
      exactly the children it must (C1-C5, C20-C23).
    - Events: in w2 a dispatch runs the writes of every listener of the tree
      in depth-first order (C6); in w3 [Sequence] and [Selector] do not
      forward (a finding).
    - Utility selector: a failed child is never drawn again in a tick, the
      hysteresis bookkeeping, and totality (C7-C9).
    - Hoard: [HoardListener] aliases its target and flag slots (C10) and a
      hoard member faults on its first tick (C11); the concrete game of
      [init_roguelike] faults on its first tree pass.  By contrast the
      minotaur builder wires its three branches through distinct slots (C30).
    - Leaves and ticks: [FindEnemy] (C12), [AlertHoard] (C13), the frame of a
      tick (C14), [Patrol] always plans a move (C28).
    - Turn loop: combatants stay on distinct cells (C15), one step of the
      planning loop blocks and attacks or moves (C29), movement makes
      progress (C24, C25), the turn counter (C26).
    - Sampler: a zero-weight first entry can be drawn (C16), the all-zero case
      (C17), the draw is in range (C18), [lower_bound] equals a linear search
      (C19), the [size_t] retry counter (C27).
    - Leaves and construction: [IsLowHp] counts an entity without hitpoints
      as low (C31); [generate_waypoints] of an empty route faults (C32).
    - Typing: from a typed world the tree pass raises nothing and keeps the
      world typed (C33); the hoard tree is untyped under every slot typing
      (C34); in the world of [init_roguelike] exactly the four hoard members
      have untyped trees (C35).
    - Drawing: a frame succeeds exactly when every texture target is loaded,
      and then draws every visible entity once, flat or textured (C36).
    - src/w5: the text [operator<<] writes for a position reads back (C37);
      [sgn] is the sign function.
    - Input and turn: [process_actions] leaves every acting entity at
      [EA_NOP] (C38); keys held from the last frame give no turn (C39).
    - Refinement: on trees without a utility selector the evaluator's
      outcomes are exactly those of the relational specification (C40).

    ** Bounds and fuel

    - [rnd::sample]'s retry loop gets fuel 2: with non-negative weights the
      first draw always lands (RandomUtil.v proves it), so one round
      suffices and the model never reports [SamplerExhausted] then.
    - [UtilitySelector]'s loop gets fuel [length copy]: each failed round
      erases one entry, so the loop ends within that many rounds
      ([UtilitySelector_total]).
    - [lower_bound]'s binary search gets fuel [length borders]; each step
      shrinks the range by at least one ([lower_bound_loop_spec]).

    ** Not modelled

    The GPU side of rendering ([LoadTexture] is the path it reads, a draw
    call is a value of [DrawCmd]) and the observer that unloads textures;
    [sm.act] of the empty state machines in [process_turn] ([StateMachine]
    is not under src/); the Dijkstra-map generators of src/w5 (only
    declared there: their bodies are not in the repository); float
    rounding.  The keys [IsKeyDown]
    reports are an argument of the input system.  The w3 library repeats the
    w2 code of [Sequence], [Selector] and the leaves; the model has one
    definition of each, mapped to its w2 lines.  The order in which the main
    loop runs the input system and [process_turn] is outside src/.

    ** Conventions

    - Floating-point values of the code ([float]) are exact rationals [Q];
      distances are compared through their squares, which [sqrtf] preserves
      on exact reals.  Rounding is not modelled.
    - A C++ exception ([std::bad_any_cast] of the blackboard) or a flecs
      assertion is the left branch of a sum ([World.fault]).
    - Iteration order of flecs queries is the order of an association list:
      the spec leaves it external, the model makes it explicit. *)

From Stdlib Require Import QArith ZArith Lia.
From stdpp Require Import base list.

Declare Scope bt_scope.
Delimit Scope bt_scope with bt.

Create HintDb bt.
Create Rewrite HintDb bt_rw.

(** ** State-and-error computations

    [SE S E A] is a computation over a state [S] that either raises an
    error [E] or returns a value [A] with the new state.  The node
    evaluators thread the world through it. *)

Definition SE (S E A : Type) : Type := S -> E + (A * S).

Definition se_ret {S E A} (a : A) : SE S E A := fun s => inr (a, s).

Definition se_bind {S E A B} (m : SE S E A) (k : A -> SE S E B) : SE S E B :=
  fun s => match m s with
           | inl e => inl e
           | inr (a, s') => k a s'
           end.

Definition se_raise {S E A} (e : E) : SE S E A := fun _ => inl e.
Definition se_get {S E} : SE S E S := fun s => inr (s, s).
Definition se_put {S E} (s : S) : SE S E unit := fun _ => inr (tt, s).

Notation "'let*' p ':=' m 'in' k" := (se_bind m (fun p => k))
  (at level 10, p pattern, m at level 100, k at level 200) : bt_scope.

Lemma se_bind_inr {S E A B} (m : SE S E A) (k : A -> SE S E B) s a s' :
  m s = inr (a, s') -> se_bind m k s = k a s'.
Proof. intros H. unfold se_bind. by rewrite H. Qed.

Lemma se_bind_inl {S E A B} (m : SE S E A) (k : A -> SE S E B) s e :
  m s = inl e -> se_bind m k s = inl e.
Proof. intros H. unfold se_bind. by rewrite H. Qed.

#[export] Hint Rewrite @se_bind_inr @se_bind_inl using assumption : bt_rw.

Lemma se_bind_inv {S E A B} (m : SE S E A) (k : A -> SE S E B) s b s'' :
  se_bind m k s = inr (b, s'') ->
  exists a s', m s = inr (a, s') /\ k a s' = inr (b, s'').
Proof. unfold se_bind. destruct (m s) as [|[a s']]; [done|eauto]. Qed.

Lemma se_ret_inv {S E A} (a b : A) (s s' : S) :
  @se_ret S E A a s = inr (b, s') -> a = b /\ s = s'.
Proof. by intros [= -> ->]. Qed.

(** Running a list of computations left to right, collecting their values. *)
Fixpoint se_mapM {S E A} (ms : list (SE S E A)) : SE S E (list A) :=
  match ms with
  | [] => se_ret []
  | m :: ms' => se_bind m (fun a => se_bind (se_mapM ms') (fun l => se_ret (a :: l)))
  end.

(** ** Children lists threaded through a loop

    A composite loop returns its result, its (possibly updated) children and
    the state.  [push_child c m] puts the updated child [c] in front of the
    children returned by the rest of the loop [m]. *)

Definition push_child {E R A S} (c : A) (m : E + (R * list A * S))
  : E + (R * list A * S) :=
  match m with
  | inl e => inl e
  | inr (r, cs, s) => inr (r, c :: cs, s)
  end.

Lemma push_child_inr {E R A S} (c : A) (m : E + (R * list A * S)) r cs s :
  push_child c m = inr (r, cs, s) <->
  exists cs', m = inr (r, cs', s) /\ cs = c :: cs'.
Proof.
  unfold push_child. destruct m as [e|[[r' cs'] s']]; split.
  - done.
  - by intros (? & ? & _).
  - intros [= -> <- ->]. eauto.
  - by intros (? & [= -> -> ->] & ->).
Qed.

(** ** Tactics *)

(** [destruct_sum] splits the first [E + (A * S)] scrutinee of the goal. *)
Ltac destruct_sum :=
  match goal with
  | |- context [match ?m with inl _ => _ | inr _ => _ end] =>
      let E := fresh "E" in destruct m as [?|[[? ?] ?]] eqn:E
  end.

(** ** Generic list facts shared by the components *)

Lemma Forall_app_single {A} (P : A -> Prop) l x :
  Forall P (l ++ [x]) <-> Forall P l /\ P x.
Proof. rewrite Forall_app, Forall_singleton. done. Qed.

Lemma drop_cons_length {A} (x : A) l : drop (length (x :: l)) (x :: l) = [].
Proof. apply drop_all. Qed.

#[export] Hint Resolve Forall_nil_2 : bt.
