(* ===== verification/Types.v ===== *)
(** The value types of src/w2/behaviourTree.h: the tri-state result of every
    [update], the event kinds and the event record passed to [react]. *)

From Stdlib Require Import ZArith.
From stdpp Require Import base decidable.
From S2P Require Import Prelude.

(** [enum BehResult] (behaviourTree.h, lines 7-12). *)
Inductive BehResult : Type :=
| BEH_SUCCESS
| BEH_FAIL
| BEH_RUNNING.

#[export] Instance BehResult_eq_dec : EqDecision BehResult.
Proof. solve_decision. Defined.

(** [enum class EventType] (lines 14-16). *)
Inductive EventType : Type :=
| HoardAlert.

#[export] Instance EventType_eq_dec : EqDecision EventType.
Proof. solve_decision. Defined.

(** [struct Event] (lines 18-21).  The [void* custom_data] of the code
    points, for the only event kind, at a [flecs::entity] that lives for the
    duration of the synchronous call; the model carries that entity. *)
Record Event (Entity : Type) : Type := mkEvent {
  type : EventType;
  custom_data : Entity
}.
Arguments mkEvent {Entity}.
Arguments type {Entity}.
Arguments custom_data {Entity}.

(** A [flecs::entity] handle: a 64-bit id where [0] is the null entity that
    a default-constructed [flecs::entity] holds.  The model keeps the id as
    a natural number; ids are only compared, never computed with. *)
Definition Entity : Type := nat.
Definition null_entity : Entity := 0.

(** [struct Position] (ecsTypes.h, not under src/): two [int] coordinates.
    Positions in the game stay far from the 32-bit bounds, so they are
    unbounded integers here. *)
Record Position : Type := mkPosition { px : Z; py : Z }.

#[export] Instance Position_eq_dec : EqDecision Position.
Proof. solve_decision. Defined.
