(* ===== verification/Composite.v ===== *)
(** The control flow of the composite nodes of src/w2/behLibrary.cpp
    ([Sequence], [Selector], [OrNode], [Parallel], [NotNode]) and the event
    broadcast of [CompoundNode] / [FixedArityCompoundNode].

    The loops are generic in the child type [A] and in the state [S] that
    the children thread, and a child may raise an error [E]: the node
    evaluator of [Tree] instantiates [A] with its node type.  Every loop
    returns the node's result, its children (a child that ran comes back
    updated, one that did not run comes back as it was) and the state.

    Every loop is an instance of one accumulating scan [scan_acc], which is
    characterised exactly by the prefix of children it runs ([run_prefix]):
    this is the statement that a child after the stopping point is never
    invoked. *)

From stdpp Require Import base list decidable.
From S2P Require Import Prelude Types.

Section Composite.
Context {S E A : Type}.
(** [BehNode::update] of a child. *)
Variable update : A -> S -> E + (BehResult * A * S).

(** ** The loops, as the code writes them *)

(** [Sequence::update] (w2/behLibrary.cpp, lines 56-68). *)
Fixpoint Sequence_update (nodes : list A) (s : S)
  : E + (BehResult * list A * S) :=
  match nodes with
  | [] => inr (BEH_SUCCESS, [], s)
  | node :: rest =>
      match update node s with
      | inl e => inl e
      | inr (res, node', s1) =>
          if bool_decide (res ≠ BEH_SUCCESS) then inr (res, node' :: rest, s1)
          else push_child node' (Sequence_update rest s1)
      end
  end.

(** [Selector::update] (lines 73-85). *)
Fixpoint Selector_update (nodes : list A) (s : S)
  : E + (BehResult * list A * S) :=
  match nodes with
  | [] => inr (BEH_FAIL, [], s)
  | node :: rest =>
      match update node s with
      | inl e => inl e
      | inr (res, node', s1) =>
          if bool_decide (res ≠ BEH_FAIL) then inr (res, node' :: rest, s1)
          else push_child node' (Selector_update rest s1)
      end
  end.

(** The loop of [OrNode::update] (lines 90-107), with its local
    [anySuccess]. *)
Fixpoint OrNode_loop (anySuccess : bool) (nodes : list A) (s : S)
  : E + (BehResult * list A * S) :=
  match nodes with
  | [] => inr (if anySuccess then BEH_SUCCESS else BEH_FAIL, [], s)
  | node :: rest =>
      match update node s with
      | inl e => inl e
      | inr (res, node', s1) =>
          if bool_decide (res = BEH_RUNNING) then inr (res, node' :: rest, s1)
          else push_child node'
                 (OrNode_loop (anySuccess || bool_decide (res = BEH_SUCCESS)) rest s1)
      end
  end.

Definition OrNode_update (nodes : list A) (s : S) := OrNode_loop false nodes s.

(** The loop of [Parallel::update] (lines 112-135), with its flags
    [allSuccess] and [allFinished]. *)
Fixpoint Parallel_loop (allSuccess allFinished : bool) (nodes : list A) (s : S)
  : E + (BehResult * list A * S) :=
  match nodes with
  | [] => inr (if negb allFinished then BEH_RUNNING
               else if allSuccess then BEH_SUCCESS else BEH_FAIL, [], s)
  | node :: rest =>
      match update node s with
      | inl e => inl e
      | inr (res, node', s1) =>
          push_child node'
            (Parallel_loop (allSuccess && bool_decide (res ≠ BEH_FAIL))
                           (allFinished && bool_decide (res ≠ BEH_RUNNING)) rest s1)
      end
  end.

Definition Parallel_update (nodes : list A) (s : S) := Parallel_loop true true nodes s.

(** [NotNode::update] (lines 137-148): the single child's result with
    success and failure swapped. *)
Definition invert (res : BehResult) : BehResult :=
  match res with
  | BEH_FAIL => BEH_SUCCESS
  | BEH_SUCCESS => BEH_FAIL
  | BEH_RUNNING => BEH_RUNNING
  end.

Definition NotNode_update (child : A) (s : S) : E + (BehResult * A * S) :=
  match update child s with
  | inl e => inl e
  | inr (res, child', s1) => inr (invert res, child', s1)
  end.

(** [CompoundNode::react] (lines 32-36) and [FixedArityCompoundNode::react]
    (lines 44-48): every child reacts, in order, with no short-circuit; a
    reaction only changes the blackboard [B] it is given. *)
Definition react_all {B : Type} (react : A -> B -> B) (nodes : list A) (bb : B) : B :=
  fold_left (fun bb node => react node bb) nodes bb.

(** ** The reference scan and the prefix of children it runs *)

(** Run the children in order, stop at the first result [stop] accepts
    and return it; otherwise fold [step] over the results and finish with
    [fin]. *)
Fixpoint scan_acc {B} (stop : BehResult -> bool) (step : B -> BehResult -> B)
    (fin : B -> BehResult) (acc : B) (nodes : list A) (s : S)
  : E + (BehResult * list A * S) :=
  match nodes with
  | [] => inr (fin acc, [], s)
  | node :: rest =>
      match update node s with
      | inl e => inl e
      | inr (res, node', s1) =>
          if stop res then inr (res, node' :: rest, s1)
          else push_child node' (scan_acc stop step fin (step acc res) rest s1)
      end
  end.

(** Run the first [k] children unconditionally, collecting their results
    and their updated selves. *)
Fixpoint run_prefix (k : nat) (nodes : list A) (s : S)
  : E + (list BehResult * list A * S) :=
  match k, nodes with
  | O, _ | _, [] => inr ([], [], s)
  | Datatypes.S k', node :: rest =>
      match update node s with
      | inl e => inl e
      | inr (res, node', s1) =>
          match run_prefix k' rest s1 with
          | inl e => inl e
          | inr (rs, ns, s2) => inr (res :: rs, node' :: ns, s2)
          end
      end
  end.
End Composite.

Section CompositeTheory.
Context {S E A : Type}.
Variable update : A -> S -> E + (BehResult * A * S).

Lemma run_prefix_nil_results k nodes s ns s' :
  run_prefix update k nodes s = inr ([], ns, s') ->
  ns = [] /\ s' = s /\ drop k nodes = nodes.
Proof.
  destruct k as [|k], nodes as [|n nodes]; simpl; try by intros [= <- <-].
  destruct (update n s) as [?|[[??]?]]; [done|].
  by destruct (run_prefix update k nodes _) as [?|[[??]?]].
Qed.

Lemma run_prefix_cons k node rest s rs ns s' :
  run_prefix update (Datatypes.S k) (node :: rest) s = inr (rs, ns, s') <->
  exists res node' s1 rs' ns',
    update node s = inr (res, node', s1) /\
    run_prefix update k rest s1 = inr (rs', ns', s') /\
    rs = res :: rs' /\ ns = node' :: ns'.
Proof.
  simpl. split.
  - destruct (update node s) as [?|[[res node'] s1]]; [done|].
    destruct (run_prefix update k rest s1) as [?|[[rs' ns'] s2]] eqn:Hr; [done|].
    intros [= <- <- <-]. eauto 10.
  - intros (res & node' & s1 & rs' & ns' & -> & -> & -> & ->). done.
Qed.

(** The outcome of a scan that ran the children whose results are [rs]:
    either it ran all [n] children and none stopped it, or the last result
    stopped it. *)
Definition scan_outcome {B} (stop : BehResult -> bool) (step : B -> BehResult -> B)
    (fin : B -> BehResult) (acc : B) (n k : nat) (rs : list BehResult)
    (r : BehResult) : Prop :=
  (k = n /\ Forall (fun x => stop x = false) rs /\ r = fin (foldl step acc rs)) \/
  (exists rs0, rs = rs0 ++ [r] /\ Forall (fun x => stop x = false) rs0 /\ stop r = true).

(** The scan returns [r] exactly when the children it ran are a prefix
    [k] of the list, run in order from [s], whose results are stopped by
    nothing but possibly the last; the children after the prefix come back
    untouched. *)
Lemma scan_acc_spec {B} stop step fin (acc : B) nodes s r nodes' s' :
  scan_acc update stop step fin acc nodes s = inr (r, nodes', s') <->
  exists k rs pre',
    run_prefix update k nodes s = inr (rs, pre', s') /\
    nodes' = pre' ++ drop k nodes /\
    scan_outcome stop step fin acc (length nodes) k rs r.
Proof.
  revert acc s r nodes' s'.
  induction nodes as [|n rest IH]; intros acc s r nodes' s'; simpl.
  - split.
    + intros [= <- <- <-]. exists 0, [], []. split; [done|]. split; [done|]. by left.
    + intros (k & rs & pre' & Hrun & -> & [(_ & _ & ->)|(rs0 & Hrs & _)]);
        destruct k; simpl in Hrun; inv Hrun; [done|done|by destruct rs0|by destruct rs0].
  - destruct (update n s) as [e|[[res n'] s1]] eqn:Hu.
    { split; [done|]. intros (k & rs & pre' & Hrun & _ & Hout).
      destruct k as [|k]; simpl in Hrun; [inv Hrun|by rewrite Hu in Hrun].
      destruct Hout as [(? & _)|(rs0 & ? & _)]; [done|by destruct rs0]. }
    destruct (stop res) eqn:Hs; split.
    + intros [= <- <- <-]. exists 1, [res], [n'].
      rewrite run_prefix_cons. split; [by eauto 10|]. split; [done|].
      right. exists []. auto.
    + intros (k & rs & pre' & Hrun & -> & Hout). destruct k as [|k].
      { simpl in Hrun. inv Hrun.
        destruct Hout as [(? & _)|(rs0 & ? & _)]; [done|by destruct rs0]. }
      apply run_prefix_cons in Hrun
        as (res' & n'' & s2 & rs' & ns' & Hu' & Hrun & -> & ->).
      rewrite Hu in Hu'. inv Hu'.
      destruct Hout as [(_ & Hf & _)|([|x rs0] & Hrs & Hf & Hst)].
      * inv Hf. congruence.
      * inv Hrs. apply run_prefix_nil_results in Hrun as (-> & -> & Hd).
        simpl. by rewrite Hd.
      * inv Hrs. inv Hf. congruence.
    + intros (cs' & H & ->)%push_child_inr.
      apply IH in H as (k & rs & pre' & Hrun & -> & Hout).
      exists (Datatypes.S k), (res :: rs), (n' :: pre').
      rewrite run_prefix_cons. split; [by eauto 10|]. split; [done|].
      destruct Hout as [(-> & Hf & ->)|(rs0 & -> & Hf & Hst)].
      * left. auto.
      * right. exists (res :: rs0). auto.
    + intros (k & rs & pre' & Hrun & -> & Hout). destruct k as [|k].
      { simpl in Hrun. inv Hrun.
        destruct Hout as [(? & _)|(rs0 & ? & _)]; [done|by destruct rs0]. }
      apply run_prefix_cons in Hrun
        as (res' & n'' & s2 & rs' & ns' & Hu' & Hrun & -> & ->).
      rewrite Hu in Hu'. inv Hu'. apply push_child_inr.
      exists (ns' ++ drop k rest). split; [|done].
      apply IH. exists k, rs', ns'. split; [done|]. split; [done|].
      destruct Hout as [(Hk & Hf & ->)|([|x rs0] & Hrs & Hf & Hst)].
      * inv Hf. left. auto.
      * inv Hrs. congruence.
      * inv Hrs. inv Hf. right. eauto.
Qed.
End CompositeTheory.

(** ** Each loop of the code is an instance of the scan *)

Section Instances.
Context {S E A : Type}.
Variable update : A -> S -> E + (BehResult * A * S).

Lemma Sequence_update_scan nodes s :
  Sequence_update update nodes s =
  scan_acc update (fun r => bool_decide (r ≠ BEH_SUCCESS)) (fun _ _ => tt)
           (fun _ => BEH_SUCCESS) tt nodes s.
Proof.
  revert s; induction nodes as [|n ns IH]; intros s; simpl; [done|].
  destruct (update n s) as [|[[r n'] s1]]; [done|]. by rewrite IH.
Qed.

Lemma Selector_update_scan nodes s :
  Selector_update update nodes s =
  scan_acc update (fun r => bool_decide (r ≠ BEH_FAIL)) (fun _ _ => tt)
           (fun _ => BEH_FAIL) tt nodes s.
Proof.
  revert s; induction nodes as [|n ns IH]; intros s; simpl; [done|].
  destruct (update n s) as [|[[r n'] s1]]; [done|]. by rewrite IH.
Qed.

Lemma OrNode_loop_scan b nodes s :
  OrNode_loop update b nodes s =
  scan_acc update (fun r => bool_decide (r = BEH_RUNNING))
           (fun b r => b || bool_decide (r = BEH_SUCCESS))
           (fun b => if b then BEH_SUCCESS else BEH_FAIL) b nodes s.
Proof.
  revert b s; induction nodes as [|n ns IH]; intros b s; simpl; [done|].
  destruct (update n s) as [|[[r n'] s1]]; [done|]. by rewrite IH.
Qed.

Lemma Parallel_loop_scan a f nodes s :
  Parallel_loop update a f nodes s =
  scan_acc update (fun _ => false)
           (fun '(a, f) r => (a && bool_decide (r ≠ BEH_FAIL),
                              f && bool_decide (r ≠ BEH_RUNNING)))
           (fun '(a, f) => if negb f then BEH_RUNNING
                           else if a then BEH_SUCCESS else BEH_FAIL) (a, f) nodes s.
Proof.
  revert a f s; induction nodes as [|n ns IH]; intros a f s; simpl; [done|].
  destruct (update n s) as [|[[r n'] s1]]; [done|]. by rewrite IH.
Qed.
End Instances.

Lemma Forall_bool_decide_false {X} (P : X -> Prop) `{!∀ x, Decision (P x)} l :
  Forall (fun x => bool_decide (P x) = false) l <-> Forall (fun x => ¬ P x) l.
Proof. apply Forall_iff. intros x. by rewrite bool_decide_eq_false. Qed.

Lemma Forall_not_ne (c : BehResult) l :
  Forall (fun x => ¬ x ≠ c) l <-> Forall (fun x => x = c) l.
Proof. apply Forall_iff. intros x. split; [apply dec_stable|by intros -> ?]. Qed.

Lemma Forall_const_false {X} (l : list X) : Forall (fun _ => false = false) l.
Proof. by apply Forall_true. Qed.

#[export] Hint Rewrite @Forall_bool_decide_false Forall_not_ne : bt_rw.
#[export] Hint Resolve Forall_const_false : bt.

Lemma foldl_or_success b rs :
  foldl (fun b r => b || bool_decide (r = BEH_SUCCESS)) b rs =
  b || bool_decide (BEH_SUCCESS ∈ rs).
Proof.
  revert b; induction rs as [|r rs IH]; intros b; simpl.
  - by rewrite orb_false_r.
  - rewrite IH, <-orb_assoc. f_equal.
    repeat case_bool_decide; rewrite ?elem_of_cons in *; naive_solver.
Qed.

Lemma foldl_parallel_flags a f rs :
  foldl (fun '(a, f) r => (a && bool_decide (r ≠ BEH_FAIL),
                           f && bool_decide (r ≠ BEH_RUNNING))) (a, f) rs =
  (a && bool_decide (BEH_FAIL ∉ rs), f && bool_decide (BEH_RUNNING ∉ rs)).
Proof.
  revert a f; induction rs as [|r rs IH]; intros a f; simpl.
  - by rewrite !andb_true_r.
  - rewrite IH, <-!andb_assoc. f_equal; f_equal;
      repeat case_bool_decide; rewrite ?elem_of_cons in *; naive_solver.
Qed.

Section Specs.
Context {S E A : Type}.
Variable update : A -> S -> E + (BehResult * A * S).

(** C1: [Sequence::update] runs its children in order from the first and
    stops at the first one that does not succeed, returning that child's
    result; it returns success exactly when every child ran and succeeded.
    The children after the stopping point are not invoked: they come back
    unchanged and the state is the one the invoked prefix produced. *)
Theorem Sequence_update_spec nodes s r nodes' s' :
  Sequence_update update nodes s = inr (r, nodes', s') <->
  exists k rs pre',
    run_prefix update k nodes s = inr (rs, pre', s') /\
    nodes' = pre' ++ drop k nodes /\
    ((k = length nodes /\ Forall (fun x => x = BEH_SUCCESS) rs /\ r = BEH_SUCCESS) \/
     (exists rs0, rs = rs0 ++ [r] /\ Forall (fun x => x = BEH_SUCCESS) rs0 /\
                  r ≠ BEH_SUCCESS)).
Proof.
  rewrite Sequence_update_scan, scan_acc_spec. unfold scan_outcome.
  setoid_rewrite Forall_bool_decide_false. setoid_rewrite Forall_not_ne.
  setoid_rewrite bool_decide_eq_true. done.
Qed.

(** C2: [Selector::update] is the dual of the sequence: it stops at the
    first child that does not fail and returns its result, and fails
    exactly when every child ran and failed. *)
Theorem Selector_update_spec nodes s r nodes' s' :
  Selector_update update nodes s = inr (r, nodes', s') <->
  exists k rs pre',
    run_prefix update k nodes s = inr (rs, pre', s') /\
    nodes' = pre' ++ drop k nodes /\
    ((k = length nodes /\ Forall (fun x => x = BEH_FAIL) rs /\ r = BEH_FAIL) \/
     (exists rs0, rs = rs0 ++ [r] /\ Forall (fun x => x = BEH_FAIL) rs0 /\
                  r ≠ BEH_FAIL)).
Proof.
  rewrite Selector_update_scan, scan_acc_spec. unfold scan_outcome.
  setoid_rewrite Forall_bool_decide_false. setoid_rewrite Forall_not_ne.
  setoid_rewrite bool_decide_eq_true. done.
Qed.

(** C3: [OrNode::update] stops only at a running child (and returns
    running); otherwise it runs every child, also after a success, and
    succeeds exactly when one of them succeeded. *)
Theorem OrNode_update_spec nodes s r nodes' s' :
  OrNode_update update nodes s = inr (r, nodes', s') <->
  exists k rs pre',
    run_prefix update k nodes s = inr (rs, pre', s') /\
    nodes' = pre' ++ drop k nodes /\
    ((k = length nodes /\ Forall (fun x => x ≠ BEH_RUNNING) rs /\
      r = (if bool_decide (BEH_SUCCESS ∈ rs) then BEH_SUCCESS else BEH_FAIL)) \/
     (exists rs0, rs = rs0 ++ [r] /\ Forall (fun x => x ≠ BEH_RUNNING) rs0 /\
                  r = BEH_RUNNING)).
Proof.
  unfold OrNode_update. rewrite OrNode_loop_scan, scan_acc_spec. unfold scan_outcome.
  setoid_rewrite Forall_bool_decide_false. setoid_rewrite bool_decide_eq_true.
  setoid_rewrite foldl_or_success. done.
Qed.

(** The verdict of [Parallel] on the results of all its children. *)
Lemma Parallel_update_of_run nodes s rs nodes' s' :
  run_prefix update (length nodes) nodes s = inr (rs, nodes', s') ->
  Parallel_update update nodes s =
  inr (if bool_decide (BEH_RUNNING ∈ rs) then BEH_RUNNING
       else if bool_decide (BEH_FAIL ∈ rs) then BEH_FAIL else BEH_SUCCESS, nodes', s').
Proof.
  intros Hrun. unfold Parallel_update. rewrite Parallel_loop_scan, scan_acc_spec.
  unfold scan_outcome. setoid_rewrite foldl_parallel_flags.
  exists (length nodes), rs, nodes'.
  rewrite drop_all, app_nil_r. split; [done|]. split; [done|].
  left. split; [done|]. split; [by apply Forall_true|].
  by repeat case_bool_decide.
Qed.

(** C4: [Parallel::update] runs every child, in order; it is running when
    a child is running (whatever the others returned), otherwise it fails
    when a child failed and succeeds when none did. *)
Theorem Parallel_update_spec nodes s r nodes' s' :
  Parallel_update update nodes s = inr (r, nodes', s') <->
  exists rs,
    run_prefix update (length nodes) nodes s = inr (rs, nodes', s') /\
    r = (if bool_decide (BEH_RUNNING ∈ rs) then BEH_RUNNING
         else if bool_decide (BEH_FAIL ∈ rs) then BEH_FAIL else BEH_SUCCESS).
Proof.
  split.
  - unfold Parallel_update. rewrite Parallel_loop_scan, scan_acc_spec.
    unfold scan_outcome. setoid_rewrite foldl_parallel_flags.
    intros (k & rs & pre' & Hrun & -> & [(-> & _ & ->)|(? & _ & _ & ?)]); [|done].
    exists rs. rewrite drop_all, app_nil_r. split; [done|].
    by repeat case_bool_decide.
  - intros (rs & Hrun & ->). by apply Parallel_update_of_run.
Qed.

(** C5: [NotNode] runs its single child once and swaps success and
    failure: a child's [BEH_SUCCESS] becomes [BEH_FAIL], its [BEH_FAIL]
    becomes [BEH_SUCCESS], [BEH_RUNNING] passes through, the updated child
    and the state are the child's, and a child that raises makes the
    [NotNode] raise the same error. *)
Theorem NotNode_update_spec child s :
  match update child s with
  | inl e => NotNode_update update child s = inl e
  | inr (BEH_SUCCESS, c', s') => NotNode_update update child s = inr (BEH_FAIL, c', s')
  | inr (BEH_FAIL, c', s') => NotNode_update update child s = inr (BEH_SUCCESS, c', s')
  | inr (BEH_RUNNING, c', s') => NotNode_update update child s = inr (BEH_RUNNING, c', s')
  end.
Proof.
  unfold NotNode_update.
  destruct (update child s) as [|[[[] c'] s']]; reflexivity.
Qed.
End Specs.

(** ** Invocation logs

    The testable properties of the spec count invocations.  A scripted
    child [c] returns [script c] and appends its own name to a log kept in
    the state; with distinct names the log is the list of invocations. *)

Definition log_update (script : nat -> BehResult) (c : nat) (log : list nat)
  : Empty_set + (BehResult * nat * list nat) :=
  inr (script c, c, log ++ [c]).

Lemma log_update_eq script c log :
  log_update script c log = inr (script c, c, log ++ [c]).
Proof. done. Qed.

Lemma run_prefix_log script k cs log :
  run_prefix (log_update script) k cs log =
  inr (map script (take k cs), take k cs, log ++ take k cs).
Proof.
  revert k log; induction cs as [|c cs IH]; intros [|k] log; simpl;
    rewrite ?app_nil_r; try done.
  rewrite IH. cbn. by rewrite <-app_assoc.
Qed.

(** With scripted children, [Sequence] invokes exactly the children up
    to and including the first one whose script is not success (and returns
    that script), or all of them (and succeeds) when there is none. *)
Theorem Sequence_invocations script cs log :
  Sequence_update (log_update script) cs log =
  match list_find (fun c => script c ≠ BEH_SUCCESS) cs with
  | Some (i, c) => inr (script c, cs, log ++ take (S i) cs)
  | None => inr (BEH_SUCCESS, cs, log ++ cs)
  end.
Proof.
  revert log; induction cs as [|c cs IH]; intros log; cbn -[log_update].
  - by rewrite app_nil_r.
  - rewrite log_update_eq, decide_bool_decide.
    case_bool_decide as Hc; cbn -[log_update].
    + reflexivity.
    + rewrite IH. destruct (list_find _ cs) as [[i c']|]; cbn;
        by rewrite <-app_assoc.
Qed.

(** With scripted children, [Selector] invokes exactly the children up
    to and including the first one whose script is not failure, or all of
    them (and fails) when there is none. *)
Theorem Selector_invocations script cs log :
  Selector_update (log_update script) cs log =
  match list_find (fun c => script c ≠ BEH_FAIL) cs with
  | Some (i, c) => inr (script c, cs, log ++ take (S i) cs)
  | None => inr (BEH_FAIL, cs, log ++ cs)
  end.
Proof.
  revert log; induction cs as [|c cs IH]; intros log; cbn -[log_update].
  - by rewrite app_nil_r.
  - rewrite log_update_eq, decide_bool_decide.
    case_bool_decide as Hc; cbn -[log_update].
    + reflexivity.
    + rewrite IH. destruct (list_find _ cs) as [[i c']|]; cbn;
        by rewrite <-app_assoc.
Qed.

Lemma OrNode_loop_log script b cs log :
  OrNode_loop (log_update script) b cs log =
  match list_find (fun c => script c = BEH_RUNNING) cs with
  | Some (i, c) => inr (BEH_RUNNING, cs, log ++ take (S i) cs)
  | None => inr (if b || bool_decide (BEH_SUCCESS ∈ map script cs)
                 then BEH_SUCCESS else BEH_FAIL, cs, log ++ cs)
  end.
Proof.
  revert b log; induction cs as [|c cs IH]; intros b log; cbn -[log_update].
  - by rewrite app_nil_r, orb_false_r.
  - rewrite log_update_eq, decide_bool_decide.
    destruct (decide (script c = BEH_RUNNING)) as [Hc|Hc];
      [rewrite !(bool_decide_true (_ = BEH_RUNNING)) by done
      |rewrite !(bool_decide_false (_ = BEH_RUNNING)) by done]; cbn -[log_update].
    + by rewrite Hc.
    + rewrite IH. destruct (list_find _ cs) as [[i c']|]; cbn; rewrite <-?app_assoc;
        [done|]. do 2 f_equal. rewrite <-orb_assoc. f_equal.
      repeat case_bool_decide; rewrite ?elem_of_cons in *; naive_solver.
Qed.

(** With scripted children, [OrNode] stops only after the first
    running child; when no child is running it invokes all of them, also
    after a success, and succeeds exactly when one script is success. *)
Theorem OrNode_invocations script cs log :
  OrNode_update (log_update script) cs log =
  match list_find (fun c => script c = BEH_RUNNING) cs with
  | Some (i, c) => inr (BEH_RUNNING, cs, log ++ take (S i) cs)
  | None => inr (if bool_decide (BEH_SUCCESS ∈ map script cs)
                 then BEH_SUCCESS else BEH_FAIL, cs, log ++ cs)
  end.
Proof. apply OrNode_loop_log. Qed.

(** With scripted children, [Parallel] invokes every child once, in
    order; running dominates failure, which dominates success. *)
Theorem Parallel_invocations script cs log :
  Parallel_update (log_update script) cs log =
  inr (if bool_decide (BEH_RUNNING ∈ map script cs) then BEH_RUNNING
       else if bool_decide (BEH_FAIL ∈ map script cs) then BEH_FAIL
       else BEH_SUCCESS, cs, log ++ cs).
Proof.
  apply Parallel_update_of_run. rewrite run_prefix_log, firstn_all. done.
Qed.

(** ** What every child keeps, the composite keeps

    A relation [R] between the state before and after a run that is
    reflexive, transitive and kept by every child is kept by each
    composite: the composites themselves never touch the state. *)

Section Preserve.
Context {S E A : Type}.
Variable update : A -> S -> E + (BehResult * A * S).
Variable R : S -> S -> Prop.
Hypothesis R_refl : forall s, R s s.
Hypothesis R_trans : forall s1 s2 s3, R s1 s2 -> R s2 s3 -> R s1 s3.

Definition keeps (c : A) : Prop :=
  forall s r c' s', update c s = inr (r, c', s') -> R s s'.

Lemma Sequence_update_keeps nodes s r nodes' s' :
  Forall keeps nodes -> Sequence_update update nodes s = inr (r, nodes', s') -> R s s'.
Proof.
  revert s nodes'. induction nodes as [|c nodes IH]; intros s nodes' Hk H; simpl in H.
  - by injection H as _ _ <-.
  - destruct (update c s) as [|[[res c'] s1]] eqn:Hu; [done|].
    apply Forall_cons_iff in Hk as [Hc Hk]. specialize (Hc _ _ _ _ Hu).
    case_bool_decide; [by injection H as _ _ <-|].
    apply push_child_inr in H as (cs & H & _). eapply R_trans; eauto.
Qed.

Lemma Selector_update_keeps nodes s r nodes' s' :
  Forall keeps nodes -> Selector_update update nodes s = inr (r, nodes', s') -> R s s'.
Proof.
  revert s nodes'. induction nodes as [|c nodes IH]; intros s nodes' Hk H; simpl in H.
  - by injection H as _ _ <-.
  - destruct (update c s) as [|[[res c'] s1]] eqn:Hu; [done|].
    apply Forall_cons_iff in Hk as [Hc Hk]. specialize (Hc _ _ _ _ Hu).
    case_bool_decide; [by injection H as _ _ <-|].
    apply push_child_inr in H as (cs & H & _). eapply R_trans; eauto.
Qed.

Lemma OrNode_loop_keeps any nodes s r nodes' s' :
  Forall keeps nodes -> OrNode_loop update any nodes s = inr (r, nodes', s') -> R s s'.
Proof.
  revert any s nodes'. induction nodes as [|c nodes IH]; intros any s nodes' Hk H;
    simpl in H.
  - by injection H as _ _ <-.
  - destruct (update c s) as [|[[res c'] s1]] eqn:Hu; [done|].
    apply Forall_cons_iff in Hk as [Hc Hk]. specialize (Hc _ _ _ _ Hu).
    case_bool_decide; [by injection H as _ _ <-|].
    apply push_child_inr in H as (cs & H & _). eapply R_trans; eauto.
Qed.

Lemma Parallel_loop_keeps aS aF nodes s r nodes' s' :
  Forall keeps nodes -> Parallel_loop update aS aF nodes s = inr (r, nodes', s') -> R s s'.
Proof.
  revert aS aF s nodes'. induction nodes as [|c nodes IH]; intros aS aF s nodes' Hk H;
    simpl in H.
  - by injection H as _ _ <-.
  - destruct (update c s) as [|[[res c'] s1]] eqn:Hu; [done|].
    apply Forall_cons_iff in Hk as [Hc Hk]. specialize (Hc _ _ _ _ Hu).
    apply push_child_inr in H as (cs & H & _). eapply R_trans; eauto.
Qed.

Lemma NotNode_update_keeps c s r c' s' :
  keeps c -> NotNode_update update c s = inr (r, c', s') -> R s s'.
Proof.
  intros Hc H. unfold NotNode_update in H.
  destruct (update c s) as [|[[res c1] s1]] eqn:Hu; [done|].
  injection H as _ _ <-. eauto.
Qed.

End Preserve.

(** ** Safety under an invariant

    A child is [safe] from [x] to [x'] when, from every state where [P x]
    holds, it returns (raises nothing), its run is a step of the preorder
    [R], and on success [P x'] holds.  [P] is kept by [R].  A [Sequence]
    threads [x] through its children ([chain]); the other composites are
    safe from [x] to [x] when each child is safe from [x].  The typing of
    Typing.v is an instance. *)

Section Safety.
Context {S E A X : Type}.
Variable update : A -> S -> E + (BehResult * A * S).
Variable R : S -> S -> Prop.
Hypothesis R_trans : forall s1 s2 s3, R s1 s2 -> R s2 s3 -> R s1 s3.
Variable P : X -> S -> Prop.
Hypothesis P_mono : forall x s s', P x s -> R s s' -> P x s'.

Definition safe (x : X) (c : A) (x' : X) : Prop :=
  forall s, P x s -> exists r c' s',
    update c s = inr (r, c', s') /\ R s s' /\ (r = BEH_SUCCESS -> P x' s').

(** [x] threaded through a list by a partial [step]. *)
Fixpoint chain (step : X -> A -> option X) (x : X) (cs : list A) : option X :=
  match cs with
  | [] => Some x
  | c :: cs => step x c ≫= fun x' => chain step x' cs
  end.

Hypothesis R_refl : forall s, R s s.

Lemma scan_acc_safe {B} stop step fin (acc : B) x nodes s :
  Forall (fun c => exists x', safe x c x') nodes -> P x s ->
  exists r nodes' s',
    scan_acc update stop step fin acc nodes s = inr (r, nodes', s') /\ R s s'.
Proof.
  revert acc s. induction nodes as [|c nodes IH]; intros acc s Hall Hs; simpl; [eauto|].
  apply Forall_cons_iff in Hall as [[x' Hc] Hall].
  destruct (Hc s Hs) as (r & c' & s1 & -> & Hs1 & _).
  destruct (stop r); [eauto 10|].
  destruct (IH (step acc r) s1 Hall (P_mono _ _ _ Hs Hs1)) as (r' & ns & s2 & -> & Hs2).
  simpl. eauto 10.
Qed.

Lemma Sequence_update_safe (step : X -> A -> option X) x x' nodes s :
  Forall (fun c => forall y y', step y c = Some y' -> safe y c y') nodes ->
  chain step x nodes = Some x' -> P x s ->
  exists r nodes' s', Sequence_update update nodes s = inr (r, nodes', s') /\
    R s s' /\ (r = BEH_SUCCESS -> P x' s').
Proof.
  revert x s. induction nodes as [|c nodes IH]; intros x s Hall Hch Hs; simpl in *.
  { injection Hch as <-. eauto 10. }
  apply Forall_cons_iff in Hall as [Hc Hall].
  destruct (step x c) as [y|] eqn:Hy; [|done]. simpl in Hch.
  destruct (Hc _ _ Hy s Hs) as (r & c' & s1 & -> & Hs1 & Hpost).
  destruct (decide (r = BEH_SUCCESS)) as [->|Hr];
    [rewrite bool_decide_false by auto|rewrite bool_decide_true by auto;
     do 3 eexists; split_and!; [done|done|congruence]].
  destruct (IH y s1 Hall Hch (Hpost eq_refl)) as (r' & ns & s2 & -> & Hs2 & Hp2).
  simpl. eauto 10.
Qed.

(** A [Selector] succeeds when a child does: its postcondition is what
    every child's postcondition implies. *)
Lemma Selector_update_safe x x' nodes s :
  Forall (fun c => exists y, safe x c y /\ forall s, P y s -> P x' s) nodes -> P x s ->
  exists r nodes' s', Selector_update update nodes s = inr (r, nodes', s') /\
    R s s' /\ (r = BEH_SUCCESS -> P x' s').
Proof.
  revert s. induction nodes as [|c nodes IH]; intros s Hall Hs; simpl.
  { do 3 eexists. split_and!; [done|done|discriminate]. }
  apply Forall_cons_iff in Hall as [(y & Hc & Hy) Hall].
  destruct (Hc s Hs) as (r & c' & s1 & -> & Hs1 & Hpost).
  destruct (decide (r = BEH_FAIL)) as [->|Hr];
    [rewrite bool_decide_false by auto|rewrite bool_decide_true by auto; eauto 10].
  destruct (IH s1 Hall (P_mono _ _ _ Hs Hs1)) as (r' & ns & s2 & -> & Hs2 & Hp2).
  simpl. eauto 10.
Qed.

(** An [OrNode] succeeds when a child did, and later children keep what
    that child established. *)
Lemma OrNode_loop_safe x x' any nodes s :
  Forall (fun c => exists y, safe x c y /\ forall s, P y s -> P x' s) nodes -> P x s ->
  (any = true -> P x' s) ->
  exists r nodes' s', OrNode_loop update any nodes s = inr (r, nodes', s') /\
    R s s' /\ (r = BEH_SUCCESS -> P x' s').
Proof.
  revert any s. induction nodes as [|c nodes IH]; intros any s Hall Hs Hany; simpl.
  { do 3 eexists. split_and!; [done|done|]. destruct any; [auto|discriminate]. }
  apply Forall_cons_iff in Hall as [(y & Hc & Hy) Hall].
  destruct (Hc s Hs) as (r & c' & s1 & -> & Hs1 & Hpost).
  destruct (decide (r = BEH_RUNNING)) as [->|Hr].
  { rewrite bool_decide_true by done. do 3 eexists. split_and!; [done|done|discriminate]. }
  rewrite bool_decide_false by done.
  destruct (IH (any || bool_decide (r = BEH_SUCCESS)) s1 Hall (P_mono _ _ _ Hs Hs1))
    as (r' & ns & s2 & -> & Hs2 & Hp2).
  - destruct any; [intros _; eauto|]. simpl. case_bool_decide; [subst; auto|done].
  - simpl. eauto 10.
Qed.

Lemma OrNode_update_safe x x' nodes s :
  Forall (fun c => exists y, safe x c y /\ forall s, P y s -> P x' s) nodes -> P x s ->
  exists r nodes' s', OrNode_update update nodes s = inr (r, nodes', s') /\
    R s s' /\ (r = BEH_SUCCESS -> P x' s').
Proof. intros Hall Hs. apply (OrNode_loop_safe x x'); [exact Hall|exact Hs|discriminate]. Qed.

Lemma Parallel_update_safe x nodes s :
  Forall (fun c => exists x', safe x c x') nodes -> P x s ->
  exists r nodes' s', Parallel_update update nodes s = inr (r, nodes', s') /\ R s s'.
Proof. unfold Parallel_update. rewrite Parallel_loop_scan. apply scan_acc_safe. Qed.

Lemma NotNode_update_safe x x' c s :
  safe x c x' -> P x s ->
  exists r c' s', NotNode_update update c s = inr (r, c', s') /\ R s s'.
Proof.
  intros Hc Hs. unfold NotNode_update.
  destruct (Hc s Hs) as (r & c' & s1 & -> & Hs1 & _). eauto.
Qed.
End Safety.

(** ** The children a composite gives back

    When every run of a child gives back a child related to it by [T]
    (reflexive), a composite gives back its list related by [T] pointwise:
    the children it did not run come back unchanged. *)

Section Children.
Context {S E A : Type}.
Variable update : A -> S -> E + (BehResult * A * S).
Variable T : A -> A -> Prop.
Hypothesis T_refl : forall c, T c c.

Definition gives_back (c : A) : Prop :=
  forall s r c' s', update c s = inr (r, c', s') -> T c c'.

Lemma scan_acc_children {B} stop step fin (acc : B) nodes s r nodes' s' :
  Forall gives_back nodes ->
  scan_acc update stop step fin acc nodes s = inr (r, nodes', s') -> Forall2 T nodes nodes'.
Proof.
  revert acc s nodes'. induction nodes as [|c nodes IH]; intros acc s nodes' Hall H;
    simpl in H; [by injection H as _ <- _|].
  apply Forall_cons_iff in Hall as [Hc Hall].
  destruct (update c s) as [|[[res c'] s1]] eqn:Hu; [done|].
  destruct (stop res).
  - injection H as _ <- _. constructor; [by eapply Hc|]. by apply Forall_Forall2_diag, Forall_true.
  - apply push_child_inr in H as (cs & H & ->). constructor; [by eapply Hc|]. by eapply IH.
Qed.

Lemma Sequence_update_children nodes s r nodes' s' :
  Forall gives_back nodes ->
  Sequence_update update nodes s = inr (r, nodes', s') -> Forall2 T nodes nodes'.
Proof.
  revert s nodes'. induction nodes as [|c nodes IH]; intros s nodes' Hall H;
    simpl in H; [by injection H as _ <- _|].
  apply Forall_cons_iff in Hall as [Hc Hall].
  destruct (update c s) as [|[[res c'] s1]] eqn:Hu; [done|].
  case_bool_decide.
  - injection H as _ <- _. constructor; [by eapply Hc|]. by apply Forall_Forall2_diag, Forall_true.
  - apply push_child_inr in H as (cs & H & ->). constructor; [by eapply Hc|]. by eapply IH.
Qed.

Lemma composite_children nodes s r nodes' s' :
  Forall gives_back nodes ->
  Sequence_update update nodes s = inr (r, nodes', s') \/
  Selector_update update nodes s = inr (r, nodes', s') \/
  OrNode_update update nodes s = inr (r, nodes', s') \/
  Parallel_update update nodes s = inr (r, nodes', s') ->
  Forall2 T nodes nodes'.
Proof.
  intros Hall [H|H]; [by eapply Sequence_update_children|].
  unfold OrNode_update, Parallel_update in H.
  rewrite Selector_update_scan, OrNode_loop_scan, Parallel_loop_scan in H.
  destruct H as [H|[H|H]]; by eapply scan_acc_children.
Qed.
End Children.
