(* ===== verification/Blackboard.v ===== *)
(** The blackboard: a process-wide table from variable names to slots, and
    per-entity storage of typed values by slot.

    blackboard.h is not under src/; this file models the contract of
    spec.md §3 and §4.8, which the code of src/ relies on through
    [reg_entity_blackboard_var<T>(entity, name)], [bb.set<T>(slot, v)] and
    [bb.get<T>(slot)]:
    - registration is idempotent by name: the first registration of a name
      fixes its slot and its type; registering it again, with any type,
      returns the same slot and changes nothing;
    - slots are never reused;
    - storage is type-erased: a slot holds the value last set, with its
      type; reading it at another type is a programming error that fails
      fast ([bb_get] returns [None], the evaluator raises). *)

From Stdlib Require Import QArith ZArith.
From stdpp Require Import base decidable gmap strings list.
From S2P Require Import Prelude Types.

(** The value types the code stores: [flecs::entity] (the targets of
    [MoveToEntity], [Flee], [FindEnemy], ...), [Position] ([Patrol]),
    [bool] ([HoardListener]) and [float] (used by the utility functions). *)
Inductive bbtype : Type := TEntity | TFloat | TPosition | TBool.

#[export] Instance bbtype_eq_dec : EqDecision bbtype.
Proof. solve_decision. Defined.

Inductive bbval : Type :=
| VEntity (e : Entity)
| VFloat (q : Q)
| VPosition (p : Position)
| VBool (b : bool).

Definition type_of (v : bbval) : bbtype :=
  match v with
  | VEntity _ => TEntity
  | VFloat _ => TFloat
  | VPosition _ => TPosition
  | VBool _ => TBool
  end.

(** ** The name table *)

Record NameTable : Type := mkNameTable {
  names : gmap string nat;        (** name -> slot *)
  slot_types : gmap nat bbtype;   (** slot -> the type of its first registration *)
  next_slot : nat                 (** the next fresh slot *)
}.

Definition empty_table : NameTable := mkNameTable ∅ ∅ 0.

(** [reg_entity_blackboard_var<T>(entity, name)] on the name table. *)
Definition reg_name (name : string) (ty : bbtype) (tbl : NameTable)
  : nat * NameTable :=
  match names tbl !! name with
  | Some slot => (slot, tbl)
  | None =>
      let slot := next_slot tbl in
      (slot, mkNameTable (<[name := slot]> (names tbl))
                         (<[slot := ty]> (slot_types tbl)) (S slot))
  end.

(** ** Per-entity storage *)

Abbreviation Blackboard := (gmap nat bbval).

(** [bb.set<T>(slot, v)]: the slot now holds [v], with its type. *)
Definition bb_set (slot : nat) (v : bbval) (bb : Blackboard) : Blackboard :=
  <[slot := v]> bb.

(** [bb.get<T>(slot)]: the stored value when its type is [T]; [None] when
    the slot is empty or holds a value of another type. *)
Definition bb_get (ty : bbtype) (slot : nat) (bb : Blackboard) : option bbval :=
  match bb !! slot with
  | Some v => if decide (type_of v = ty) then Some v else None
  | None => None
  end.

Definition bb_get_entity (slot : nat) (bb : Blackboard) : option Entity :=
  match bb_get TEntity slot bb with Some (VEntity e) => Some e | _ => None end.

Definition bb_get_position (slot : nat) (bb : Blackboard) : option Position :=
  match bb_get TPosition slot bb with Some (VPosition p) => Some p | _ => None end.

(** ** Well-formed name tables *)

(** Every registered name has a slot below [next_slot] with a type, and no
    two names share a slot. *)
Record wf_table (tbl : NameTable) : Prop := {
  wf_bound : forall n i, names tbl !! n = Some i -> i < next_slot tbl;
  wf_typed : forall n i, names tbl !! n = Some i -> is_Some (slot_types tbl !! i);
  wf_inj : forall n1 n2 i, names tbl !! n1 = Some i -> names tbl !! n2 = Some i -> n1 = n2
}.

(** [reg_name] over a list of registrations, in order: the constructors of
    the nodes of one tree register their variables one after the other. *)
Fixpoint reg_all (regs : list (string * bbtype)) (tbl : NameTable)
  : list nat * NameTable :=
  match regs with
  | [] => ([], tbl)
  | (name, ty) :: rest =>
      let '(slot, tbl1) := reg_name name ty tbl in
      let '(slots, tbl2) := reg_all rest tbl1 in
      (slot :: slots, tbl2)
  end.

(** ** Properties of registration *)

Lemma empty_table_wf : wf_table empty_table.
Proof. split; simpl; intros *; rewrite ?lookup_empty; done. Qed.

Lemma reg_name_lookup name ty tbl slot tbl' :
  reg_name name ty tbl = (slot, tbl') -> names tbl' !! name = Some slot.
Proof.
  unfold reg_name. destruct (names tbl !! name) eqn:H; intros [= <- <-]; [done|].
  simpl. by rewrite lookup_insert_eq.
Qed.

(** Registration keeps every earlier name at its slot, with its type. *)
Lemma reg_name_stable name ty tbl slot tbl' n j :
  wf_table tbl -> reg_name name ty tbl = (slot, tbl') ->
  names tbl !! n = Some j ->
  names tbl' !! n = Some j /\ slot_types tbl' !! j = slot_types tbl !! j.
Proof.
  intros Hwf. unfold reg_name. destruct (names tbl !! name) eqn:H;
    intros [= <- <-] Hn; [done|]. simpl.
  assert (j < next_slot tbl) by (eapply wf_bound; eauto).
  rewrite lookup_insert_ne by congruence. rewrite lookup_insert_ne by lia. done.
Qed.

#[export] Hint Resolve empty_table_wf reg_name_lookup : bt.

(** Registration preserves the well-formedness of the name table: slots
    stay below the fresh counter, typed, and owned by one name. *)
Lemma reg_name_wf name ty tbl :
  wf_table tbl -> wf_table (reg_name name ty tbl).2.
Proof.
  intros Hwf. unfold reg_name. destruct (names tbl !! name) eqn:Hname; [done|].
  pose proof (wf_bound _ Hwf) as Hb.
  (* a slot found in the old table is below the fresh one *)
  assert (Hlt : forall n i, names tbl !! n = Some i -> i ≠ next_slot tbl /\ i < S (next_slot tbl))
    by (intros n i Hi; specialize (Hb n i Hi); lia).
  split; simpl.
  - intros n i. rewrite lookup_insert. case_decide; intros Hi; simplify_eq; [lia|].
    by apply Hlt in Hi as [_ ?].
  - intros n i. rewrite lookup_insert. case_decide; intros Hi; simplify_eq.
    + by rewrite lookup_insert_eq.
    + pose proof (Hlt _ _ Hi) as [? _]. rewrite lookup_insert_ne by done.
      by eapply wf_typed.
  - intros n1 n2 i. rewrite !lookup_insert.
    do 2 case_decide; intros H1 H2; simplify_eq; [done| | |].
    + by apply Hlt in H2 as [? _].
    + by apply Hlt in H1 as [? _].
    + by eapply wf_inj.
Qed.

(** registration is idempotent by name: registering a name again,
    with any type, returns the slot of its first registration and leaves
    the table unchanged. *)
Theorem reg_name_idempotent name ty ty' tbl slot tbl' :
  reg_name name ty tbl = (slot, tbl') -> reg_name name ty' tbl' = (slot, tbl').
Proof. intros H. unfold reg_name at 1. by rewrite (reg_name_lookup _ _ _ _ _ H). Qed.

(** distinct names registered one after the other get distinct
    slots. *)
Theorem reg_name_distinct n1 n2 ty1 ty2 tbl s1 tbl1 s2 tbl2 :
  wf_table tbl -> n1 ≠ n2 ->
  reg_name n1 ty1 tbl = (s1, tbl1) -> reg_name n2 ty2 tbl1 = (s2, tbl2) ->
  s1 ≠ s2.
Proof.
  intros Hwf Hne H1 H2 <-.
  assert (wf_table tbl1) as Hwf1 by (pose proof (reg_name_wf n1 ty1 tbl Hwf); by rewrite H1 in *).
  assert (wf_table tbl2) as Hwf2 by (pose proof (reg_name_wf n2 ty2 tbl1 Hwf1); by rewrite H2 in *).
  apply Hne. eapply (wf_inj _ Hwf2); [|by eapply reg_name_lookup].
  exact (proj1 (reg_name_stable _ _ _ _ _ _ _ Hwf1 H2 (reg_name_lookup _ _ _ _ _ H1))).
Qed.

Lemma reg_all_wf regs tbl : wf_table tbl -> wf_table (reg_all regs tbl).2.
Proof.
  revert tbl; induction regs as [|[name ty] regs IH]; intros tbl Hwf; simpl; [done|].
  pose proof (reg_name_wf name ty tbl Hwf) as Hwf1.
  destruct (reg_name name ty tbl) as [slot tbl1].
  specialize (IH tbl1 Hwf1). destruct (reg_all regs tbl1). done.
Qed.

(** A name already in the table keeps its slot and type through any further
    registrations, and every later registration of it returns that slot. *)
Lemma reg_all_registered regs tbl n slot :
  wf_table tbl -> names tbl !! n = Some slot ->
  names (reg_all regs tbl).2 !! n = Some slot /\
  slot_types (reg_all regs tbl).2 !! slot = slot_types tbl !! slot /\
  (forall j ty', regs !! j = Some (n, ty') -> (reg_all regs tbl).1 !! j = Some slot).
Proof.
  revert tbl; induction regs as [|[name ty] regs IH]; intros tbl Hwf Hn; simpl.
  - split; [done|]. split; [done|]. by intros [].
  - pose proof (reg_name_wf name ty tbl Hwf) as Hwf1.
    destruct (reg_name name ty tbl) as [s1 tbl1] eqn:Hr. simpl in Hwf1.
    destruct (reg_name_stable _ _ _ _ _ _ _ Hwf Hr Hn) as [Hn1 Ht1].
    destruct (IH tbl1 Hwf1 Hn1) as (Hn2 & Ht2 & Hj).
    destruct (reg_all regs tbl1) as [slots tbl2]; simpl in *.
    split; [done|]. split; [congruence|].
    intros [|j] ty' Hj'; simpl in Hj' |- *; [|by eapply Hj].
    simplify_eq. unfold reg_name in Hr. rewrite Hn in Hr. congruence.
Qed.

(** over any sequence of registrations, a name gets the slot and the
    type of its first registration, and every registration of it returns
    that same slot, whatever type it asks for. *)
Theorem reg_all_first_wins regs tbl n ty k :
  wf_table tbl -> names tbl !! n = None ->
  list_find (fun r => r.1 = n) regs = Some (k, (n, ty)) ->
  exists slot,
    names (reg_all regs tbl).2 !! n = Some slot /\
    slot_types (reg_all regs tbl).2 !! slot = Some ty /\
    (forall j ty', regs !! j = Some (n, ty') -> (reg_all regs tbl).1 !! j = Some slot).
Proof.
  revert tbl k; induction regs as [|[name ty0] regs IH]; intros tbl k Hwf Hn Hf;
    simpl in Hf; [done|].
  pose proof (reg_name_wf name ty0 tbl Hwf) as Hwf1.
  simpl. destruct (reg_name name ty0 tbl) as [s1 tbl1] eqn:Hr. simpl in Hwf1.
  case_decide as Heq; simpl in Heq; subst.
  - simplify_eq. exists s1.
    pose proof (reg_name_lookup _ _ _ _ _ Hr) as Hn1.
    destruct (reg_all_registered regs tbl1 n s1 Hwf1 Hn1) as (Hn2 & Ht2 & Hj).
    unfold reg_name in Hr. rewrite Hn in Hr. simplify_eq.
    destruct (reg_all regs _) as [slots tbl2]; simpl in *.
    split; [done|]. split; [by rewrite Ht2, lookup_insert_eq|].
    intros [|j] ty' Hj'; simpl in *; [done|]. by eapply Hj.
  - destruct (list_find _ regs) as [[k' [n' ty']]|] eqn:Hf'; simplify_eq/=.
    assert (names tbl1 !! n = None) as Hn1.
    { unfold reg_name in Hr. destruct (names tbl !! name); simplify_eq; [done|].
      simpl. by rewrite lookup_insert_ne. }
    edestruct (IH tbl1 k') as (slot & Hn2 & Ht2 & Hj); [done|done|done|].
    exists slot. destruct (reg_all regs tbl1) as [slots tbl2]; simpl in *.
    split; [done|]. split; [done|].
    intros [|j] ty' Hj'; simpl in *; [simplify_eq|by eapply Hj].
Qed.

(** ** Properties of storage *)

(** a read after a write returns the written value at the written
    slot when the types agree and fails (no coercion) when they do not;
    every other slot reads as before. *)
Theorem bb_get_set ty slot slot' v bb :
  bb_get ty slot' (bb_set slot v bb) =
  if decide (slot' = slot) then (if decide (type_of v = ty) then Some v else None)
  else bb_get ty slot' bb.
Proof.
  unfold bb_get, bb_set. case_decide as Hs.
  - subst. by rewrite lookup_insert_eq.
  - by rewrite lookup_insert_ne by congruence.
Qed.

Lemma bb_get_type ty slot bb v : bb_get ty slot bb = Some v -> type_of v = ty.
Proof.
  unfold bb_get. destruct (bb !! slot); [|done]. case_decide; congruence.
Qed.

Lemma bb_get_entity_set slot e bb : bb_get_entity slot (bb_set slot (VEntity e) bb) = Some e.
Proof. unfold bb_get_entity, bb_get, bb_set. by rewrite lookup_insert_eq. Qed.

Lemma bb_get_entity_set_ne slot slot' v bb :
  slot' ≠ slot -> bb_get_entity slot' (bb_set slot v bb) = bb_get_entity slot' bb.
Proof. intros. unfold bb_get_entity, bb_get, bb_set. by rewrite lookup_insert_ne. Qed.

Lemma bb_get_entity_Some slot bb e :
  bb_get_entity slot bb = Some e <-> bb !! slot = Some (VEntity e).
Proof.
  unfold bb_get_entity, bb_get. destruct (bb !! slot) as [[]|]; simpl;
    split; intros; simplify_eq; done.
Qed.

#[export] Hint Rewrite bb_get_entity_set : bt_rw.

(** ** Witnesses *)

(** [HoardListener]'s constructor registers its target and its flag under
    the one name it is given (w2/behLibrary.cpp, lines 372-373). *)
Lemma reg_all_first_wins_witness :
  exists slot,
    names (reg_all [("hoard provoker", TEntity); ("hoard provoker", TBool)] empty_table).2
      !! "hoard provoker" = Some slot /\
    slot_types (reg_all [("hoard provoker", TEntity); ("hoard provoker", TBool)] empty_table).2
      !! slot = Some TEntity /\
    (forall j ty', [("hoard provoker", TEntity); ("hoard provoker", TBool)] !! j =
                   Some ("hoard provoker", ty') ->
       (reg_all [("hoard provoker", TEntity); ("hoard provoker", TBool)] empty_table).1 !! j =
       Some slot).
Proof.
  apply (reg_all_first_wins _ empty_table "hoard provoker" TEntity 0);
    [apply empty_table_wf|reflexivity|vm_compute; reflexivity].
Defined.

Lemma reg_name_idempotent_witness :
  reg_name "hoard provoker" TBool (reg_name "hoard provoker" TEntity empty_table).2 =
  ((reg_name "hoard provoker" TEntity empty_table).1,
   (reg_name "hoard provoker" TEntity empty_table).2).
Proof. apply (reg_name_idempotent "hoard provoker" TEntity TBool empty_table). reflexivity. Defined.

Lemma reg_name_distinct_witness :
  (reg_name "flee_enemy" TEntity empty_table).1 ≠
  (reg_name "patrol_pos" TPosition (reg_name "flee_enemy" TEntity empty_table).2).1.
Proof.
  apply (reg_name_distinct "flee_enemy" "patrol_pos" TEntity TPosition empty_table _
           (reg_name "flee_enemy" TEntity empty_table).2 _
           (reg_name "patrol_pos" TPosition (reg_name "flee_enemy" TEntity empty_table).2).2);
    [apply empty_table_wf|vm_compute; discriminate|reflexivity|reflexivity].
Defined.
