(* ===== verification/RandomUtil.v ===== *)
(** The weighted sampler of src/w3/randomUtil.hpp ([rnd::sample]) and the
    random-source interface the program consumes.

    - [RandomSource] states what the program takes from its random
      engines: [uniform01] is one draw of
      [std::uniform_real_distribution<float>(0, 1)] from the engine of
      [rnd::get_engine()], and [get_random_value lo hi] is raylib's
      [GetRandomValue(lo, hi)] (used by [Patrol] and [RandomWalk]).
      [RandomSourceLaws] states the ranges the library documents; the
      theorems are proved against these laws only.
    - [rnd.sample] follows the code: the total weight, the normalised
      weights, their partial sums ("borders"), one draw per result and
      [std::lower_bound] on the borders; a draw past the last border is
      retried (the [--generated] of the code on a [size_t] counter).
    - A float is an exact rational, an infinity or NaN ([float]).  The
      division by a zero total is IEEE's: [w / 0] is an infinity of the
      sign of [w] and [0 / 0] is NaN; every comparison with NaN is false.
      Rounding is not modelled: with exact rationals the last border of
      non-negative weights is exactly 1, so the retry of lines 32-35 is
      only reached by borders that are not (the theorem [sample_in_range]
      holds for any borders).  The code only samples non-negative weights
      (the utility scores are clamped at 0). *)

From Stdlib Require Import QArith Lqa ZArith Lia.
From stdpp Require Import base decidable list.
From S2P Require Import Prelude.

(** ** The random-source interface *)

Class RandomSource (G : Type) := {
  uniform01 : G -> Q * G;
  get_random_value : Z -> Z -> G -> Z * G
}.

Class RandomSourceLaws (G : Type) `{!RandomSource G} := {
  uniform01_range : forall g, (0 <= (uniform01 g).1 /\ (uniform01 g).1 < 1)%Q;
  get_random_value_range : forall lo hi g,
    (lo <= hi)%Z -> (lo <= (get_random_value lo hi g).1 <= hi)%Z
}.

(** A scripted source for tests: a tape of draws, each clamped into the
    documented range, then zeros. *)
Definition clamp01 (q : Q) : Q := if Qle_bool 0 q && negb (Qle_bool 1 q) then q else 0%Q.

#[export] Instance tape_source : RandomSource (list Q * list Z) := {
  uniform01 g := match g.1 with
                 | q :: rest => (clamp01 q, (rest, g.2))
                 | [] => (0%Q, g)
                 end;
  get_random_value lo hi g := match g.2 with
                              | z :: rest => (Z.max lo (Z.min hi z), (g.1, rest))
                              | [] => (lo, g)
                              end
}.

#[export] Instance tape_source_laws : RandomSourceLaws (list Q * list Z).
Proof.
  split.
  - intros [[|q qs] zs]; simpl; [split; [apply Qle_refl|done]|].
    unfold clamp01. destruct (Qle_bool 0 q) eqn:H0, (Qle_bool 1 q) eqn:H1; simpl;
      try (split; [apply Qle_refl|done]).
    apply Qle_bool_iff in H0. split; [done|]. apply Qnot_le_lt.
    intros Hle. apply Qle_bool_iff in Hle. congruence.
  - intros lo hi [qs [|z zs]] Hle; simpl; lia.
Qed.

(** ** Comparisons on floats that may be NaN *)

Definition Qltb (a b : Q) : bool := negb (Qle_bool b a).

(** A [float] value: finite (an exact rational), an infinity of the given
    sign ([true] for [+inf]), or NaN. *)
Inductive float : Type := FFin (q : Q) | FInf (pos : bool) | FNaN.

(** [a < v] for a float [a] and a finite [v]: false for NaN and [+inf],
    true for [-inf]. *)
Definition flt (a : float) (v : Q) : bool :=
  match a with FFin q => Qltb q v | FInf pos => negb pos | FNaN => false end.

(** [a + b]: infinities absorb finite values, opposite infinities give
    NaN, NaN absorbs everything. *)
Definition fadd (a b : float) : float :=
  match a, b with
  | FFin x, FFin y => FFin (x + y)%Q
  | FFin _, FInf p | FInf p, FFin _ => FInf p
  | FInf p, FInf p' => if Bool.eqb p p' then FInf p else FNaN
  | _, _ => FNaN
  end.

(** [size_t] arithmetic of the sampling loop's counter. *)
Definition size_t_mod : Z := 2 ^ 64.
Definition size_t_dec (x : Z) : Z := (x - 1) mod size_t_mod.
Definition size_t_inc (x : Z) : Z := (x + 1) mod size_t_mod.

Module rnd.
Section Sample.
Context {G : Type} `{!RandomSource G}.

(** [std::lower_bound(first, last, value)] as libstdc++ writes it: halve
    the range [first, first+len) until it is empty, keeping the first
    border that is not below the value.  [fuel] bounds the loop; the
    length of the range is enough ([rnd_facts.lower_bound_loop_spec]). *)
Fixpoint lower_bound_loop (fuel : nat) (borders : list (float)) (v : Q)
    (first len : nat) : nat :=
  match fuel with
  | O => first
  | S fuel' =>
      if decide (len = 0) then first
      else
        let half := Nat.div2 len in
        let middle := first + half in
        if flt (nth middle borders FNaN) v
        then lower_bound_loop fuel' borders v (S middle) (len - half - 1)
        else lower_bound_loop fuel' borders v first half
  end.

Definition lower_bound (borders : list (float)) (v : Q) : nat :=
  lower_bound_loop (length borders) borders v 0 (length borders).

(** [std::accumulate(weights, 0.0f)]. *)
Definition total_weight (weights : list Q) : Q := foldl Qplus 0%Q weights.

(** [weight / total_weight]: a zero total is [+0.0] (a float sum that
    starts at [0.0f] and cancels exactly gives [+0.0]), so [w / 0] is
    [+inf] or [-inf] by the sign of [w], and [0 / 0] is NaN. *)
Definition normalize (total w : Q) : float :=
  if Qeq_bool total 0 then (if Qeq_bool w 0 then FNaN else FInf (Qltb 0 w))
  else FFin (w / total)%Q.

(** [std::partial_sum] of the normalised weights. *)
Fixpoint partial_sums (acc : float) (xs : list (float)) : list (float) :=
  match xs with
  | [] => []
  | x :: xs' => let a := fadd acc x in a :: partial_sums a xs'
  end.

Definition borders_of (weights : list Q) : list (float) :=
  partial_sums (FFin 0%Q) (map (normalize (total_weight weights)) weights).

(** The [for (generated = 0; generated < num; ++generated)] loop of
    [rnd::sample]: a draw that falls past the last border undoes the
    increment ([--generated; continue;]) and draws again. *)
Fixpoint sample_loop (fuel : nat) (borders : list (float)) (num generated : Z)
    (g : G) (acc : list nat) : option (list nat * G) :=
  match fuel with
  | O => None
  | S fuel' =>
      if Z.ltb generated num then
        let '(random, g1) := uniform01 g in
        let item := lower_bound borders random in
        if decide (item = length borders)
        then sample_loop fuel' borders num (size_t_inc (size_t_dec generated)) g1 acc
        else sample_loop fuel' borders num (size_t_inc generated) g1 (acc ++ [item])
      else Some (acc, g)
  end.

(** [rnd::sample(engine, container, weights, num)]: the indices of the
    chosen elements, or [None] when the fuel ran out. *)
Definition sample (fuel : nat) (weights : list Q) (num : Z) (g : G)
  : option (list nat * G) :=
  sample_loop fuel (borders_of weights) num 0 g [].

(** [rnd::sample(...).front()], the only use the program makes of it. *)
Definition sample_front (fuel : nat) (weights : list Q) (g : G) : option (nat * G) :=
  match sample fuel weights 1 g with
  | Some (i :: _, g') => Some (i, g')
  | _ => None
  end.
End Sample.
End rnd.

(** ** [lower_bound] is the linear search for the first border not below
    the value *)

Module rnd_facts.
Import rnd.

(** The reference: count the leading borders below [v]. *)
Fixpoint lin_lower_bound (borders : list (float)) (v : Q) : nat :=
  match borders with
  | [] => 0
  | b :: bs => if flt b v then S (lin_lower_bound bs v) else 0
  end.

(** The precondition of [std::lower_bound]: the borders below [v] come
    first. *)
Definition partitioned (borders : list (float)) (v : Q) : Prop :=
  forall i j, i <= j -> j < length borders ->
    flt (nth j borders FNaN) v = true -> flt (nth i borders FNaN) v = true.

Section LinearSearch.
Variables (borders : list (float)) (v : Q).

Lemma lin_lower_bound_le : lin_lower_bound borders v <= length borders.
Proof. induction borders as [|b bs IH]; simpl; [lia|]. destruct (flt b v); lia. Qed.

Lemma lin_lower_bound_below i :
  i < lin_lower_bound borders v -> flt (nth i borders FNaN) v = true.
Proof.
  revert i; induction borders as [|b bs IH]; intros i; simpl; [lia|].
  destruct (flt b v) eqn:Hb; [|lia]. destruct i; [done|]. intros. apply IH. lia.
Qed.

Lemma lin_lower_bound_at :
  lin_lower_bound borders v < length borders ->
  flt (nth (lin_lower_bound borders v) borders FNaN) v = false.
Proof.
  induction borders as [|b bs IH]; simpl; [lia|].
  destruct (flt b v) eqn:Hb; [|done]. intros. apply IH. lia.
Qed.

Lemma lin_lower_bound_above i :
  partitioned borders v -> i < length borders ->
  flt (nth i borders FNaN) v = true -> i < lin_lower_bound borders v.
Proof.
  intros Hp Hi Ht. destruct (decide (i < lin_lower_bound borders v)); [done|].
  assert (lin_lower_bound borders v < length borders) as Hlt by lia.
  pose proof (lin_lower_bound_at Hlt) as Hf.
  rewrite (Hp (lin_lower_bound borders v) i) in Hf; [done|lia|lia|done].
Qed.

(** The loop keeps the answer inside its range [first, first+len]. *)
Lemma lower_bound_loop_spec fuel first len :
  partitioned borders v -> len <= fuel ->
  first <= lin_lower_bound borders v <= first + len ->
  first + len <= length borders ->
  lower_bound_loop fuel borders v first len = lin_lower_bound borders v.
Proof.
  intros Hp. revert first len.
  induction fuel as [|fuel IH]; intros first len Hlen Hin Hrange; simpl; [lia|].
  case_decide as Hz; [lia|].
  assert (Nat.div2 len < len) by (apply Nat.lt_div2; lia).
  assert (Nat.div2 len + Nat.div2 len <= len)
    by (pose proof (Nat.div2_odd len); destruct (Nat.odd len); simpl in *; lia).
  (* [lia] reads [Nat.div2] as an integer of unknown sign: name it. *)
  set (half := Nat.div2 len) in *. clearbody half.
  destruct (flt (nth (first + half) borders FNaN) v) eqn:Hm.
  - apply lin_lower_bound_above in Hm; [|done|lia]. apply IH; lia.
  - assert (lin_lower_bound borders v <= first + half).
    { destruct (decide (lin_lower_bound borders v <= first + half)); [done|].
      rewrite lin_lower_bound_below in Hm; [done|lia]. }
    apply IH; lia.
Qed.
End LinearSearch.

(** The precondition as a boolean test: once a border is not below [v],
    no later border is. *)
Fixpoint partitionedb (borders : list (float)) (v : Q) : bool :=
  match borders with
  | [] => true
  | b :: bs => if flt b v then partitionedb bs v else forallb (fun b' => negb (flt b' v)) bs
  end.

Lemma partitionedb_spec borders v : partitionedb borders v = true -> partitioned borders v.
Proof.
  induction borders as [|b bs IH]; simpl; intros Hb i j Hij Hj; [simpl in Hj; lia|].
  destruct i as [|i], j as [|j]; simpl; try lia; intros Hf.
  - by destruct (flt b v).
  - destruct (flt b v); [done|].
    apply forallb_forall with (x := nth j bs FNaN) in Hb; [|apply nth_In; simpl in Hj; lia].
    by rewrite Hf in Hb.
  - destruct (flt b v) eqn:Hbv.
    + apply (IH Hb i j); [lia|simpl in Hj; lia|done].
    + apply forallb_forall with (x := nth j bs FNaN) in Hb; [|apply nth_In; simpl in Hj; lia].
      by rewrite Hf in Hb.
Qed.

(** libstdc++'s binary search [std::lower_bound] returns the index of
    the first border that is not below the value, as the linear search
    does, whenever the borders below the value come first. *)
Theorem lower_bound_correct borders v :
  partitionedb borders v = true -> lower_bound borders v = lin_lower_bound borders v.
Proof.
  intros Hp%partitionedb_spec. unfold lower_bound. apply lower_bound_loop_spec; try done; try lia.
  pose proof (lin_lower_bound_le borders v). lia.
Qed.

Lemma lower_bound_partitioned borders v :
  partitioned borders v -> lower_bound borders v = lin_lower_bound borders v.
Proof.
  intros Hp. unfold lower_bound. apply lower_bound_loop_spec; try done; try lia.
  pose proof (lin_lower_bound_le borders v). lia.
Qed.

(** ** The borders of non-negative weights *)

Fixpoint qpsums (a : Q) (xs : list Q) : list Q :=
  match xs with
  | [] => []
  | x :: xs' => (a + x)%Q :: qpsums (a + x)%Q xs'
  end.

Lemma length_partial_sums a xs : length (partial_sums a xs) = length xs.
Proof. revert a; induction xs; intros; simpl; auto. Qed.

Lemma length_borders_of ws : length (borders_of ws) = length ws.
Proof. unfold borders_of. by rewrite length_partial_sums, length_map. Qed.

Lemma length_qpsums a xs : length (qpsums a xs) = length xs.
Proof. revert a; induction xs; intros; simpl; auto. Qed.

Lemma partial_sums_None a (ws : list Q) :
  partial_sums a (map (fun _ => FNaN) ws) = map (fun _ => FNaN) ws.
Proof.
  revert a; induction ws as [|w ws IH]; intros a; simpl; [done|].
  replace (fadd a FNaN) with (FNaN) by (by destruct a). by rewrite IH.
Qed.

Lemma partial_sums_Some a xs :
  partial_sums (FFin a) (map FFin xs) = map FFin (qpsums a xs).
Proof. revert a; induction xs as [|x xs IH]; intros a; simpl; [done|]. by rewrite IH. Qed.

Lemma borders_of_pos ws :
  Qeq_bool (total_weight ws) 0 = false ->
  borders_of ws = map FFin (qpsums 0 (map (fun w => w / total_weight ws)%Q ws)).
Proof.
  intros Hz. unfold borders_of, normalize. rewrite Hz, <-partial_sums_Some.
  by rewrite map_map.
Qed.

Lemma qpsums_nth_S a xs i :
  (S i < length xs)%nat ->
  nth (S i) (qpsums a xs) 0%Q = (nth i (qpsums a xs) 0 + nth (S i) xs 0)%Q.
Proof.
  revert a i; induction xs as [|x xs IH]; intros a i Hi; simpl in *; [lia|].
  destruct i as [|i]; [destruct xs; simpl in *; [lia|done]|].
  apply IH. lia.
Qed.

Lemma qpsums_mono a xs i j :
  Forall (fun x => 0 <= x)%Q xs -> (i <= j)%nat -> (j < length xs)%nat ->
  (nth i (qpsums a xs) 0 <= nth j (qpsums a xs) 0)%Q.
Proof.
  intros Hnn Hij. induction Hij as [|j Hij IH]; intros Hj; [apply Qle_refl|].
  rewrite qpsums_nth_S by done.
  assert (0 <= nth (S j) xs 0)%Q.
  { rewrite Forall_forall in Hnn. apply Hnn, list_elem_of_In, nth_In. done. }
  specialize (IH ltac:(lia)). lra.
Qed.

Lemma qpsums_last a xs :
  xs ≠ [] -> nth (length xs - 1) (qpsums a xs) 0%Q = foldl Qplus a xs.
Proof.
  revert a; induction xs as [|x xs IH]; intros a Hne; simpl; [done|].
  destruct xs as [|y xs]; [done|]. rewrite <-IH by done. simpl. by rewrite Nat.sub_0_r.
Qed.

Lemma foldl_Qplus_acc a ws : (foldl Qplus a ws == a + foldl Qplus 0 ws)%Q.
Proof.
  revert a; induction ws as [|w ws IH]; intros a; simpl; [lra|].
  rewrite IH, (IH (0 + w)%Q). lra.
Qed.

Lemma foldl_Qplus_div a t ws :
  (foldl Qplus a (map (fun w => w / t) ws) == a + foldl Qplus 0 ws / t)%Q.
Proof.
  revert a; induction ws as [|w ws IH]; intros a; simpl.
  - unfold Qdiv. rewrite Qmult_0_l. lra.
  - rewrite IH, (foldl_Qplus_acc (0 + w)%Q). unfold Qdiv.
    rewrite Qmult_plus_distr_l, Qmult_plus_distr_l, Qmult_0_l. lra.
Qed.

Lemma total_weight_nonneg ws : Forall (fun w => 0 <= w)%Q ws -> (0 <= total_weight ws)%Q.
Proof.
  unfold total_weight. induction 1 as [|w ws Hw _ IH]; simpl; [lra|].
  rewrite foldl_Qplus_acc. lra.
Qed.

(** Non-negative weights of total zero are all zero. *)
Lemma nonneg_total_zero ws :
  Forall (fun w => 0 <= w)%Q ws -> Qeq_bool (total_weight ws) 0 = true ->
  Forall (fun w => Qeq_bool w 0 = true) ws.
Proof.
  unfold total_weight. intros Hnn Hz. apply Qeq_bool_iff in Hz.
  induction Hnn as [|w ws Hw Hws IH]; constructor.
  - apply Qeq_bool_iff. simpl in Hz. rewrite foldl_Qplus_acc in Hz.
    pose proof (total_weight_nonneg ws Hws). unfold total_weight in *. lra.
  - apply IH. simpl in Hz. rewrite foldl_Qplus_acc in Hz.
    pose proof (total_weight_nonneg ws Hws). unfold total_weight in *. lra.
Qed.

(** An all-zero weight vector has NaN borders. *)
Lemma borders_of_zero ws j :
  Forall (fun w => 0 <= w)%Q ws -> Qeq_bool (total_weight ws) 0 = true ->
  nth j (borders_of ws) FNaN = FNaN.
Proof.
  intros Hnn Hz. pose proof (nonneg_total_zero ws Hnn Hz) as Hall.
  unfold borders_of.
  replace (map (normalize (total_weight ws)) ws) with (map (fun _ => FNaN) ws).
  2:{ apply map_ext_in. intros w Hw. unfold normalize. rewrite Hz.
      rewrite Forall_forall in Hall. by rewrite (Hall w ltac:(by apply list_elem_of_In)). }
  rewrite partial_sums_None.
  by rewrite (map_nth (fun _ : Q => FNaN) ws 0%Q).
Qed.

Lemma normalized_nonneg t ws :
  (0 < t)%Q -> Forall (fun w => 0 <= w)%Q ws ->
  Forall (fun x => 0 <= x)%Q (map (fun w => w / t)%Q ws).
Proof.
  intros Ht Hws. apply Forall_map. eapply Forall_impl; [done|].
  intros w Hw. apply Qle_shift_div_l; [done|]. rewrite Qmult_0_l. exact Hw.
Qed.

Lemma Qltb_true a b : Qltb a b = true <-> (a < b)%Q.
Proof.
  unfold Qltb. rewrite negb_true_iff. split.
  - intros H. apply Qnot_le_lt. intros Hle. apply Qle_bool_iff in Hle. congruence.
  - intros H. destruct (Qle_bool b a) eqn:Hb; [|done].
    apply Qle_bool_iff in Hb. exfalso. by apply (Qlt_not_le a b).
Qed.

Lemma nth_map_Some (l : list Q) j :
  (j < length l)%nat -> nth j (map FFin l) FNaN = FFin (nth j l 0%Q).
Proof. intros Hj. rewrite (nth_indep _ FNaN (FFin 0%Q)) by (by rewrite length_map). apply map_nth. Qed.

Lemma nth_normalized (ws : list Q) (t : Q) j :
  (j < length ws)%nat -> nth j (map (fun w => w / t)%Q ws) 0%Q = (nth j ws 0 / t)%Q.
Proof.
  intros Hj. rewrite (nth_indep _ 0%Q (0 / t)%Q) by (by rewrite length_map).
  apply (map_nth (fun w => w / t)%Q).
Qed.

Lemma total_pos ws :
  Forall (fun w => 0 <= w)%Q ws -> Qeq_bool (total_weight ws) 0 = false ->
  (0 < total_weight ws)%Q.
Proof.
  intros Hnn Hz. destruct (Qle_lt_or_eq _ _ (total_weight_nonneg ws Hnn)) as [|Heq]; [done|].
  assert (Qeq_bool (total_weight ws) 0 = true) by (apply Qeq_bool_iff; by symmetry).
  congruence.
Qed.

Lemma borders_partitioned ws v :
  Forall (fun w => 0 <= w)%Q ws -> partitioned (borders_of ws) v.
Proof.
  intros Hnn i j Hij Hj. destruct (Qeq_bool (total_weight ws) 0) eqn:Hz.
  { by rewrite borders_of_zero. }
  pose proof (total_pos ws Hnn Hz) as Ht.
  rewrite length_borders_of in Hj. rewrite borders_of_pos by done.
  rewrite !nth_map_Some by (rewrite length_qpsums, length_map; lia).
  simpl. rewrite !Qltb_true. intros Hlt.
  pose proof (qpsums_mono 0 _ i j (normalized_nonneg _ ws Ht Hnn) Hij
                ltac:(rewrite length_map; lia)).
  lra.
Qed.

(** A draw in [0, 1) always falls on a border: with exact arithmetic the
    last border is 1. *)
Lemma lower_bound_lands ws r :
  ws ≠ [] -> Forall (fun w => 0 <= w)%Q ws -> (0 <= r < 1)%Q ->
  (lower_bound (borders_of ws) r < length ws)%nat.
Proof.
  intros Hne Hnn Hr. rewrite lower_bound_partitioned by by apply borders_partitioned.
  pose proof (lin_lower_bound_le (borders_of ws) r) as Hle.
  rewrite length_borders_of in Hle.
  destruct (decide (lin_lower_bound (borders_of ws) r = length ws)) as [Heq|]; [|lia].
  assert (length ws - 1 < lin_lower_bound (borders_of ws) r)%nat as Hlast
    by (destruct ws; simpl in *; [done|lia]).
  apply lin_lower_bound_below in Hlast.
  destruct (Qeq_bool (total_weight ws) 0) eqn:Hz.
  { by rewrite borders_of_zero in Hlast. }
  pose proof (total_pos ws Hnn Hz) as Ht.
  rewrite borders_of_pos, nth_map_Some in Hlast by
    (done || (rewrite length_qpsums, length_map; destruct ws; simpl; [done|lia])).
  simpl in Hlast. rewrite Qltb_true in Hlast.
  rewrite <-(length_map (fun w => w / total_weight ws)%Q ws), qpsums_last in Hlast
    by (by destruct ws).
  rewrite foldl_Qplus_div in Hlast. fold (total_weight ws) in Hlast.
  unfold Qdiv in Hlast. rewrite Qmult_inv_r in Hlast
    by (intros Hq; apply Qeq_bool_iff in Hq; congruence).
  lra.
Qed.

(** [sample_front] makes exactly one draw and returns the index
    [lower_bound] finds for it. *)
Lemma sample_front_draw `{RandomSourceLaws G} fuel ws g :
  ws ≠ [] -> Forall (fun w => 0 <= w)%Q ws -> (2 <= fuel)%nat ->
  sample_front fuel ws g =
  Some (lower_bound (borders_of ws) (uniform01 g).1, (uniform01 g).2).
Proof.
  intros Hne Hnn Hf. destruct fuel as [|[|fuel]]; [lia|lia|].
  unfold sample_front, sample. simpl.
  pose proof (uniform01_range g) as Hr. destruct (uniform01 g) as [r g1]. simpl in *.
  pose proof (lower_bound_lands ws r Hne Hnn Hr) as Hl.
  rewrite ?length_borders_of. try (case_decide; [lia|]). done.
Qed.

(** [lower_bound] returns a position of the range it searches, whatever
    the borders are: at most [length borders], the end iterator. *)
Lemma lower_bound_loop_le borders v fuel first len :
  (lower_bound_loop fuel borders v first len <= first + len)%nat.
Proof.
  revert first len. induction fuel as [|fuel IH]; intros first len; simpl; [lia|].
  case_decide; [lia|].
  assert (Nat.div2 len < len)%nat by (apply Nat.lt_div2; lia).
  set (half := Nat.div2 len) in *. clearbody half.
  destruct (flt _ v); [specialize (IH (S (first + half)) (len - half - 1))|
                       specialize (IH first half)]; lia.
Qed.
End rnd_facts.

Section SampleSpecs.
Import rnd rnd_facts.
Context {G : Type} `{!RandomSource G}.

(** C18: whatever the borders are (float rounding may leave the last one
    below 1, and weights of total zero make them infinite or NaN) and
    whatever the engine draws, every index [rnd::sample] returns is an
    index of the weights: a draw past the last border, for which
    [lower_bound] returns the end iterator, is retried
    ([--generated; continue;]) and never returned. *)
Theorem sample_in_range fuel ws num g res g' :
  sample fuel ws num g = Some (res, g') -> Forall (fun i => i < length ws)%nat res.
Proof.
  unfold sample. rewrite <-length_borders_of.
  cut (forall generated acc, Forall (fun i => i < length (borders_of ws))%nat acc ->
         sample_loop fuel (borders_of ws) num generated g acc = Some (res, g') ->
         Forall (fun i => i < length (borders_of ws))%nat res); [intros H; by apply H|].
  revert g. induction fuel as [|fuel IH]; intros g generated acc Hacc; simpl; [done|].
  destruct (generated <? num)%Z; [|by intros [= <- _]].
  destruct (uniform01 g) as [r g1].
  pose proof (lower_bound_loop_le (borders_of ws) r (length (borders_of ws)) 0
                (length (borders_of ws))) as Hle.
  unfold lower_bound. case_decide; apply IH; [done|].
  apply Forall_app; split; [done|]. constructor; [lia|done].
Qed.

(** C16: when the weights are non-negative and not all zero, the chosen
    entry has a positive weight, except for the first entry, which is
    chosen with weight zero when the draw is exactly [0.0]
    ([lower_bound] finds the first border that is not below the draw,
    and the first border of a zero weight is [0]). *)
Theorem sample_front_positive_weight `{!RandomSourceLaws G} fuel ws g i g' :
  Forall (fun w => 0 <= w)%Q ws -> Qeq_bool (total_weight ws) 0 = false ->
  (2 <= fuel)%nat -> sample_front fuel ws g = Some (i, g') ->
  (0 < nth i ws 0)%Q \/ (i = 0%nat /\ (uniform01 g).1 == 0)%Q.
Proof.
  intros Hnn Hz Hf Hs.
  assert (ws ≠ []) as Hne by (intros ->; discriminate).
  rewrite sample_front_draw in Hs by done. injection Hs as <- _.
  pose proof (uniform01_range g) as Hr. revert Hr. generalize (uniform01 g).1. intros r Hr.
  pose proof (total_pos ws Hnn Hz) as Ht.
  pose proof (lower_bound_lands ws r Hne Hnn Hr) as Hl.
  rewrite lower_bound_partitioned in * by by apply borders_partitioned.
  pose proof (lin_lower_bound_at (borders_of ws) r) as Hp.
  pose proof (lin_lower_bound_below (borders_of ws) r) as Hb.
  rewrite length_borders_of in Hp.
  remember (lin_lower_bound (borders_of ws) r) as p eqn:Ep. clear Ep.
  specialize (Hp Hl).
  rewrite borders_of_pos in Hp, Hb by done.
  set (T := total_weight ws) in *.
  assert (0 <= nth p ws 0)%Q as Hw0.
  { rewrite Forall_forall in Hnn. apply Hnn, list_elem_of_In, nth_In. done. }
  (* a zero weight has a zero normalised weight *)
  assert (Hzero : (nth p ws 0 <= 0 -> nth p ws 0 / T == 0)%Q).
  { intros Hle. assert (nth p ws 0 == 0)%Q as -> by lra. unfold Qdiv. apply Qmult_0_l. }
  rewrite nth_map_Some in Hp by (rewrite length_qpsums, length_map; lia).
  simpl in Hp. unfold Qltb in Hp. apply negb_false_iff, Qle_bool_iff in Hp.
  destruct (Qlt_le_dec 0 (nth p ws 0%Q)) as [|Hle]; [by left|right].
  specialize (Hzero Hle). destruct p as [|q].
  - destruct ws as [|w ws]; [done|]. simpl in Hp, Hzero. split; [done|]. lra.
  - exfalso. rewrite qpsums_nth_S, nth_normalized in Hp by (rewrite ?length_map; lia).
    specialize (Hb q ltac:(lia)).
    rewrite nth_map_Some in Hb by (rewrite length_qpsums, length_map; lia).
    simpl in Hb. apply Qltb_true in Hb. lra.
Qed.

(** C17: when the weights are non-negative and their total is zero, every
    weight is zero, the normalised weights are [0/0] = NaN, every
    comparison with the draw is false, and the sampler returns the first
    entry whatever the draw: the code's policy for a zero total weight is
    "always the first candidate", not a uniform choice. *)
Theorem sample_front_all_zero fuel ws g :
  ws ≠ [] -> Forall (fun w => 0 <= w)%Q ws -> Qeq_bool (total_weight ws) 0 = true ->
  (2 <= fuel)%nat -> sample_front fuel ws g = Some (0%nat, (uniform01 g).2).
Proof.
  intros Hne Hnn Hz Hf. destruct fuel as [|[|fuel]]; [lia|lia|].
  unfold sample_front, sample. simpl. destruct (uniform01 g) as [r g1]. simpl.
  assert (lower_bound (borders_of ws) r = 0%nat) as ->.
  { rewrite lower_bound_partitioned by (intros i j _ _; by rewrite borders_of_zero).
    destruct (borders_of ws) as [|b bs] eqn:Hb; [done|]. simpl.
    pose proof (borders_of_zero ws 0 Hnn Hz) as H0. rewrite Hb in H0. simpl in H0.
    by subst b. }
  rewrite length_borders_of. case_decide; [by destruct ws|]. done.
Qed.
End SampleSpecs.

(** ** Witnesses *)

Lemma sample_in_range_witness :
  rnd.sample 3 [1; 3]%Q 1 ([1 # 2]%Q, []) = Some ([1%nat], (@nil Q, @nil Z)) /\
  Forall (fun i => i < length [1; 3]%Q)%nat [1%nat].
Proof.
  split; [vm_compute; reflexivity|].
  apply (sample_in_range 3 [1; 3]%Q 1 ([1 # 2]%Q, []) [1%nat] ([], [])). vm_compute. reflexivity.
Defined.

(** The zero-weight first entry of [0; 1] is chosen by the draw [0.0]. *)
Lemma sample_front_positive_weight_witness :
  (0 < nth 0 [0; 1] 0)%Q \/ (0%nat = 0%nat /\ (uniform01 ([0%Q], @nil Z)).1 == 0)%Q.
Proof.
  apply (sample_front_positive_weight 2 [0; 1]%Q ([0%Q], []) 0 ([], []));
    [repeat constructor; vm_compute; discriminate|reflexivity|lia|reflexivity].
Defined.

(** Weights of total zero that are not all zero: [-1 / 0] is [-inf],
    [1 / 0] is [+inf], so the borders are [-inf] and [-inf + inf] = NaN,
    and the sampler returns the second entry. *)
Example sample_front_mixed_signs :
  rnd.sample_front 2 [-1; 1]%Q ([1 # 2]%Q, []) = Some (1%nat, (@nil Q, @nil Z)).
Proof. vm_compute. reflexivity. Qed.

Lemma sample_front_all_zero_witness :
  rnd.sample_front 2 [0; 0; 0]%Q ([3 # 4]%Q, []) =
  Some (0%nat, (uniform01 ([3 # 4]%Q, @nil Z)).2).
Proof.
  apply (sample_front_all_zero 2 [0; 0; 0]%Q ([3 # 4]%Q, []));
    [discriminate|repeat constructor; vm_compute; discriminate|reflexivity|lia].
Defined.
