(* ===== verification/Utility.v ===== *)
(** The utility selector of src/w3/behLibrary.cpp ([UtilitySelector],
    lines 59-110), generic in the child type [A], the state [St], the error
    type [E], the type [F] of the utility functions and the random engine
    [G] (read from and written back to the state).

    The node keeps its entries ([utilityNodes]: child, utility function,
    label), the previously chosen child ([last_choice]) and the counter
    [stale].  A child is identified by its position in [utilityNodes]: the
    code compares node pointers, and a node is owned by one parent only, so
    two entries never hold the same pointer.

    Each tick copies the entries ([copy] holds, for each, its position, the
    child's [update] and its utility function), scores them (the chill bonus
    goes to the previous choice), samples one with [rnd::sample], runs it,
    and either returns its result (updating [last_choice] and [stale]) or
    erases it from the copy and loops.  The copy shares the children with
    [utilityNodes]: a child that ran is written back at its position.  The
    loop runs at most once per entry: its fuel is the length of the copy. *)

From Stdlib Require Import QArith Qminmax Lqa ZArith Lia.
From stdpp Require Import base decidable list sets strings.
From S2P Require Import Prelude Types RandomUtil.

Section Utility.
Context {St E A F G : Type} `{!RandomSource G}.
(** [BehNode::update] of a child. *)
Variable update : A -> St -> E + (BehResult * A * St).
(** [function(bb)]: a utility function read against the state. *)
Variable eval_score : F -> St -> Q.
(** The engine of [rnd::get_engine()] in the state. *)
Variable rng_of : St -> G.
Variable set_rng : G -> St -> St.
(** Raised when the sampler runs out of fuel, which never happens with two
    rounds of fuel ([UtilitySelector_no_fault] in the theory below). *)
Variable out_of_fuel : E.
Variable sample_fuel : nat.

Record USel : Type := mkUSel {
  utilityNodes : list (A * F * string);
  last_choice : option nat;
  stale : Q
}.

(** [const float base_chill = 100.0f]. *)
Definition base_chill : Q := 100.

(** An entry of [copy]: its position in [utilityNodes], the child's
    [update], its utility function. *)
#[local] Abbreviation Cand := (nat * (St -> E + (BehResult * A * St)) * F)%type.

(** [auto copy = utilityNodes;] *)
Fixpoint make_copy (i : nat) (entries : list (A * F * string)) : list Cand :=
  match entries with
  | [] => []
  | (node, function, _) :: rest => (i, update node, function) :: make_copy (S i) rest
  end.

(** [std::max(0.0f, base_chill - stale)]. *)
Definition chill (stale : Q) : Q := Qmax 0 (base_chill - stale).

(** The score of an entry:
    [std::max(function(bb) + (last_choice == node ? chill : 0.0f), 0.0f)]. *)
Definition score (last : option nat) (stale : Q) (s : St) (c : Cand) : Q :=
  let '(i, _, function) := c in
  Qmax (eval_score function s + (if bool_decide (last = Some i) then chill stale else 0)) 0.

(** The chosen child, updated by its run, goes back to its position. *)
Definition put_back (i : nat) (node' : A) (entries : list (A * F * string))
  : list (A * F * string) :=
  alter (fun '(_, function, label) => (node', function, label)) i entries.

(** The [while (!copy.empty())] loop; [fuel] bounds its rounds, and a
    loop that runs out of it raises [out_of_fuel] (the code would loop on). *)
Fixpoint usel_loop (fuel : nat) (copy : list Cand) (nodes : list (A * F * string))
    (last : option nat) (stale : Q) (s : St)
  : E + (BehResult * USel * St) :=
  match fuel, copy with
  | _, [] => inr (BEH_FAIL, mkUSel nodes None stale, s)
  | O, _ :: _ => inl out_of_fuel
  | S fuel', _ :: _ =>
      let scores := map (score last stale s) copy in
      match rnd.sample_front sample_fuel scores (rng_of s) with
      | None => inl out_of_fuel
      | Some (j, g) =>
          let s1 := set_rng g s in
          match copy !! j with
          | None => inl out_of_fuel
          | Some (i, run, _) =>
              match run s1 with
              | inl e => inl e
              | inr (res, node', s2) =>
                  let nodes' := put_back i node' nodes in
                  if bool_decide (res ≠ BEH_FAIL) then
                    if bool_decide (last ≠ Some i)
                    then inr (res, mkUSel nodes' (Some i) 0, s2)
                    else inr (res, mkUSel nodes' last (stale + 1), s2)
                  else usel_loop fuel' (delete j copy) nodes' last stale s2
              end
          end
      end
  end.

(** [UtilitySelector::update]. *)
Definition UtilitySelector_update (u : USel) (s : St) : E + (BehResult * USel * St) :=
  let copy := make_copy 0 (utilityNodes u) in
  usel_loop (length copy) copy (utilityNodes u) (last_choice u) (stale u) s.
End Utility.

Section UtilityTheory.
Context {St E A F G : Type} `{!RandomSource G}.
Variable update : A -> St -> E + (BehResult * A * St).
Variable eval_score : F -> St -> Q.
Variable rng_of : St -> G.
Variable set_rng : G -> St -> St.
Variable out_of_fuel : E.
Variable sample_fuel : nat.

#[local] Abbreviation loop := (usel_loop eval_score rng_of set_rng out_of_fuel sample_fuel).
#[local] Abbreviation Cand := (nat * (St -> E + (BehResult * A * St)) * F)%type.

Lemma score_nonneg last stl s (c : Cand) : (0 <= score eval_score last stl s c)%Q.
Proof. destruct c as [[i run] f]. apply Q.le_max_r. Qed.

Lemma length_make_copy i (entries : list (A * F * string)) : length (make_copy update i entries) = length entries.
Proof. revert i; induction entries as [|[[??]?] ? IH]; intros i; simpl; auto. Qed.

Lemma length_put_back i node' (entries : list (A * F * string)) :
  length (put_back i node' entries) = length entries.
Proof. apply length_alter. Qed.

(** One round of the loop on a non-empty copy. *)
Lemma usel_loop_step fuel (copy : list Cand) nodes last stl s :
  copy ≠ [] ->
  loop (S fuel) copy nodes last stl s =
  match rnd.sample_front sample_fuel (map (score eval_score last stl s) copy) (rng_of s) with
  | None => inl out_of_fuel
  | Some (j, g) =>
      match copy !! j with
      | None => inl out_of_fuel
      | Some (i, run, _) =>
          match run (set_rng g s) with
          | inl e => inl e
          | inr (res, node', s2) =>
              if bool_decide (res ≠ BEH_FAIL) then
                if bool_decide (last ≠ Some i)
                then inr (res, mkUSel (put_back i node' nodes) (Some i) 0, s2)
                else inr (res, mkUSel (put_back i node' nodes) last (stl + 1), s2)
              else loop fuel (delete j copy) (put_back i node' nodes) last stl s2
          end
      end
  end.
Proof. by destruct copy. Qed.

(** On a non-empty copy, one draw of the sampler picks a position of the
    copy: the scores are non-negative. *)
Lemma usel_sample_lands `{!RandomSourceLaws G} (copy : list Cand) last stl s :
  copy ≠ [] -> (2 <= sample_fuel)%nat ->
  exists j g, rnd.sample_front sample_fuel (map (score eval_score last stl s) copy) (rng_of s)
              = Some (j, g) /\ (j < length copy)%nat.
Proof.
  intros Hne Hf. rewrite rnd_facts.sample_front_draw; [|by destruct copy|
    by apply Forall_map, Forall_true; intros; apply score_nonneg|done].
  eexists _, _. split; [done|]. rewrite <-(length_map (score eval_score last stl s) copy).
  apply rnd_facts.lower_bound_lands; [by destruct copy| |apply uniform01_range].
  by apply Forall_map, Forall_true; intros; apply score_nonneg.
Qed.

(** The sampler lands: on non-empty non-negative scores it returns a
    position of the list.  With exact rationals it does after one draw
    ([sampler_lands_exact]); under float rounding the code retries. *)
Definition sampler_lands : Prop :=
  forall (ws : list Q) (g : G), ws ≠ [] -> Forall (fun w => 0 <= w)%Q ws ->
    exists j g', rnd.sample_front sample_fuel ws g = Some (j, g') /\ (j < length ws)%nat.

Lemma sampler_lands_exact `{!RandomSourceLaws G} : (2 <= sample_fuel)%nat -> sampler_lands.
Proof.
  intros Hf ws g Hne Hnn. rewrite rnd_facts.sample_front_draw by done.
  eexists _, _. split; [done|]. apply rnd_facts.lower_bound_lands; [done|done|apply uniform01_range].
Qed.

(** The loop raises nothing when its children raise nothing and the
    sampler lands: each failed round erases one entry of the copy, so
    [length copy] rounds are enough. *)
Lemma usel_loop_total fuel (copy : list Cand) nodes last stl s :
  sampler_lands -> (length copy <= fuel)%nat ->
  (forall c, c ∈ copy -> forall s, exists r, c.1.2 s = inr r) ->
  exists r, loop fuel copy nodes last stl s = inr r.
Proof.
  intros Hl. revert copy nodes s.
  induction fuel as [|fuel IH]; intros copy nodes s Hlen Htot.
  { destruct copy; [by eexists|simpl in Hlen; lia]. }
  destruct (decide (copy = [])) as [->|Hne]; [by eexists|].
  rewrite usel_loop_step by done.
  destruct (Hl (map (score eval_score last stl s) copy) (rng_of s)) as (j & g & -> & Hj);
    [by destruct copy|by apply Forall_map, Forall_true; intros; apply score_nonneg|].
  rewrite length_map in Hj.
  destruct (copy !! j) as [[[i run] f]|] eqn:Hcj; [|apply lookup_ge_None in Hcj; lia].
  destruct (Htot _ (list_elem_of_lookup_2 _ _ _ Hcj) (set_rng g s)) as [[[res node'] s2] Hrun].
  simpl in Hrun. rewrite Hrun.
  case_bool_decide; [case_bool_decide; by eexists|].
  apply IH; [rewrite length_delete by done; lia|].
  intros c Hin. apply Htot. by eapply list_elem_of_delete_inv.
Qed.

Lemma make_copy_elem i (entries : list (A * F * string)) c :
  c ∈ make_copy update i entries -> exists node f, c = (c.1.1, update node, f).
Proof.
  revert i; induction entries as [|[[node f] l] entries IH]; intros i; simpl.
  - by intros ?%not_elem_of_nil.
  - rewrite elem_of_cons. intros [->|Hin]; [by eauto|by eapply IH].
Qed.

(** C9: a tick of the utility selector returns a result when its
    children do and the sampler lands: every failed candidate is erased
    from the copy, so the loop ends within one round per entry and never
    runs out of its [length copy] rounds. *)
Theorem UtilitySelector_total u s :
  sampler_lands -> (forall a s, exists r, update a s = inr r) ->
  exists r, UtilitySelector_update update eval_score rng_of set_rng out_of_fuel sample_fuel u s
            = inr r.
Proof.
  intros Hl Hupd. apply usel_loop_total; [done|done|].
  intros c Hin s'. apply make_copy_elem in Hin as (node & f & ->). apply Hupd.
Qed.

Lemma make_copy_lookup i (entries : list (A * F * string)) k :
  make_copy update i entries !! k =
  (fun '(node, f, _) => (i + k, update node, f)) <$> entries !! k.
Proof.
  revert i k; induction entries as [|[[node f] l] entries IH]; intros i [|k]; simpl;
    [done|done|by rewrite Nat.add_0_r|].
  rewrite IH. destruct (entries !! k) as [[[??]?]|]; simpl; [|done]. by rewrite Nat.add_succ_r.
Qed.

Lemma make_copy_index i (entries : list (A * F * string)) c :
  c ∈ make_copy update i entries -> (c.1.1 < i + length entries)%nat.
Proof.
  intros (k & Hk)%list_elem_of_lookup. rewrite make_copy_lookup in Hk.
  destruct (entries !! k) as [[[node f] l]|] eqn:He; simplify_eq/=.
  apply lookup_lt_Some in He. lia.
Qed.

(** The loop keeps the positions of its copy inside [utilityNodes]. *)
Lemma usel_loop_hysteresis fuel (copy : list Cand) nodes last stl s r u' s' :
  (forall c, c ∈ copy -> (c.1.1 < length nodes)%nat) ->
  loop fuel copy nodes last stl s = inr (r, u', s') ->
  length (utilityNodes u') = length nodes /\
  ((r = BEH_FAIL /\ last_choice u' = None /\ stale u' = stl) \/
   (r ≠ BEH_FAIL /\ exists i, (i < length nodes)%nat /\ last_choice u' = Some i /\
      (last = Some i -> stale u' = (stl + 1)%Q) /\ (last ≠ Some i -> stale u' = 0%Q))).
Proof.
  revert copy nodes s. induction fuel as [|fuel IH]; intros copy nodes s Hidx.
  { destruct copy; [intros [= <- <- <-]; simpl; auto|done]. }
  destruct (decide (copy = [])) as [->|Hne]; [intros [= <- <- <-]; simpl; auto|].
  rewrite usel_loop_step by done.
  destruct (rnd.sample_front _ _ _) as [[j g]|]; [|done].
  destruct (copy !! j) as [[[i run] f]|] eqn:Hcj; [|done].
  assert (i < length nodes)%nat as Hi by (apply (Hidx (i, run, f)); by eapply list_elem_of_lookup_2).
  destruct (run (set_rng g s)) as [|[[res node'] s2]]; [done|].
  case_bool_decide as Hres; [case_bool_decide as Hlast|].
  - intros [= <- <- <-]. simpl. rewrite length_put_back. split; [done|].
    right. split; [done|]. exists i. naive_solver.
  - intros [= <- <- <-]. simpl. rewrite length_put_back. split; [done|].
    right. split; [done|]. exists i. subst last. naive_solver.
  - intros Hloop. apply IH in Hloop as [Hlen Hcase].
    + rewrite Hlen, length_put_back. split; [done|]. by rewrite length_put_back in Hcase.
    + intros c Hc. rewrite length_put_back. apply Hidx. by eapply list_elem_of_delete_inv.
Qed.
(** The entries of [copy] run the children of [utilityNodes]. *)
Lemma make_copy_from i (entries : list (A * F * string)) (c : Cand) :
  c ∈ make_copy update i entries ->
  exists node f l, (node, f, l) ∈ entries /\ c.1.2 = update node.
Proof.
  revert i; induction entries as [|[[node f] l] entries IH]; intros i; simpl.
  - by intros ?%not_elem_of_nil.
  - rewrite elem_of_cons. intros [->|Hin].
    + exists node, f, l. split; [by left|done].
    + destruct (IH _ Hin) as (n & f' & l' & ? & ?). exists n, f', l'.
      split; [by right|done].
Qed.

(** A relation between states that the random draws and every candidate
    keep is kept by the loop. *)
Lemma usel_loop_keeps (R : St -> St -> Prop) fuel (copy : list Cand) nodes last stl s
    r u s' :
  (forall s, R s s) -> (forall s1 s2 s3, R s1 s2 -> R s2 s3 -> R s1 s3) ->
  (forall g s, R s (set_rng g s)) ->
  (forall c, c ∈ copy -> forall s r a s', c.1.2 s = inr (r, a, s') -> R s s') ->
  loop fuel copy nodes last stl s = inr (r, u, s') -> R s s'.
Proof.
  intros Hrefl Htrans Hrng. revert copy nodes s.
  induction fuel as [|fuel IH]; intros copy nodes s Hcopy H.
  - destruct copy; simpl in H; [by injection H as _ _ <-|done].
  - destruct copy as [|c0 copy0]; [simpl in H; by injection H as _ _ <-|].
    cbn [usel_loop] in H.
    destruct (rnd.sample_front _ _ _) as [[j g]|]; [|done].
    destruct ((c0 :: copy0) !! j) as [[[i run] f]|] eqn:Hj; [|done].
    destruct (run (set_rng g s)) as [|[[res node'] s2]] eqn:Hrun; [done|].
    assert (R s s2) as Hs2.
    { eapply Htrans; [apply Hrng|].
      eapply (Hcopy (i, run, f)); [eapply list_elem_of_lookup_2; eauto|exact Hrun]. }
    repeat case_bool_decide; try (injection H as _ _ <-; done).
    eapply Htrans; [exact Hs2|]. eapply IH; [|exact H].
    intros c Hc. apply Hcopy. eapply list_elem_of_delete_inv; eauto.
Qed.

Lemma UtilitySelector_update_keeps (R : St -> St -> Prop) (u : USel) s r u' s' :
  (forall s, R s s) -> (forall s1 s2 s3, R s1 s2 -> R s2 s3 -> R s1 s3) ->
  (forall g s, R s (set_rng g s)) ->
  (forall node f l, (node, f, l) ∈ utilityNodes u ->
     forall s r a s', update node s = inr (r, a, s') -> R s s') ->
  UtilitySelector_update update eval_score rng_of set_rng out_of_fuel sample_fuel u s
    = inr (r, u', s') -> R s s'.
Proof.
  intros Hrefl Htrans Hrng Hnodes. unfold UtilitySelector_update.
  apply usel_loop_keeps; [done..|].
  intros c (node & f & l & Hin & ->)%make_copy_from. eauto.
Qed.

(** The loop returns under an invariant [Q] that the steps of [R] keep,
    when every candidate returns from [Q] by a step of [R]: with the
    children of a well-typed tree, no tick of the selector raises. *)
Lemma usel_loop_safe `{!RandomSourceLaws G} (R : St -> St -> Prop) (Q : St -> Prop)
    fuel (copy : list Cand) nodes last stl s :
  (forall s, R s s) -> (forall s1 s2 s3, R s1 s2 -> R s2 s3 -> R s1 s3) ->
  (forall g s, R s (set_rng g s)) -> (forall s s', Q s -> R s s' -> Q s') ->
  (2 <= sample_fuel)%nat -> (length copy <= fuel)%nat ->
  (forall c, c ∈ copy -> forall s, Q s -> exists r a s', c.1.2 s = inr (r, a, s') /\ R s s') ->
  Q s -> exists r u s', loop fuel copy nodes last stl s = inr (r, u, s') /\ R s s'.
Proof.
  intros Hrefl Htrans Hrng HQ Hf. revert copy nodes s.
  induction fuel as [|fuel IH]; intros copy nodes s Hlen Hcopy Hs;
    [destruct copy; [by eauto|simpl in Hlen; lia]|].
  destruct copy as [|c0 copy0]; [by eauto|]. cbn [usel_loop].
  destruct (usel_sample_lands (c0 :: copy0) last stl s ltac:(done) Hf) as (j & g & -> & Hj).
  destruct ((c0 :: copy0) !! j) as [[[i run] f]|] eqn:Hcj; [|apply lookup_ge_None in Hcj; lia].
  assert (R s (set_rng g s)) as Hg by apply Hrng.
  destruct (Hcopy _ (list_elem_of_lookup_2 _ _ _ Hcj) (set_rng g s) (HQ _ _ Hs Hg))
    as (res & node' & s2 & Hrun & Hs2).
  simpl in Hrun. rewrite Hrun.
  assert (R s s2) as Hss2 by eauto.
  case_bool_decide; [case_bool_decide; by eauto|].
  edestruct IH as (r & u & s' & -> & Hs'); [rewrite length_delete by done; simpl in *; lia| |apply (HQ _ _ Hs Hss2)|eauto 10].
  intros c Hin. apply Hcopy. by eapply list_elem_of_delete_inv.
Qed.

(** An entry of the copy runs the child at its position. *)
Lemma make_copy_at (entries : list (A * F * string)) (c : Cand) :
  c ∈ make_copy update 0 entries ->
  exists node f l, entries !! c.1.1 = Some (node, f, l) /\ c.1.2 = update node.
Proof.
  intros (k & Hk)%list_elem_of_lookup. rewrite make_copy_lookup in Hk.
  destruct (entries !! k) as [[[node f] l]|] eqn:He; simplify_eq/=. eauto.
Qed.

(** The entries the loop gives back: each child that ran is replaced by
    what its run gave back, its function and label kept. *)
Definition entry_rel (T : A -> A -> Prop) (e e' : A * F * string) : Prop :=
  T e.1.1 e'.1.1 /\ e.1.2 = e'.1.2 /\ e.2 = e'.2.

Lemma usel_loop_children (T : A -> A -> Prop) fuel (copy : list Cand) nodes0 nodes
    last stl s r u s' :
  (forall c, c ∈ copy -> forall e, nodes0 !! c.1.1 = Some e ->
     forall s r a s', c.1.2 s = inr (r, a, s') -> T e.1.1 a) ->
  Forall2 (entry_rel T) nodes0 nodes ->
  loop fuel copy nodes last stl s = inr (r, u, s') ->
  Forall2 (entry_rel T) nodes0 (utilityNodes u).
Proof.
  revert copy nodes s. induction fuel as [|fuel IH]; intros copy nodes s Hcopy Hrel.
  { destruct copy; [by intros [= _ <- _]|done]. }
  destruct copy as [|c0 copy0]; [by intros [= _ <- _]|]. cbn [usel_loop].
  destruct (rnd.sample_front _ _ _) as [[j g]|]; [|done].
  destruct ((c0 :: copy0) !! j) as [[[i run] f]|] eqn:Hcj; [|done].
  destruct (run (set_rng g s)) as [|[[res node'] s2]] eqn:Hrun; [done|].
  assert (Forall2 (entry_rel T) nodes0 (put_back i node' nodes)) as Hrel'.
  { apply Forall2_alter_r; [done|]. intros [[n0 f0] l0] [[n1 f1] l1] H0 _ (_ & Hf & Hl).
    split; [|by split]. exact (Hcopy _ (list_elem_of_lookup_2 _ _ _ Hcj) _ H0 _ _ _ _ Hrun). }
  case_bool_decide; [case_bool_decide; by intros [= _ <- _]|].
  apply IH; [|done]. intros c Hc. apply Hcopy. by eapply list_elem_of_delete_inv.
Qed.

Lemma UtilitySelector_update_safe `{!RandomSourceLaws G} (R : St -> St -> Prop)
    (Q : St -> Prop) (u : USel) s :
  (forall s, R s s) -> (forall s1 s2 s3, R s1 s2 -> R s2 s3 -> R s1 s3) ->
  (forall g s, R s (set_rng g s)) -> (forall s s', Q s -> R s s' -> Q s') ->
  (2 <= sample_fuel)%nat ->
  (forall node f l, (node, f, l) ∈ utilityNodes u ->
     forall s, Q s -> exists r a s', update node s = inr (r, a, s') /\ R s s') ->
  Q s ->
  exists r u' s', UtilitySelector_update update eval_score rng_of set_rng out_of_fuel
                    sample_fuel u s = inr (r, u', s') /\ R s s'.
Proof.
  intros Hrefl Htrans Hrng HQ Hf Hnodes. unfold UtilitySelector_update.
  apply usel_loop_safe; [done..|].
  intros c (node & f & l & Hin & ->)%make_copy_from. eauto.
Qed.

Lemma UtilitySelector_update_children (T : A -> A -> Prop) (u u' : USel) s r s' :
  (forall c, T c c) ->
  (forall node f l, (node, f, l) ∈ utilityNodes u ->
     forall s r a s', update node s = inr (r, a, s') -> T node a) ->
  UtilitySelector_update update eval_score rng_of set_rng out_of_fuel sample_fuel u s
    = inr (r, u', s') ->
  Forall2 (entry_rel T) (utilityNodes u) (utilityNodes u').
Proof.
  intros Hrefl Hnodes. unfold UtilitySelector_update. apply usel_loop_children.
  - intros c (node & f & l & Hl & ->)%make_copy_at e He. rewrite Hl in He. injection He as <-.
    eapply Hnodes, list_elem_of_lookup_2, Hl.
  - apply Forall_Forall2_diag, Forall_forall. intros [[??]?] _. by split.
Qed.

End UtilityTheory.

(** C8: the hysteresis bookkeeping of a tick: when every candidate failed
    the previous choice is forgotten ([last_choice = nullptr]) and [stale]
    is kept; otherwise the chosen child becomes the previous choice, and
    [stale] grows by one when it already was, and restarts at 0 when the
    choice switched.  The entries keep their number. *)
Theorem UtilitySelector_hysteresis {St E A F G : Type} `{!RandomSource G}
    (update : A -> St -> E + (BehResult * A * St)) eval_score rng_of set_rng out_of_fuel
    sample_fuel (u u' : @USel A F) s r s' :
  UtilitySelector_update update eval_score rng_of set_rng out_of_fuel sample_fuel u s
    = inr (r, u', s') ->
  length (utilityNodes u') = length (utilityNodes u) /\
  ((r = BEH_FAIL /\ last_choice u' = None /\ stale u' = stale u) \/
   (r ≠ BEH_FAIL /\ exists i, (i < length (utilityNodes u))%nat /\ last_choice u' = Some i /\
      (last_choice u = Some i -> stale u' = (stale u + 1)%Q) /\
      (last_choice u ≠ Some i -> stale u' = 0%Q))).
Proof.
  unfold UtilitySelector_update. intros H.
  eapply (usel_loop_hysteresis update) in H; [exact H|].
  intros c Hc. apply make_copy_index in Hc. lia.
Qed.

(** ** Invocation logs

    Scripted children log their name; the child at position [i] is named
    [i].  The engine is any [RandomSource]. *)

Section Harness.
Context {G : Type} `{!RandomSource G}.
Variable script : nat -> BehResult.
Variable sample_fuel : nat.

Definition h_update (c : nat) (s : G * list nat) : unit + (BehResult * nat * (G * list nat)) :=
  inr (script c, c, (s.1, s.2 ++ [c])).

Fixpoint h_entries (i : nat) (fs : list Q) : list (nat * Q * string) :=
  match fs with
  | [] => []
  | f :: fs' => (i, f, ""%string) :: h_entries (S i) fs'
  end.

#[local] Abbreviation hloop :=
  (usel_loop (St:=G * list nat) (E:=unit) (A:=nat) (F:=Q)
             (fun f _ => f) fst (fun g s => (g, s.2)) tt sample_fuel).
#[local] Abbreviation idx := (map (fun c : nat * _ * Q => c.1.1)).

Lemma hloop_tries fuel copy nodes last stl g log r u' g' log' :
  (length copy <= fuel)%nat -> NoDup (idx copy) ->
  (forall c, c ∈ copy -> c.1.2 = h_update c.1.1) ->
  hloop fuel copy nodes last stl (g, log) = inr (r, u', (g', log')) ->
  exists tried, log' = log ++ tried /\ NoDup tried /\ (forall x, x ∈ tried -> x ∈ idx copy) /\
    (r = BEH_FAIL -> tried ≡ₚ idx copy) /\
    (r ≠ BEH_FAIL -> exists pre i, tried = pre ++ [i] /\ script i = r /\
                                   Forall (fun c => script c = BEH_FAIL) pre).
Proof.
  revert copy nodes g log. induction fuel as [|fuel IH]; intros copy nodes g log Hlen Hnd Hcl.
  { destruct copy; [|done]. intros [= <- <- <- <-].
    exists []. rewrite app_nil_r. repeat split; auto using NoDup_nil_2; set_solver. }
  destruct (decide (copy = [])) as [->|Hne].
  { intros [= <- <- <- <-]. exists []. rewrite app_nil_r.
    repeat split; auto using NoDup_nil_2; set_solver. }
  rewrite usel_loop_step by done.
  destruct (rnd.sample_front _ _ _) as [[j g1]|]; [|done].
  destruct (copy !! j) as [[[i run] f]|] eqn:Hcj; [|done].
  pose proof (Hcl _ (list_elem_of_lookup_2 _ _ _ Hcj)) as Hrun. simpl in Hrun. subst run.
  simpl.
  pose proof (Permutation_map (fun c : nat * _ * Q => c.1.1) (delete_Permutation _ _ _ Hcj))
    as Hperm. simpl in Hperm.
  assert (Hnd' : NoDup (i :: idx (delete j copy))) by (by rewrite <-Hperm).
  apply NoDup_cons in Hnd' as [Hi Hnd'].
  case_bool_decide as Hres.
  - assert (Hin : i ∈ idx copy) by (rewrite Hperm; left).
    case_bool_decide; intros [= <- <- <- <-]; exists [i];
      (split; [done|]); (split; [by apply NoDup_singleton|]);
      (split; [by intros x ->%list_elem_of_singleton|]); (split; [by intros ?|]);
      intros _; exists [], i; auto.
  - intros Hloop.
    apply IH in Hloop as (tried & -> & Hnd2 & Hsub & Hfail & Hok);
      [|rewrite length_delete by done; simpl in Hlen; lia|done
       |intros c Hc; apply Hcl; by eapply list_elem_of_delete_inv].
    exists (i :: tried). rewrite <-app_assoc. split; [done|]. split.
    { apply NoDup_cons. split; [|done]. intros Hin. by apply Hi, Hsub. }
    split; [|split].
    + intros x [->|Hx]%elem_of_cons; rewrite Hperm; [left|right; by apply Hsub].
    + intros Hr. rewrite Hperm. by apply Permutation_cons, Hfail.
    + intros Hr. destruct (Hok Hr) as (pre & k & -> & Hk & Hpre).
      exists (i :: pre), k. auto.
Qed.

Lemma h_copy_idx i fs : idx (make_copy h_update i (h_entries i fs)) = seq i (length fs).
Proof. revert i; induction fs as [|f fs IH]; intros i; simpl; [done|]. by rewrite IH. Qed.

Lemma h_copy_closure i fs c :
  c ∈ make_copy h_update i (h_entries i fs) -> c.1.2 = h_update c.1.1.
Proof.
  revert i; induction fs as [|f fs IH]; intros i; simpl; [by intros ?%not_elem_of_nil|].
  intros [->|Hc]%elem_of_cons; [done|]. by apply (IH (S i)).
Qed.

(** C7: within one tick the utility selector invokes every child at most
    once, whatever the scores and the engine: a child that failed is never
    drawn again.  When it fails, it has tried every child; otherwise the
    last child it invoked gave the result and all the earlier ones failed. *)
Theorem UtilitySelector_tries_each_once fs last stl g log r u' g' log' :
  UtilitySelector_update h_update (fun f _ => f) fst (fun g s => (g, s.2)) tt sample_fuel
    (mkUSel (h_entries 0 fs) last stl) (g, log) = inr (r, u', (g', log')) ->
  exists tried, log' = log ++ tried /\ NoDup tried /\ Forall (fun i => i < length fs)%nat tried /\
    (r = BEH_FAIL -> tried ≡ₚ seq 0 (length fs)) /\
    (r ≠ BEH_FAIL -> exists pre i, tried = pre ++ [i] /\ script i = r /\
                                   Forall (fun c => script c = BEH_FAIL) pre).
Proof.
  unfold UtilitySelector_update. simpl. intros Hrun.
  apply hloop_tries in Hrun as (tried & -> & Hnd & Hsub & Hfail & Hok);
    [|done|rewrite h_copy_idx; apply NoDup_seq|apply h_copy_closure].
  rewrite h_copy_idx in Hsub, Hfail. exists tried. repeat split; auto.
  apply Forall_forall. intros x Hx%Hsub%elem_of_seq. lia.
Qed.
End Harness.

Definition witness_script (c : nat) : BehResult :=
  match c with 1 => BEH_SUCCESS | _ => BEH_FAIL end.

(** Scores [1; 0; 2] and three draws of 1/2: child 2 fails, then child 0,
    then child 1 (the only one left, with score 0) succeeds. *)
Lemma UtilitySelector_tries_each_once_witness :
  exists tried, [2; 0; 1] = [] ++ tried /\ NoDup tried /\
    Forall (fun i => i < length [1; 0; 2]%Q)%nat tried /\
    (BEH_SUCCESS = BEH_FAIL -> tried ≡ₚ seq 0 (length [1; 0; 2]%Q)) /\
    (BEH_SUCCESS ≠ BEH_FAIL -> exists pre i, tried = pre ++ [i] /\
       witness_script i = BEH_SUCCESS /\ Forall (fun c => witness_script c = BEH_FAIL) pre).
Proof.
  apply (UtilitySelector_tries_each_once witness_script 2 [1; 0; 2]%Q None 0
           ([1 # 2; 1 # 2; 1 # 2]%Q, []) [] BEH_SUCCESS
           (mkUSel (h_entries 0 [1; 0; 2]%Q) (Some 1) 0) ([], [])).
  vm_compute. reflexivity.
Defined.

Lemma UtilitySelector_total_witness :
  exists r, UtilitySelector_update (h_update witness_script) (fun f _ => f) fst
              (fun g s => (g, s.2)) tt 2 (mkUSel (h_entries 0 [1; 0; 2]%Q) None 0)
              (([1 # 2; 1 # 2]%Q, @nil Z), @nil nat) = inr r.
Proof.
  apply (UtilitySelector_total (h_update witness_script)).
  - exact (sampler_lands_exact 2 ltac:(lia)).
  - intros a s. eexists. reflexivity.
Defined.

(** The previous choice, child 1 with [stale = 5], gets the chill bonus 95,
    is drawn again and succeeds: [stale] becomes 6. *)
Lemma UtilitySelector_hysteresis_witness :
  length [(0, 1%Q, ""); (1, 0%Q, ""); (2, 2%Q, "")] = length (h_entries 0 [1; 0; 2]%Q) /\
  ((BEH_SUCCESS = BEH_FAIL /\ Some 1 = None /\ 6%Q = 5%Q) \/
   (BEH_SUCCESS ≠ BEH_FAIL /\ exists i, (i < length (h_entries 0 [1; 0; 2]%Q))%nat /\
      Some 1 = Some i /\ (Some 1 = Some i -> 6%Q = (5 + 1)%Q) /\
      (Some 1 ≠ Some i -> 6%Q = 0%Q))).
Proof.
  apply (UtilitySelector_hysteresis (h_update witness_script) (fun f _ => f) fst
           (fun g s => (g, s.2)) tt 2 (mkUSel (h_entries 0 [1; 0; 2]%Q) (Some 1) 5%Q)
           (mkUSel [(0, 1%Q, ""); (1, 0%Q, ""); (2, 2%Q, "")] (Some 1) 6%Q)
           (([1 # 2; 1 # 2; 1 # 2]%Q, @nil Z), @nil nat) BEH_SUCCESS
           (([1 # 2; 1 # 2]%Q, @nil Z), [1])).
  vm_compute. reflexivity.
Defined.
