(* ===== verification/Node.v ===== *)
(** The node language: one inductive type with a constructor per class of
    src/w2/behLibrary.cpp and src/w3/behLibrary.cpp that derives from
    [BehNode] (behaviourTree.h, lines 23-28), carrying the fields the
    constructors of those classes compute, and the [react] broadcast of the
    two libraries.

    The model of a node is the state its C++ object keeps between ticks: the
    children of a composite, the blackboard slots a leaf registered at
    construction, its thresholds, and for a utility selector the record
    [Utility.USel] ([last_choice], [stale]).  Pointer identity of a
    [UtilitySelector]'s children is their index in [utilityNodes]. *)

From Stdlib Require Import QArith ZArith Lia.
From stdpp Require Import base decidable list gmap strings.
From S2P Require Import Prelude Types Blackboard RandomUtil Composite Utility.

(** [using utility_function = std::function<float(Blackboard&)>] (w3). *)
Definition utility_function : Type := Blackboard -> Q.

(** The component [FindClosestOf<QueryTypes...>] queries beside [Position]:
    [find_powerup] uses [PowerupAmount], [find_heal] uses [HealAmount]
    (w2/behLibrary.cpp, lines 481-491). *)
Inductive closest_kind : Type := QPowerup | QHeal.

#[export] Instance closest_kind_eq_dec : EqDecision closest_kind.
Proof. solve_decision. Defined.

Inductive node : Type :=
(** composites, w2 lines 56-148 and w3 lines 33-110 *)
| Sequence (nodes : list node)
| Selector (nodes : list node)
| OrNode (nodes : list node)
| Parallel (nodes : list node)
| NotNode (child : node)
| UtilitySelector (u : @USel node utility_function)
(** leaves, w2 lines 150-425 and w3 lines 257-286 *)
| MoveToEntity (entityBb : nat)
| IsLowHp (threshold : Q)
| FindClosestOf (kind : closest_kind) (entityBb : nat) (distance : Q)
| FindEnemy (entityBb : nat) (distance : Q)
| FindWaypoint (entityBb : nat)
| Flee (entityBb : nat)
| Patrol (pposBb : nat) (patrolDist : Q)
| HoardListener (target_index flag_index : nat)
| AlertHoard (m_alert_dist : Q) (m_bb_index : nat)
| RandomWalk
| PatchUp (hpThreshold : Q).

(** The children a node owns. *)
Definition children (n : node) : list node :=
  match n with
  | Sequence ns | Selector ns | OrNode ns | Parallel ns => ns
  | NotNode c => [c]
  | UtilitySelector u => map (fun e => e.1.1) (utilityNodes u)
  | _ => []
  end.

(** The two libraries differ in [react]: in w2 [CompoundNode] and
    [FixedArityCompoundNode] forward it, in w3 [CompoundNode] does not
    override [BehNode::react]. *)
Inductive lib : Type := W2 | W3.

#[export] Instance lib_eq_dec : EqDecision lib.
Proof. solve_decision. Defined.

(** [HoardListener::react] (w2 lines 381-387): the flag is set, then the
    target. *)
Definition HoardListener_react (target_index flag_index : nat)
    (ev : Event Entity) (bb : Blackboard) : Blackboard :=
  match type ev with
  | HoardAlert =>
      bb_set target_index (VEntity (custom_data ev))
        (bb_set flag_index (VBool true) bb)
  end.

(** [BehNode::react] and its overrides; a reaction changes only the
    blackboard it is given. *)
Fixpoint react (l : lib) (n : node) (ev : Event Entity) (bb : Blackboard)
    : Blackboard :=
  match n with
  | Sequence ns | Selector ns =>
      match l with
      | W2 => react_all (fun c bb => react l c ev bb) ns bb
      | W3 => bb
      end
  | OrNode ns | Parallel ns => react_all (fun c bb => react l c ev bb) ns bb
  | NotNode c => react_all (fun c bb => react l c ev bb) [c] bb
  | HoardListener t f => HoardListener_react t f ev bb
  | _ => bb
  end.

(** [BehaviourTree::event] (behaviourTree.h lines 50-52): the event goes to
    the root's [react], with the entity's blackboard. *)
Definition BehaviourTree_event (l : lib) (root : node) (ev : Event Entity)
    (bb : Blackboard) : Blackboard :=
  react l root ev bb.

(** The listeners an event reaches: the [(target_index, flag_index)] of every
    [HoardListener] reached by forwarding, in depth-first order. *)
Fixpoint listeners (l : lib) (n : node) : list (nat * nat) :=
  match n with
  | Sequence ns | Selector ns =>
      match l with W2 => flat_map (listeners l) ns | W3 => [] end
  | OrNode ns | Parallel ns => flat_map (listeners l) ns
  | NotNode c => listeners l c
  | HoardListener t f => [(t, f)]
  | _ => []
  end.

(** Every [HoardListener] leaf of a tree, reached or not. *)
Fixpoint all_listeners (n : node) : list (nat * nat) :=
  match n with
  | Sequence ns | Selector ns | OrNode ns | Parallel ns =>
      flat_map all_listeners ns
  | NotNode c => all_listeners c
  | UtilitySelector u => flat_map (fun e => all_listeners e.1.1) (utilityNodes u)
  | HoardListener t f => [(t, f)]
  | _ => []
  end.

(** ** Induction on nodes through their children *)

Lemma node_ind_children (P : node -> Prop) :
  (forall n, Forall P (children n) -> P n) -> forall n, P n.
Proof.
  intros H. fix IH 1. intros n. apply H.
  destruct n as [ns|ns|ns|ns|c|u| | | | | | | | | | |]; simpl; auto.
  1-4: induction ns as [|c ns IHns]; constructor; auto.
  destruct u as [es lc st]; simpl.
  induction es as [|[[c f] s] es IHes]; constructor; auto.
Qed.

(** ** Reaction as a sequence of listener writes *)

Definition listener_writes (ev : Event Entity) (ls : list (nat * nat))
    (bb : Blackboard) : Blackboard :=
  fold_left (fun bb tf => HoardListener_react tf.1 tf.2 ev bb) ls bb.

Lemma listener_writes_app ev ls1 ls2 bb :
  listener_writes ev (ls1 ++ ls2) bb
  = listener_writes ev ls2 (listener_writes ev ls1 bb).
Proof. unfold listener_writes. apply fold_left_app. Qed.

Lemma react_all_flat_map (r : node -> Blackboard -> Blackboard)
    (ls : node -> list (nat * nat)) ev ns bb :
  Forall (fun c => forall bb, r c bb = listener_writes ev (ls c) bb) ns ->
  react_all r ns bb = listener_writes ev (flat_map ls ns) bb.
Proof.
  intros Hall. revert bb.
  induction Hall as [|c ns Hc _ IH]; intros bb; [done|].
  cbn [flat_map]. rewrite listener_writes_app, <- Hc. exact (IH (r c bb)).
Qed.

(** A tree built only from the node classes of w2 (no [UtilitySelector]). *)
Fixpoint w2_tree (n : node) : bool :=
  match n with
  | Sequence ns | Selector ns | OrNode ns | Parallel ns => forallb w2_tree ns
  | NotNode c => w2_tree c
  | UtilitySelector _ | RandomWalk | PatchUp _ => false
  | _ => true
  end.

Lemma react_listeners l n ev bb :
  react l n ev bb = listener_writes ev (listeners l n) bb.
Proof.
  revert bb. induction n as [n IH] using node_ind_children.
  destruct n; intros bb; simpl in *; try reflexivity.
  1-2: destruct l; [apply react_all_flat_map, IH | reflexivity].
  1-2: apply react_all_flat_map, IH.
  inv IH. apply H1.
Qed.

Lemma flat_map_ext_Forall {A B} (f g : A -> list B) (P : A -> bool) xs :
  Forall (fun x => P x = true -> f x = g x) xs -> forallb P xs = true ->
  flat_map f xs = flat_map g xs.
Proof.
  induction 1 as [|x xs Hx _ IH]; simpl; [done|].
  rewrite andb_true_iff. intros [Hp Hps]. rewrite Hx, IH; done.
Qed.

Lemma listeners_w2_all n :
  w2_tree n = true -> listeners W2 n = all_listeners n.
Proof.
  induction n as [n IH] using node_ind_children.
  destruct n; simpl in *; try done.
  1-4: apply flat_map_ext_Forall; done.
  inv IH. done.
Qed.

(** C6: Event propagation (spec §3, §8).  In the w2 library, dispatching an
    event to a tree built from the w2 node classes has exactly the effect of
    running [HoardListener::react] of every listener leaf of the tree, in
    depth-first order: no composite short-circuits the broadcast, whatever
    its kind or its position. *)
Theorem react_reaches_every_listener n ev bb :
  w2_tree n = true ->
  react W2 n ev bb = listener_writes ev (all_listeners n) bb.
Proof. intros Hw. rewrite react_listeners, listeners_w2_all; done. Qed.

Lemma react_reaches_every_listener_witness :
  w2_tree (Sequence [HoardListener 0 1; Selector [IsLowHp 1; HoardListener 2 3]]) = true /\
  react W2 (Sequence [HoardListener 0 1; Selector [IsLowHp 1; HoardListener 2 3]])
    (mkEvent HoardAlert 7) ∅
  = listener_writes (mkEvent HoardAlert 7)
      (all_listeners (Sequence [HoardListener 0 1; Selector [IsLowHp 1; HoardListener 2 3]])) ∅.
Proof.
  split; [reflexivity|].
  apply react_reaches_every_listener. reflexivity.
Defined.

(** In w3, [Sequence] and [Selector] keep the default [BehNode::react]: an
    event dispatched to a tree whose root is one of them changes nothing,
    whatever listeners the tree holds. *)
Lemma react_w3_sequence_drops ns ev bb :
  react W3 (Sequence ns) ev bb = bb /\ react W3 (Selector ns) ev bb = bb.
Proof. done. Qed.
