(* ===== verification/World.v ===== *)
(** The world the nodes act on: the flecs components of ecsTypes.h that the
    code of src/ reads or writes, the entities in the order the queries
    visit them, and the helpers of aiUtils.h.

    ecsTypes.h and aiUtils.h are not under src/: the component record, the
    action constants, [dist], [move_towards] and [inverse_move] are modelled
    from the way the code of src/ uses them (spec.md §6 names the world
    accessor without defining it).

    - An entity is alive iff the world lists it; [0] is never listed, so the
      default [flecs::entity] is neither alive nor valid.
    - Every query of the code ([ecs.query<...>().each]) visits the entities
      that have the queried components, in one fixed order; flecs leaves that
      order to its storage, the model takes the order of the list.
    - [entity.set([&](T1&, T2&){...})] adds the components the entity lacks,
      value-initialised, before running the lambda ([ensure_*] below);
      [entity.get([&](const T&){...})] runs the lambda only if the entity is
      alive and has every component.
    - Component writes take effect at once: the code writes only into
      components the entity already has, which flecs updates in place even
      in deferred mode. *)

From Stdlib Require Import QArith ZArith Lia Init.Byte.
From stdpp Require Import base decidable list gmap strings.
From S2P Require Import Prelude Types Blackboard RandomUtil Node.

(** ** Components *)

(** [PlayerInput]: the key states seen on the previous frame. *)
Record PlayerInput : Type := mkPlayerInput {
  inp_left : bool; inp_right : bool; inp_up : bool; inp_down : bool; inp_skip : bool
}.


(** [Color] (raylib): four [unsigned char] channels. *)
Record Color : Type := mkColor { col_r : byte; col_g : byte; col_b : byte; col_a : byte }.

(** The components only entity names and the drawing systems use. *)
Record Look : Type := mkLook {
  l_name : option string      (** the name [ecs.entity(name)] gave the entity *);
  l_color : option Color      (** [Color] *);
  l_texsrc : option Entity    (** the target of the pair [(TextureSource, target)] *);
  l_texture : option string   (** [Texture2D], by the file [LoadTexture] read *);
  l_sm : bool                 (** [StateMachine] (always empty in w2) *)
}.

Definition no_look : Look := mkLook None None None None false.

Record Comps : Type := mkComps {
  c_pos : option Position          (** [Position] *);
  c_mpos : option Position         (** [MovePos] *);
  c_hp : option Q                  (** [Hitpoints] *);
  c_action : option Z              (** [Action] *);
  c_team : option Z                (** [Team] *);
  c_numactions : option (Z * Z)    (** [NumActions {numActions, curActions}] *);
  c_dmg : option Q                 (** [MeleeDamage] *);
  c_is_player : bool               (** [IsPlayer (a tag)] *);
  c_can_pickup : bool              (** [CanPickup (a tag)] *);
  c_heal : option Q                (** [HealAmount] *);
  c_powerup : option Q             (** [PowerupAmount] *);
  c_cur_wp : option Entity         (** [CurrentWaypoint] *);
  c_next_wp : option Entity        (** [NextWaypoint] *);
  c_bb : option Blackboard         (** [Blackboard] *);
  c_tree : option node             (** [BehaviourTree] *);
  c_input : option PlayerInput     (** [PlayerInput] *);
  c_look : Look
}.

Definition no_comps : Comps :=
  mkComps None None None None None None None false false None None None None
    None None None no_look.

Definition set_pos (v : option Position) (c : Comps) : Comps :=
  mkComps v (c_mpos c) (c_hp c) (c_action c) (c_team c) (c_numactions c)
    (c_dmg c) (c_is_player c) (c_can_pickup c) (c_heal c) (c_powerup c)
    (c_cur_wp c) (c_next_wp c) (c_bb c) (c_tree c) (c_input c) (c_look c).
Definition set_mpos (v : option Position) (c : Comps) : Comps :=
  mkComps (c_pos c) v (c_hp c) (c_action c) (c_team c) (c_numactions c)
    (c_dmg c) (c_is_player c) (c_can_pickup c) (c_heal c) (c_powerup c)
    (c_cur_wp c) (c_next_wp c) (c_bb c) (c_tree c) (c_input c) (c_look c).
Definition set_hp (v : option Q) (c : Comps) : Comps :=
  mkComps (c_pos c) (c_mpos c) v (c_action c) (c_team c) (c_numactions c)
    (c_dmg c) (c_is_player c) (c_can_pickup c) (c_heal c) (c_powerup c)
    (c_cur_wp c) (c_next_wp c) (c_bb c) (c_tree c) (c_input c) (c_look c).
Definition set_action (v : option Z) (c : Comps) : Comps :=
  mkComps (c_pos c) (c_mpos c) (c_hp c) v (c_team c) (c_numactions c) (c_dmg
    c) (c_is_player c) (c_can_pickup c) (c_heal c) (c_powerup c) (c_cur_wp
    c) (c_next_wp c) (c_bb c) (c_tree c) (c_input c) (c_look c).
Definition set_team (v : option Z) (c : Comps) : Comps :=
  mkComps (c_pos c) (c_mpos c) (c_hp c) (c_action c) v (c_numactions c)
    (c_dmg c) (c_is_player c) (c_can_pickup c) (c_heal c) (c_powerup c)
    (c_cur_wp c) (c_next_wp c) (c_bb c) (c_tree c) (c_input c) (c_look c).
Definition set_numactions (v : option (Z * Z)) (c : Comps) : Comps :=
  mkComps (c_pos c) (c_mpos c) (c_hp c) (c_action c) (c_team c) v (c_dmg c)
    (c_is_player c) (c_can_pickup c) (c_heal c) (c_powerup c) (c_cur_wp c)
    (c_next_wp c) (c_bb c) (c_tree c) (c_input c) (c_look c).
Definition set_dmg (v : option Q) (c : Comps) : Comps :=
  mkComps (c_pos c) (c_mpos c) (c_hp c) (c_action c) (c_team c)
    (c_numactions c) v (c_is_player c) (c_can_pickup c) (c_heal c)
    (c_powerup c) (c_cur_wp c) (c_next_wp c) (c_bb c) (c_tree c) (c_input c) (c_look c).
Definition set_is_player (v : bool) (c : Comps) : Comps :=
  mkComps (c_pos c) (c_mpos c) (c_hp c) (c_action c) (c_team c)
    (c_numactions c) (c_dmg c) v (c_can_pickup c) (c_heal c) (c_powerup c)
    (c_cur_wp c) (c_next_wp c) (c_bb c) (c_tree c) (c_input c) (c_look c).
Definition set_can_pickup (v : bool) (c : Comps) : Comps :=
  mkComps (c_pos c) (c_mpos c) (c_hp c) (c_action c) (c_team c)
    (c_numactions c) (c_dmg c) (c_is_player c) v (c_heal c) (c_powerup c)
    (c_cur_wp c) (c_next_wp c) (c_bb c) (c_tree c) (c_input c) (c_look c).
Definition set_heal (v : option Q) (c : Comps) : Comps :=
  mkComps (c_pos c) (c_mpos c) (c_hp c) (c_action c) (c_team c)
    (c_numactions c) (c_dmg c) (c_is_player c) (c_can_pickup c) v (c_powerup
    c) (c_cur_wp c) (c_next_wp c) (c_bb c) (c_tree c) (c_input c) (c_look c).
Definition set_powerup (v : option Q) (c : Comps) : Comps :=
  mkComps (c_pos c) (c_mpos c) (c_hp c) (c_action c) (c_team c)
    (c_numactions c) (c_dmg c) (c_is_player c) (c_can_pickup c) (c_heal c) v
    (c_cur_wp c) (c_next_wp c) (c_bb c) (c_tree c) (c_input c) (c_look c).
Definition set_cur_wp (v : option Entity) (c : Comps) : Comps :=
  mkComps (c_pos c) (c_mpos c) (c_hp c) (c_action c) (c_team c)
    (c_numactions c) (c_dmg c) (c_is_player c) (c_can_pickup c) (c_heal c)
    (c_powerup c) v (c_next_wp c) (c_bb c) (c_tree c) (c_input c) (c_look c).
Definition set_next_wp (v : option Entity) (c : Comps) : Comps :=
  mkComps (c_pos c) (c_mpos c) (c_hp c) (c_action c) (c_team c)
    (c_numactions c) (c_dmg c) (c_is_player c) (c_can_pickup c) (c_heal c)
    (c_powerup c) (c_cur_wp c) v (c_bb c) (c_tree c) (c_input c) (c_look c).
Definition set_bb (v : option Blackboard) (c : Comps) : Comps :=
  mkComps (c_pos c) (c_mpos c) (c_hp c) (c_action c) (c_team c)
    (c_numactions c) (c_dmg c) (c_is_player c) (c_can_pickup c) (c_heal c)
    (c_powerup c) (c_cur_wp c) (c_next_wp c) v (c_tree c) (c_input c) (c_look c).
Definition set_input (v : option PlayerInput) (c : Comps) : Comps :=
  mkComps (c_pos c) (c_mpos c) (c_hp c) (c_action c) (c_team c)
    (c_numactions c) (c_dmg c) (c_is_player c) (c_can_pickup c) (c_heal c)
    (c_powerup c) (c_cur_wp c) (c_next_wp c) (c_bb c) (c_tree c) v (c_look c).
Definition set_tree (v : option node) (c : Comps) : Comps :=
  mkComps (c_pos c) (c_mpos c) (c_hp c) (c_action c) (c_team c)
    (c_numactions c) (c_dmg c) (c_is_player c) (c_can_pickup c) (c_heal c)
    (c_powerup c) (c_cur_wp c) (c_next_wp c) (c_bb c) v (c_input c) (c_look c).
Definition set_look (v : Look) (c : Comps) : Comps :=
  mkComps (c_pos c) (c_mpos c) (c_hp c) (c_action c) (c_team c)
    (c_numactions c) (c_dmg c) (c_is_player c) (c_can_pickup c) (c_heal c)
    (c_powerup c) (c_cur_wp c) (c_next_wp c) (c_bb c) (c_tree c) (c_input c) v.


(** ** The world *)

Record World : Type := mkWorld {
  w_ents : list (Entity * Comps);   (** the live entities, in query order *)
  w_next : Entity                   (** the next id [ecs.entity()] hands out *)
}.

Fixpoint alookup (e : Entity) (l : list (Entity * Comps)) : option Comps :=
  match l with
  | [] => None
  | (e', c) :: l' => if decide (e = e') then Some c else alookup e l'
  end.

Fixpoint amodify (e : Entity) (f : Comps -> Comps) (l : list (Entity * Comps))
    : list (Entity * Comps) :=
  match l with
  | [] => []
  | (e', c) :: l' =>
      if decide (e = e') then (e', f c) :: l' else (e', c) :: amodify e f l'
  end.

Definition get_comps (w : World) (e : Entity) : option Comps :=
  alookup e (w_ents w).

Definition modify_comps (w : World) (e : Entity) (f : Comps -> Comps) : World :=
  mkWorld (amodify e f (w_ents w)) (w_next w).

(** [flecs::entity::is_alive] and [flecs::world::is_valid]. *)
Definition is_alive (w : World) (e : Entity) : bool :=
  bool_decide (is_Some (get_comps w e)).

Definition is_valid (w : World) (e : Entity) : bool :=
  negb (Nat.eqb e null_entity) && is_alive w e.

(** The components of an entity read through [entity.get]. *)
Definition pos_of (w : World) (e : Entity) : option Position :=
  get_comps w e ≫= c_pos.

(** [ecs.entity()]: a fresh id at the end of the query order. *)
Definition new_entity (c : Comps) (w : World) : Entity * World :=
  (w_next w, mkWorld (w_ents w ++ [(w_next w, c)]) (S (w_next w))).

(** ** Value-initialised components added by [entity.set(lambda)] *)

Definition ensure_pos (c : Comps) : Comps :=
  set_pos (Some (default (mkPosition 0 0) (c_pos c))) c.
Definition ensure_action (c : Comps) : Comps :=
  set_action (Some (default 0%Z (c_action c))) c.
Definition ensure_team (c : Comps) : Comps :=
  set_team (Some (default 0%Z (c_team c))) c.
Definition ensure_hp (c : Comps) : Comps :=
  set_hp (Some (default 0%Q (c_hp c))) c.
Definition ensure_cur_wp (c : Comps) : Comps :=
  set_cur_wp (Some (default null_entity (c_cur_wp c))) c.
Definition ensure_bb (c : Comps) : Comps :=
  set_bb (Some (default ∅ (c_bb c))) c.

(** ** aiUtils.h and the action constants of ecsTypes.h *)

(** [enum Actions]: only their distinctness and the move range
    [EA_MOVE_START .. EA_MOVE_END - 1] matter to the code of src/. *)
Definition EA_NOP : Z := 0.
Definition EA_MOVE_START : Z := 1.
Definition EA_MOVE_LEFT : Z := 1.
Definition EA_MOVE_RIGHT : Z := 2.
Definition EA_MOVE_DOWN : Z := 3.
Definition EA_MOVE_UP : Z := 4.
Definition EA_MOVE_END : Z := 5.
Definition EA_HEAL_SELF : Z := 6.
Definition EA_MOVE_SKIP : Z := 7.

(** [move_towards(from, to)]: a step along the axis of the larger gap. *)
Definition move_towards (from to : Position) : Z :=
  let dx := (px to - px from)%Z in
  let dy := (py to - py from)%Z in
  if Z.ltb (Z.abs dy) (Z.abs dx)
  then (if Z.ltb 0 dx then EA_MOVE_RIGHT else EA_MOVE_LEFT)
  else (if Z.ltb dy 0 then EA_MOVE_UP else EA_MOVE_DOWN).

(** [inverse_move(move)]: the opposite step. *)
Definition inverse_move (m : Z) : Z :=
  if Z.eqb m EA_MOVE_LEFT then EA_MOVE_RIGHT
  else if Z.eqb m EA_MOVE_RIGHT then EA_MOVE_LEFT
  else if Z.eqb m EA_MOVE_UP then EA_MOVE_DOWN
  else if Z.eqb m EA_MOVE_DOWN then EA_MOVE_UP
  else m.

(** [dist(a, b)] is the Euclidean distance [sqrtf(dx*dx + dy*dy)]; the code
    only compares it, with [<] against another distance and with [<=] or [>]
    against a threshold, so the model keeps its square: [dist a b < dist c d]
    iff [dist2 a b < dist2 c d], and [dist a b <= r] iff [0 <= r] and
    [dist2 a b <= r * r]. *)
Definition dist2 (a b : Position) : Z :=
  ((px a - px b) * (px a - px b) + (py a - py b) * (py a - py b))%Z.

Definition dist_le (d2 : Z) (r : Q) : bool :=
  Qle_bool 0 r && Qle_bool (inject_Z d2) (r * r).

(** ** Faults

    The code has no error channel: a failed [std::any_cast] in [bb.get]
    throws, and flecs asserts on an invalid entity.  The model surfaces them
    as values. *)
Inductive fault : Type :=
| BadAnyCast (slot : nat)      (** [bb.get<T>(slot)] with no [T] stored *)
| InvalidEntity (e : Entity)   (** a component access on a dead entity *)
| SamplerExhausted.            (** [rnd::sample] past its fuel *)

(** ** Reading back what was written *)

Lemma alookup_amodify_eq e f l : alookup e (amodify e f l) = f <$> alookup e l.
Proof.
  induction l as [|[e' c] l IH]; [done|]. simpl.
  case_decide; simpl; [by rewrite decide_True|by rewrite decide_False].
Qed.

Lemma alookup_amodify_ne e e' f l :
  e' ≠ e -> alookup e' (amodify e f l) = alookup e' l.
Proof.
  intros Hne. induction l as [|[e'' c] l IH]; [done|]. simpl.
  destruct (decide (e = e'')) as [->|]; simpl.
  - case_decide; [done|reflexivity].
  - case_decide; [done|apply IH].
Qed.

Lemma get_comps_modify_eq w e f :
  get_comps (modify_comps w e f) e = f <$> get_comps w e.
Proof. apply alookup_amodify_eq. Qed.

Lemma get_comps_modify_ne w e e' f :
  e' ≠ e -> get_comps (modify_comps w e f) e' = get_comps w e'.
Proof. apply alookup_amodify_ne. Qed.

Lemma get_comps_modify w e e' f :
  get_comps (modify_comps w e f) e' =
  if decide (e' = e) then f <$> get_comps w e else get_comps w e'.
Proof.
  case_decide; subst; [apply get_comps_modify_eq|by apply get_comps_modify_ne].
Qed.

Lemma is_alive_modify w e e' f : is_alive (modify_comps w e f) e' = is_alive w e'.
Proof.
  unfold is_alive. rewrite get_comps_modify.
  case_decide; subst; [|done]. destruct (get_comps w e); done.
Qed.

Lemma is_alive_Some w e : is_alive w e = true <-> exists c, get_comps w e = Some c.
Proof.
  unfold is_alive. rewrite bool_decide_eq_true.
  split; intros [c Hc]; [by exists c|by rewrite Hc].
Qed.

#[export] Hint Rewrite get_comps_modify_eq is_alive_modify : bt_rw.

(** ** Well-formed worlds

    Ids are unique, never the null entity, and below the next fresh id. *)
Record wf_world (w : World) : Prop := {
  wf_nonnull : forall e c, (e, c) ∈ w_ents w -> e ≠ null_entity;
  wf_nodup : NoDup (map fst (w_ents w));
  wf_fresh : forall e c, (e, c) ∈ w_ents w -> e < w_next w;
  wf_next : null_entity < w_next w
}.

Lemma amodify_fst e f l : map fst (amodify e f l) = map fst l.
Proof.
  induction l as [|[e' c] l IH]; [done|]. simpl. case_decide; simpl; congruence.
Qed.

Lemma elem_of_amodify e f l e' c' :
  (e', c') ∈ amodify e f l -> exists c, (e', c) ∈ l.
Proof.
  induction l as [|[e'' c] l IH]; simpl; [by intros ?%elem_of_nil|].
  case_decide; rewrite elem_of_cons; intros [[= -> ->]|Hin].
  1,3: exists c; by left.
  - exists c'. by right.
  - destruct (IH Hin) as [c0 ?]. exists c0. by right.
Qed.

Lemma wf_world_modify w e f : wf_world w -> wf_world (modify_comps w e f).
Proof.
  intros [Hn Hd Hf Hx]. split; simpl; [..|done].
  - intros e' c' (c & ?)%elem_of_amodify. eauto.
  - by rewrite amodify_fst.
  - intros e' c' (c & ?)%elem_of_amodify. eauto.
Qed.

Lemma alookup_elem e c l : (e, c) ∈ l -> is_Some (alookup e l).
Proof.
  induction l as [|[e' c'] l IH]; simpl; [by intros ?%elem_of_nil|].
  rewrite elem_of_cons. case_decide; [eauto|].
  intros [[= -> ->]|Hin]; [done|auto].
Qed.

(** An entity the world lists is valid. *)
Lemma is_valid_elem w e c : wf_world w -> (e, c) ∈ w_ents w -> is_valid w e = true.
Proof.
  intros Hwf Hin. unfold is_valid, is_alive, get_comps.
  apply andb_true_intro. split.
  - apply negb_true_iff, Nat.eqb_neq. eapply wf_nonnull; eauto.
  - apply bool_decide_eq_true. eapply alookup_elem; eauto.
Qed.

Lemma alookup_elem_inv e l c : alookup e l = Some c -> (e, c) ∈ l.
Proof.
  induction l as [|[e' c'] l IH]; simpl; [done|].
  case_decide; [intros [= <-]; subst; by left|intros; right; auto].
Qed.

(** The null entity is never alive. *)
Lemma null_not_alive w : wf_world w -> is_alive w null_entity = false.
Proof.
  intros Hwf. unfold is_alive, get_comps. apply bool_decide_eq_false.
  intros [c Hc%alookup_elem_inv]. by apply (wf_nonnull _ Hwf _ _ Hc).
Qed.

#[export] Hint Resolve wf_world_modify : bt.

(** A decision procedure for [wf_world]. *)
Definition wf_worldb (w : World) : bool :=
  forallb (fun ec => negb (Nat.eqb ec.1 null_entity) && Nat.ltb ec.1 (w_next w)) (w_ents w)
  && bool_decide (NoDup (map fst (w_ents w))) && Nat.ltb null_entity (w_next w).

Lemma wf_worldb_sound w : wf_worldb w = true -> wf_world w.
Proof.
  unfold wf_worldb. rewrite !andb_true_iff, forallb_forall, bool_decide_eq_true.
  intros [[Hall Hnd] Hn%Nat.ltb_lt].
  assert (forall e c, (e, c) ∈ w_ents w -> e ≠ null_entity /\ e < w_next w) as H.
  { intros e c Hin%list_elem_of_In. apply Hall in Hin.
    apply andb_true_iff in Hin as [He%negb_true_iff Hlt%Nat.ltb_lt].
    apply Nat.eqb_neq in He. done. }
  split; [intros; eapply H; eauto|done|intros; eapply H; eauto|done].
Qed.

(** ** Frames: what a tick of one entity may change

    [frame e w w']: the same entities, and every entity other than [e]
    keeps all its components but its blackboard. *)

Definition only_bb (c c' : Comps) : Prop := c' = set_bb (c_bb c') c.

Definition frame (e : Entity) (w w' : World) : Prop :=
  map fst (w_ents w') = map fst (w_ents w) /\ w_next w' = w_next w /\
  forall e', e' ≠ e -> option_Forall2 only_bb (get_comps w e') (get_comps w' e').

Lemma only_bb_refl c : only_bb c c.
Proof. by destruct c. Qed.

Lemma only_bb_trans c1 c2 c3 : only_bb c1 c2 -> only_bb c2 c3 -> only_bb c1 c3.
Proof. unfold only_bb. intros -> ->. by destruct c1. Qed.

Lemma frame_refl e w : frame e w w.
Proof.
  split_and!; [done..|]. intros e' _.
  destruct (get_comps w e'); constructor. apply only_bb_refl.
Qed.

Lemma frame_trans e w1 w2 w3 : frame e w1 w2 -> frame e w2 w3 -> frame e w1 w3.
Proof.
  intros (H1 & N1 & F1) (H2 & N2 & F2). split_and!; [congruence..|].
  intros e' Hne. specialize (F1 e' Hne). specialize (F2 e' Hne).
  destruct F1 as [c1 c2 H12|]; inv F2; constructor. eapply only_bb_trans; eauto.
Qed.

Lemma frame_modify_r e w w1 f : frame e w w1 -> frame e w (modify_comps w1 e f).
Proof.
  intros Hf. eapply frame_trans; [exact Hf|]. split_and!; simpl.
  - apply amodify_fst.
  - done.
  - intros e' Hne. rewrite get_comps_modify_ne by done.
    destruct (get_comps w1 e'); constructor. apply only_bb_refl.
Qed.

#[export] Hint Resolve frame_refl frame_modify_r : bt.

Lemma elem_of_amodify_inv e f l e' c' :
  (e', c') ∈ amodify e f l ->
  (e' = e /\ exists c, (e, c) ∈ l /\ c' = f c) \/ (e', c') ∈ l.
Proof.
  induction l as [|[e'' c] l IH]; simpl; [by intros ?%elem_of_nil|].
  case_decide as Hd; rewrite elem_of_cons.
  - subst e''. intros [Heq|Hin].
    + injection Heq as -> ->. left. split; [done|]. exists c. split; [by left|done].
    + right. by right.
  - intros [Heq|Hin]; [injection Heq as -> ->; right; by left|].
    destruct (IH Hin) as [(-> & c0 & Hin0 & ->)|Hin0].
    + left. split; [done|]. exists c0. split; [by right|done].
    + right. by right.
Qed.
