(* ===== verification/Leaves.v ===== *)
(** The leaves of src/w2/behLibrary.cpp and src/w3/behLibrary.cpp: the
    [update] of each leaf class, on the world of World.v and, for the leaves
    that call raylib's [GetRandomValue], the random source.  A leaf is given
    the entity whose tree runs; [bb] is that entity's [Blackboard]
    component. *)

From Stdlib Require Import QArith Lqa ZArith Lia.
From stdpp Require Import base decidable list gmap strings.
From S2P Require Import Prelude Types Blackboard RandomUtil Composite Node World.

(** The blackboard the code passes as [bb] to the tree of [e]. *)
Definition bb_of (c : Comps) : Blackboard := default ∅ (c_bb c).

Definition set_bb_of (w : World) (e : Entity) (bb : Blackboard) : World :=
  modify_comps w e (set_bb (Some bb)).

Definition set_action_of (w : World) (e : Entity) (a : Z) : World :=
  modify_comps w e (set_action (Some a)).

Definition pos_or_origin (c : Comps) : Position := default (mkPosition 0 0) (c_pos c).

(** [entity.set([&](T1&, ..., Tn&){...})]: the components are added where
    missing ([ensure]), then the lambda sees them. *)
Definition entity_set (ensure : Comps -> Comps) (w : World) (e : Entity)
    : fault + (Comps * World) :=
  match get_comps w e with
  | None => inl (InvalidEntity e)
  | Some c => inr (ensure c, modify_comps w e ensure)
  end.

(** ** Searches: [FindEnemy] and [FindClosestOf] *)

(** One step of the [each] loop: [if (curDist < closestDist)] keep the new
    entity; [None] stands for [closestDist = FLT_MAX], which every distance
    between two positions of the game is below. *)
Definition closer (pos : Position) (acc : option (Entity * Z))
    (ep : Entity * Position) : option (Entity * Z) :=
  let d := dist2 ep.2 pos in
  match acc with
  | Some (_, cd) => if Z.ltb d cd then Some (ep.1, d) else acc
  | None => Some (ep.1, d)
  end.

Definition closest (pos : Position) (cands : list (Entity * Position))
    : option (Entity * Z) :=
  foldl (closer pos) None cands.

(** [enemiesQuery.each] with its [if (t.team == et.team) return;]. *)
Definition enemies (t : Z) (w : World) : list (Entity * Position) :=
  omap (fun ec =>
          match c_pos ec.2, c_team ec.2 with
          | Some p, Some t' => if Z.eqb t t' then None else Some (ec.1, p)
          | _, _ => None
          end) (w_ents w).

Definition has_kind (k : closest_kind) (c : Comps) : bool :=
  match k with
  | QPowerup => bool_decide (is_Some (c_powerup c))
  | QHeal => bool_decide (is_Some (c_heal c))
  end.

(** [m_query.each] over [ecs.query<Position, PowerupAmount>()] or
    [ecs.query<Position, HealAmount>()]. *)
Definition kind_query (k : closest_kind) (w : World) : list (Entity * Position) :=
  omap (fun ec => if has_kind k ec.2 then (fun p => (ec.1, p)) <$> c_pos ec.2
                  else None) (w_ents w).

(** [if (ecs.is_valid(closest) && closestDist <= distance)
    { bb.set<flecs::entity>(entityBb, closest); res = BEH_SUCCESS; }];
    with no candidate [closest] is the default entity, which is not valid. *)
Definition find_finish (entityBb : nat) (distance : Q)
    (found : option (Entity * Z)) (e : Entity) (c : Comps) (w : World)
    : BehResult * World :=
  match found with
  | Some (ce, d) =>
      if is_valid w ce && dist_le d distance
      then (BEH_SUCCESS, set_bb_of w e (bb_set entityBb (VEntity ce) (bb_of c)))
      else (BEH_FAIL, w)
  | None => (BEH_FAIL, w)
  end.

(** [FindEnemy::update] (w2 lines 250-278). *)
Definition FindEnemy_update (entityBb : nat) (distance : Q) (e : Entity)
    (w : World) : fault + (BehResult * World) :=
  match entity_set (fun c => ensure_team (ensure_pos c)) w e with
  | inl f => inl f
  | inr (c, w) =>
      let pos := pos_or_origin c in
      let t := default 0%Z (c_team c) in
      inr (find_finish entityBb distance (closest pos (enemies t w)) e c w)
  end.

(** [FindClosestOf<QueryTypes...>::update] (w2 lines 214-238). *)
Definition FindClosestOf_update (k : closest_kind) (entityBb : nat)
    (distance : Q) (e : Entity) (w : World) : fault + (BehResult * World) :=
  match entity_set ensure_pos w e with
  | inl f => inl f
  | inr (c, w) =>
      inr (find_finish entityBb distance
             (closest (pos_or_origin c) (kind_query k w)) e c w)
  end.

(** ** Movement *)

(** [MoveToEntity::update] (w2 lines 158-182). *)
Definition MoveToEntity_update (entityBb : nat) (e : Entity) (w : World)
    : fault + (BehResult * World) :=
  match entity_set (fun c => ensure_pos (ensure_action c)) w e with
  | inl f => inl f
  | inr (c, w) =>
      let pos := pos_or_origin c in
      match bb_get_entity entityBb (bb_of c) with
      | None => inl (BadAnyCast entityBb)
      | Some target =>
          if negb (is_alive w target) then inr (BEH_FAIL, w) else
          match pos_of w target with
          | None => inr (BEH_RUNNING, w)
          | Some tpos =>
              if bool_decide (pos = tpos) then inr (BEH_SUCCESS, w)
              else inr (BEH_RUNNING, set_action_of w e (move_towards pos tpos))
          end
      end
  end.

(** [Flee::update] (w2 lines 317-334). *)
Definition Flee_update (entityBb : nat) (e : Entity) (w : World)
    : fault + (BehResult * World) :=
  match entity_set (fun c => ensure_pos (ensure_action c)) w e with
  | inl f => inl f
  | inr (c, w) =>
      let pos := pos_or_origin c in
      match bb_get_entity entityBb (bb_of c) with
      | None => inl (BadAnyCast entityBb)
      | Some target =>
          if negb (is_alive w target) then inr (BEH_FAIL, w) else
          match pos_of w target with
          | None => inr (BEH_RUNNING, w)
          | Some tpos =>
              inr (BEH_RUNNING,
                   set_action_of w e (inverse_move (move_towards pos tpos)))
          end
      end
  end.

(** [FindWaypoint::update] (w2 lines 290-306).  [waypoint.value.get(...)]
    runs only if the waypoint is alive with a [Position] and a
    [NextWaypoint]. *)
Definition FindWaypoint_update (entityBb : nat) (e : Entity) (w : World)
    : fault + (BehResult * World) :=
  match entity_set (fun c => ensure_cur_wp (ensure_pos c)) w e with
  | inl f => inl f
  | inr (c, w) =>
      let pos := pos_or_origin c in
      let wp := default null_entity (c_cur_wp c) in
      let wp' :=
        match get_comps w wp with
        | Some cw =>
            match c_pos cw, c_next_wp cw with
            | Some wpos, Some next =>
                if bool_decide (px pos = px wpos /\ py pos = py wpos)
                then next else wp
            | _, _ => wp
            end
        | None => wp
        end in
      let w := modify_comps w e (set_cur_wp (Some wp')) in
      if is_valid w wp'
      then inr (BEH_SUCCESS, set_bb_of w e (bb_set entityBb (VEntity wp') (bb_of c)))
      else inr (BEH_FAIL, w)
  end.

(** ** Conditions and listeners *)

(** [IsLowHp::update] (w2 lines 189-198). *)
Definition IsLowHp_update (threshold : Q) (e : Entity) (w : World)
    : fault + (BehResult * World) :=
  match get_comps w e ≫= c_hp with
  | Some hp => inr (if Qltb hp threshold then BEH_SUCCESS else BEH_FAIL, w)
  | None => inr (BEH_SUCCESS, w)
  end.

(** [HoardListener::update] (w2 lines 377-380). *)
Definition HoardListener_update (w : World) : fault + (BehResult * World) :=
  inr (BEH_FAIL, w).

(** [AlertHoard::update] (w2 lines 402-423): every entity with a [Position],
    a [BehaviourTree] and a [Blackboard] within [m_alert_dist] of the
    alerting entity gets the event through its tree's [react]. *)
Definition alert_one (e_pos : Position) (m_alert_dist : Q) (enemy : Entity)
    (ec : Entity * Comps) : Entity * Comps :=
  match c_pos ec.2, c_tree ec.2, c_bb ec.2 with
  | Some p, Some t, Some other_bb =>
      if dist_le (dist2 e_pos p) m_alert_dist
      then (ec.1, set_bb (Some (BehaviourTree_event W2 t (mkEvent HoardAlert enemy) other_bb)) ec.2)
      else ec
  | _, _, _ => ec
  end.

Definition AlertHoard_update (m_alert_dist : Q) (m_bb_index : nat)
    (e : Entity) (w : World) : fault + (BehResult * World) :=
  match get_comps w e with
  | None => inl (InvalidEntity e)
  | Some c =>
      match bb_get_entity m_bb_index (bb_of c) with
      | None => inl (BadAnyCast m_bb_index)
      | Some enemy =>
          if negb (is_valid w enemy) || negb (is_alive w enemy)
          then inr (BEH_FAIL, w)
          else match c_pos c with
               | None => inr (BEH_SUCCESS, w)
               | Some e_pos =>
                   inr (BEH_SUCCESS,
                        mkWorld (map (alert_one e_pos m_alert_dist enemy) (w_ents w))
                                (w_next w))
               end
      end
  end.

(** ** Leaves that draw from the random source *)

Section Random.
Context {G : Type} `{!RandomSource G}.

(** [GetRandomValue(EA_MOVE_START, EA_MOVE_END - 1)]: a random step. *)
Definition random_move (g : G) : Z * G :=
  get_random_value EA_MOVE_START (EA_MOVE_END - 1) g.

(** [Patrol::update] (w2 lines 345-357). *)
Definition Patrol_update (pposBb : nat) (patrolDist : Q) (e : Entity)
    (s : World * G) : fault + (BehResult * (World * G)) :=
  let (w, g) := s in
  match entity_set (fun c => ensure_pos (ensure_action c)) w e with
  | inl f => inl f
  | inr (c, w) =>
      let pos := pos_or_origin c in
      match bb_get_position pposBb (bb_of c) with
      | None => inl (BadAnyCast pposBb)
      | Some patrolPos =>
          if negb (dist_le (dist2 pos patrolPos) patrolDist)
          then inr (BEH_RUNNING, (set_action_of w e (move_towards pos patrolPos), g))
          else let (a, g') := random_move g in
               inr (BEH_RUNNING, (set_action_of w e a, g'))
      end
  end.

(** [RandomWalk::update] (w3 lines 259-266). *)
Definition RandomWalk_update (e : Entity) (s : World * G)
    : fault + (BehResult * (World * G)) :=
  let (w, g) := s in
  match entity_set ensure_action w e with
  | inl f => inl f
  | inr (_, w) =>
      let (a, g') := random_move g in inr (BEH_RUNNING, (set_action_of w e a, g'))
  end.

End Random.

(** [PatchUp::update] (w3 lines 273-285). *)
Definition PatchUp_update (hpThreshold : Q) (e : Entity) (w : World)
    : fault + (BehResult * World) :=
  match entity_set (fun c => ensure_hp (ensure_action c)) w e with
  | inl f => inl f
  | inr (c, w) =>
      if Qle_bool hpThreshold (default 0%Q (c_hp c)) then inr (BEH_SUCCESS, w)
      else inr (BEH_RUNNING, set_action_of w e EA_HEAL_SELF)
  end.

(** ** The closest candidate *)

Lemma closer_spec pos acc ep :
  exists a', closer pos acc ep = Some a' /\
    (a' = (ep.1, dist2 ep.2 pos) \/ acc = Some a') /\
    (a'.2 <= dist2 ep.2 pos)%Z /\ (forall a, acc = Some a -> (a'.2 <= a.2)%Z).
Proof.
  destruct ep as [e p]. unfold closer. cbn [fst snd].
  destruct acc as [[ce cd]|].
  - destruct (Z.ltb_spec (dist2 p pos) cd).
    + eexists; split; [done|]. split; [by left|]. split; [cbn; lia|].
      intros a [= <-]. cbn. lia.
    + eexists; split; [done|]. split; [by right|]. split; [cbn; lia|].
      intros a [= <-]. cbn. lia.
  - eexists; split; [done|]. split; [by left|]. split; [cbn; lia|done].
Qed.

Lemma closest_acc_spec pos cands acc ce d :
  foldl (closer pos) acc cands = Some (ce, d) ->
  (acc = Some (ce, d) \/ exists p, (ce, p) ∈ cands /\ d = dist2 p pos) /\
  (forall e' p', (e', p') ∈ cands -> (d <= dist2 p' pos)%Z) /\
  (forall a, acc = Some a -> (d <= a.2)%Z).
Proof.
  revert acc. induction cands as [|[e0 p0] cands IH]; intros acc H; simpl in H.
  - subst. split; [by left|]. split; [by intros ?? ?%elem_of_nil|].
    intros a [= <-]. cbn. lia.
  - destruct (closer_spec pos acc (e0, p0)) as (a' & Ha' & Hor & Hle & Hmin).
    rewrite Ha' in H. destruct (IH _ H) as (Hmem & Hall & Hacc).
    specialize (Hacc a' eq_refl). split; [|split].
    + destruct Hmem as [Heq|(p & Hin & ->)].
      * destruct Hor as [->|Hacc0].
        -- injection Heq as <- <-. right. exists p0. split; [by left|done].
        -- left. by rewrite Hacc0, Heq.
      * right. exists p. split; [by right|done].
    + intros e' p' Hin. apply elem_of_cons in Hin as [Heq|Hin].
      * injection Heq as -> ->. cbn in *. lia.
      * eauto.
    + intros a Ha. specialize (Hmin a Ha). lia.
Qed.

Lemma closest_spec pos cands ce d :
  closest pos cands = Some (ce, d) ->
  (exists p, (ce, p) ∈ cands /\ d = dist2 p pos) /\
  (forall e' p', (e', p') ∈ cands -> (d <= dist2 p' pos)%Z).
Proof.
  intros (Hmem & Hall & _)%closest_acc_spec.
  destruct Hmem as [|]; [done|]. auto.
Qed.


Lemma foldl_closer_is_Some pos acc cands :
  is_Some acc -> is_Some (foldl (closer pos) acc cands).
Proof.
  revert acc. induction cands as [|ep cands IH]; intros acc Hacc; [done|].
  simpl. apply IH. destruct (closer_spec pos acc ep) as (a' & -> & _). eauto.
Qed.

Lemma closest_None pos cands : closest pos cands = None -> cands = [].
Proof.
  destruct cands as [|ep cands]; [done|]. unfold closest. cbn [foldl]. intros H.
  destruct (closer_spec pos None ep) as (a' & Ha & _). rewrite Ha in H.
  destruct (foldl_closer_is_Some pos (Some a') cands) as [? Hs]; [eauto|].
  by rewrite Hs in H.
Qed.

Lemma elem_of_enemies t w en p :
  (en, p) ∈ enemies t w <->
  exists c, (en, c) ∈ w_ents w /\ c_pos c = Some p /\
    exists t', c_team c = Some t' /\ t ≠ t'.
Proof.
  unfold enemies. rewrite list_elem_of_omap. split.
  - intros ([e0 c] & Hin & H). simpl in H.
    destruct (c_pos c) eqn:Hp, (c_team c) eqn:Ht; try done.
    destruct (Z.eqb_spec t z); [done|]. injection H as <- <-.
    exists c. eauto 10.
  - intros (c & Hin & Hp & t' & Ht & Hne). exists (en, c). split; [done|].
    simpl. rewrite Hp, Ht. by destruct (Z.eqb_spec t t').
Qed.

Lemma dist_le_mono d d' r :
  dist_le d' r = true -> (d <= d')%Z -> dist_le d r = true.
Proof.
  unfold dist_le. rewrite !andb_true_iff, !Qle_bool_iff.
  intros [H0 Hd'] Hle. split; [done|].
  eapply Qle_trans; [|exact Hd']. by rewrite <- Zle_Qle.
Qed.

(** Some candidate is within [distance] of [pos]. *)
Definition in_range (pos : Position) (distance : Q)
    (cands : list (Entity * Position)) : Prop :=
  exists en p, (en, p) ∈ cands /\ dist_le (dist2 p pos) distance = true.

(** The search of [FindEnemy] and [FindClosestOf], on the world after
    [entity.set] added the components: the closest candidate, if within
    [distance], is stored; otherwise no candidate is within [distance]. *)
Lemma find_finish_spec slot distance e c w cands pos :
  wf_world w -> (forall en p, (en, p) ∈ cands -> exists c', (en, c') ∈ w_ents w) ->
  let '(r, w') := find_finish slot distance (closest pos cands) e c w in
  (r = BEH_SUCCESS /\ exists en p, (en, p) ∈ cands /\
     dist_le (dist2 p pos) distance = true /\
     (forall en' p', (en', p') ∈ cands -> (dist2 p pos <= dist2 p' pos)%Z) /\
     w' = set_bb_of w e (bb_set slot (VEntity en) (bb_of c))) \/
  (r = BEH_FAIL /\ w' = w /\ ~ in_range pos distance cands).
Proof.
  intros Hwf Hcands. unfold find_finish.
  destruct (closest pos cands) as [[ce d]|] eqn:Hcl.
  - destruct (closest_spec _ _ _ _ Hcl) as ((p & Hin & ->) & Hmin).
    destruct (Hcands _ _ Hin) as [c' Hin'].
    rewrite (is_valid_elem _ _ _ Hwf Hin'). simpl.
    destruct (dist_le (dist2 p pos) distance) eqn:Hd.
    + left. split; [done|]. exists ce, p. auto.
    + right. split_and!; [done..|]. intros (en & p' & Hin2 & Hd2).
      rewrite (dist_le_mono _ _ _ Hd2 (Hmin _ _ Hin2)) in Hd. done.
  - apply closest_None in Hcl as ->. right. split_and!; [done..|].
    by intros (? & ? & ?%elem_of_nil & _).
Qed.

(** [FindEnemy::update] in terms of the candidates of its query.  It succeeds
    iff an entity of another team with a [Position] is within [distance];
    then it stores in the slot the closest one (the first visited among
    equally close ones), and otherwise it fails with only the components
    [entity.set] added. *)
Lemma FindEnemy_update_enemies slot distance e w c :
  wf_world w -> get_comps w e = Some c ->
  exists r w',
    FindEnemy_update slot distance e w = inr (r, w') /\
    ((r = BEH_SUCCESS /\ exists en p,
        (en, p) ∈ enemies (default 0%Z (c_team (ensure_team (ensure_pos c))))
                    (modify_comps w e (fun c => ensure_team (ensure_pos c))) /\
        dist_le (dist2 p (pos_or_origin (ensure_team (ensure_pos c)))) distance = true /\
        (forall en' p',
           (en', p') ∈ enemies (default 0%Z (c_team (ensure_team (ensure_pos c))))
                         (modify_comps w e (fun c => ensure_team (ensure_pos c))) ->
           (dist2 p (pos_or_origin (ensure_team (ensure_pos c))) <=
            dist2 p' (pos_or_origin (ensure_team (ensure_pos c))))%Z) /\
        w' = set_bb_of (modify_comps w e (fun c => ensure_team (ensure_pos c))) e
               (bb_set slot (VEntity en) (bb_of (ensure_team (ensure_pos c))))) \/
     (r = BEH_FAIL /\ w' = modify_comps w e (fun c => ensure_team (ensure_pos c)) /\
      ~ in_range (pos_or_origin (ensure_team (ensure_pos c))) distance
          (enemies (default 0%Z (c_team (ensure_team (ensure_pos c))))
             (modify_comps w e (fun c => ensure_team (ensure_pos c)))))).
Proof.
  intros Hwf Hc. unfold FindEnemy_update, entity_set. rewrite Hc.
  match goal with
  | |- context [find_finish ?slot ?d (closest ?pos ?cands) ?e ?c ?w] =>
      pose proof (find_finish_spec slot d e c w cands pos (wf_world_modify _ _ _ Hwf)) as Hs;
      destruct (find_finish slot d (closest pos cands) e c w) as [r w']
  end.
  exists r, w'. split; [done|]. apply Hs.
  intros en p (c' & Hin & _)%elem_of_enemies. eauto.
Qed.

(** The entities [FindEnemy] is after: an entity of [w] with a position
    and a team other than [t]. *)
Definition enemy_at (t : Z) (w : World) (en : Entity) (p : Position) : Prop :=
  exists c, (en, c) ∈ w_ents w /\ c_pos c = Some p /\ exists t', c_team c = Some t' /\ t ≠ t'.

(** C12: [FindEnemy::update] on a live entity never faults.  It succeeds
    iff an entity of another team with a [Position] is within [distance];
    then it stores in the slot an entity of another team that is closest
    (the first visited among equally close ones), and otherwise it fails
    with only the components [entity.set] added. *)
Theorem FindEnemy_update_spec slot distance e w c :
  wf_world w -> get_comps w e = Some c ->
  exists r w',
    FindEnemy_update slot distance e w = inr (r, w') /\
    ((r = BEH_SUCCESS /\ exists en p,
        enemy_at (default 0%Z (c_team (ensure_team (ensure_pos c))))
          (modify_comps w e (fun c => ensure_team (ensure_pos c))) en p /\
        dist_le (dist2 p (pos_or_origin (ensure_team (ensure_pos c)))) distance = true /\
        (forall en' p',
           enemy_at (default 0%Z (c_team (ensure_team (ensure_pos c))))
             (modify_comps w e (fun c => ensure_team (ensure_pos c))) en' p' ->
           (dist2 p (pos_or_origin (ensure_team (ensure_pos c))) <=
            dist2 p' (pos_or_origin (ensure_team (ensure_pos c))))%Z) /\
        w' = set_bb_of (modify_comps w e (fun c => ensure_team (ensure_pos c))) e
               (bb_set slot (VEntity en) (bb_of (ensure_team (ensure_pos c))))) \/
     (r = BEH_FAIL /\ w' = modify_comps w e (fun c => ensure_team (ensure_pos c)) /\
      ~ exists en p,
          enemy_at (default 0%Z (c_team (ensure_team (ensure_pos c))))
            (modify_comps w e (fun c => ensure_team (ensure_pos c))) en p /\
          dist_le (dist2 p (pos_or_origin (ensure_team (ensure_pos c)))) distance = true)).
Proof.
  intros Hwf Hc. unfold enemy_at. setoid_rewrite <-elem_of_enemies.
  by apply FindEnemy_update_enemies.
Qed.

(** A minotaur (team 1) at (5, 5) with an ally at (3, 3) and another at
    (-3, 3). *)
Definition find_enemy_world : World :=
  mkWorld [(1, set_team (Some 1%Z) (set_pos (Some (mkPosition 5 5)) no_comps));
           (2, set_team (Some 0%Z) (set_pos (Some (mkPosition 3 3)) no_comps));
           (3, set_team (Some 0%Z) (set_pos (Some (mkPosition (-3) 3)) no_comps))] 4.

Lemma FindEnemy_update_spec_witness :
  wf_world find_enemy_world /\
  exists c, get_comps find_enemy_world 1 = Some c /\
  exists r w',
    FindEnemy_update 0 3 1 find_enemy_world = inr (r, w') /\
    ((r = BEH_SUCCESS /\ exists en p,
        enemy_at (default 0%Z (c_team (ensure_team (ensure_pos c))))
          (modify_comps find_enemy_world 1 (fun c => ensure_team (ensure_pos c))) en p /\
        dist_le (dist2 p (pos_or_origin (ensure_team (ensure_pos c)))) 3 = true /\
        (forall en' p',
           enemy_at (default 0%Z (c_team (ensure_team (ensure_pos c))))
             (modify_comps find_enemy_world 1 (fun c => ensure_team (ensure_pos c))) en' p' ->
           (dist2 p (pos_or_origin (ensure_team (ensure_pos c))) <=
            dist2 p' (pos_or_origin (ensure_team (ensure_pos c))))%Z) /\
        w' = set_bb_of (modify_comps find_enemy_world 1 (fun c => ensure_team (ensure_pos c))) 1
               (bb_set 0 (VEntity en) (bb_of (ensure_team (ensure_pos c))))) \/
     (r = BEH_FAIL /\ w' = modify_comps find_enemy_world 1 (fun c => ensure_team (ensure_pos c)) /\
      ~ exists en p,
          enemy_at (default 0%Z (c_team (ensure_team (ensure_pos c))))
            (modify_comps find_enemy_world 1 (fun c => ensure_team (ensure_pos c))) en p /\
          dist_le (dist2 p (pos_or_origin (ensure_team (ensure_pos c)))) 3 = true)).
Proof.
  assert (Hwf : wf_world find_enemy_world) by (apply wf_worldb_sound; reflexivity).
  split; [exact Hwf|]. eexists. split; [reflexivity|].
  apply FindEnemy_update_spec; [exact Hwf|reflexivity].
Defined.

(** ** The alert *)

(** What [beh_tree.event(...)] does to one entity visited by [hasBehTree]. *)
Definition alerted (e_pos : Position) (m_alert_dist : Q) (enemy : Entity)
    (c : Comps) : Comps :=
  match c_pos c, c_tree c, c_bb c with
  | Some p, Some t, Some other_bb =>
      if dist_le (dist2 e_pos p) m_alert_dist
      then set_bb (Some (react W2 t (mkEvent HoardAlert enemy) other_bb)) c
      else c
  | _, _, _ => c
  end.

Lemma alert_one_alerted e_pos d enemy ec :
  alert_one e_pos d enemy ec = (ec.1, alerted e_pos d enemy ec.2).
Proof.
  destruct ec as [e c]. unfold alert_one, alerted, BehaviourTree_event. simpl.
  destruct (c_pos c), (c_tree c), (c_bb c); try done.
  by destruct (dist_le (dist2 e_pos p) d).
Qed.

Lemma alookup_map_snd (f : Comps -> Comps) e l :
  alookup e (map (fun ec => (ec.1, f ec.2)) l) = f <$> alookup e l.
Proof.
  induction l as [|[e' c] l IH]; [done|]. simpl. case_decide; [done|apply IH].
Qed.

(** C13: [AlertHoard::update] with a valid enemy in its slot succeeds and
    delivers the alert to every entity with a tree and a blackboard within
    [m_alert_dist] of it, itself included: each such blackboard is what its
    tree's [react] makes of it with the enemy as the event's data (by
    [react_listeners], the writes of the listeners the tree forwards to);
    every other component and entity is unchanged. *)
Theorem AlertHoard_update_alerts d slot e w c enemy e_pos :
  get_comps w e = Some c -> bb_get_entity slot (bb_of c) = Some enemy ->
  is_valid w enemy = true -> c_pos c = Some e_pos ->
  exists w', AlertHoard_update d slot e w = inr (BEH_SUCCESS, w') /\
    map fst (w_ents w') = map fst (w_ents w) /\
    forall e', get_comps w' e' = alerted e_pos d enemy <$> get_comps w e'.
Proof.
  intros Hc Hb Hv Hp. unfold AlertHoard_update. rewrite Hc, Hb, Hv.
  assert (is_alive w enemy = true) as ->.
  { by apply andb_true_iff in Hv as [_ ?]. }
  rewrite Hp. eexists. split; [reflexivity|].
  rewrite (map_ext _ (fun ec => (ec.1, alerted e_pos d enemy ec.2)))
    by apply alert_one_alerted.
  split; [cbn [w_ents]; rewrite map_map; by apply map_ext|].
  intros e'. apply alookup_map_snd.
Qed.

(** A hoard of two around an alerting member at the origin, the enemy
    (entity 2) next to it. *)
Definition alert_world : World :=
  mkWorld [(1, set_tree (Some (HoardListener 0 0))
                 (set_bb (Some {[0 := VEntity 2]})
                    (set_pos (Some (mkPosition 0 0)) no_comps)));
           (2, set_pos (Some (mkPosition 1 0)) no_comps);
           (3, set_tree (Some (Sequence [IsLowHp 1; HoardListener 0 0]))
                 (set_bb (Some ∅) (set_pos (Some (mkPosition 3 4)) no_comps)))] 4.

Lemma AlertHoard_update_alerts_witness :
  exists c, get_comps alert_world 1 = Some c /\
    bb_get_entity 0 (bb_of c) = Some 2 /\ is_valid alert_world 2 = true /\
    c_pos c = Some (mkPosition 0 0) /\
    exists w', AlertHoard_update 5 0 1 alert_world = inr (BEH_SUCCESS, w') /\
      map fst (w_ents w') = map fst (w_ents alert_world) /\
      forall e', get_comps w' e' =
                 alerted (mkPosition 0 0) 5 2 <$> get_comps alert_world e'.
Proof.
  eexists. split; [reflexivity|]. split_and!; [reflexivity..|].
  eapply AlertHoard_update_alerts; reflexivity.
Defined.

(** ** Each leaf changes only its own entity (and, for [AlertHoard], the
    blackboards it alerts) *)

Ltac leaf_frame :=
  unfold entity_set, set_action_of, set_bb_of, HoardListener_update;
  intros H; repeat (case_match; simplify_eq/=); simplify_eq/=; eauto with bt.

Lemma MoveToEntity_frame slot e w r w' :
  MoveToEntity_update slot e w = inr (r, w') -> frame e w w'.
Proof. unfold MoveToEntity_update. leaf_frame. Qed.

Lemma Flee_frame slot e w r w' : Flee_update slot e w = inr (r, w') -> frame e w w'.
Proof. unfold Flee_update. leaf_frame. Qed.

Lemma FindEnemy_frame slot d e w r w' :
  FindEnemy_update slot d e w = inr (r, w') -> frame e w w'.
Proof. unfold FindEnemy_update, find_finish. leaf_frame. Qed.

Lemma FindClosestOf_frame k slot d e w r w' :
  FindClosestOf_update k slot d e w = inr (r, w') -> frame e w w'.
Proof. unfold FindClosestOf_update, find_finish. leaf_frame. Qed.

Lemma FindWaypoint_frame slot e w r w' :
  FindWaypoint_update slot e w = inr (r, w') -> frame e w w'.
Proof. unfold FindWaypoint_update. leaf_frame. Qed.

Lemma IsLowHp_frame t e w r w' : IsLowHp_update t e w = inr (r, w') -> frame e w w'.
Proof. unfold IsLowHp_update. leaf_frame. Qed.

Lemma PatchUp_frame t e w r w' : PatchUp_update t e w = inr (r, w') -> frame e w w'.
Proof. unfold PatchUp_update. leaf_frame. Qed.

Lemma HoardListener_frame e w r w' : HoardListener_update w = inr (r, w') -> frame e w w'.
Proof. leaf_frame. Qed.

Lemma Patrol_frame {G} `{!RandomSource G} slot d e (s : World * G) r s' :
  Patrol_update slot d e s = inr (r, s') -> frame e s.1 s'.1.
Proof. destruct s as [w g]. unfold Patrol_update. leaf_frame. Qed.

Lemma RandomWalk_frame {G} `{!RandomSource G} e (s : World * G) r s' :
  RandomWalk_update e s = inr (r, s') -> frame e s.1 s'.1.
Proof. destruct s as [w g]. unfold RandomWalk_update. leaf_frame. Qed.

Lemma only_bb_alerted e_pos d enemy c : only_bb c (alerted e_pos d enemy c).
Proof.
  unfold alerted. destruct (c_pos c), (c_tree c), (c_bb c); try apply only_bb_refl.
  case_match; [by destruct c|apply only_bb_refl].
Qed.

Lemma AlertHoard_frame d slot e w r w' :
  AlertHoard_update d slot e w = inr (r, w') -> frame e w w'.
Proof.
  unfold AlertHoard_update. intros H. repeat (case_match; simplify_eq/=); simplify_eq/=;
    try apply frame_refl.
  match goal with
  | |- context [alert_one ?p ?d ?en] =>
      rewrite (map_ext _ (fun ec => (ec.1, alerted p d en ec.2))) by apply alert_one_alerted
  end.
  split_and!; simpl; [rewrite map_map; by apply map_ext|done|].
  intros e' _. unfold get_comps. simpl. rewrite alookup_map_snd.
  destruct (alookup e' (w_ents w)); constructor. apply only_bb_alerted.
Qed.

(** ** Patrol and random walk always plan a step *)

Definition is_move (a : Z) : Prop := (EA_MOVE_START <= a <= EA_MOVE_END - 1)%Z.

Lemma move_towards_is_move p q : is_move (move_towards p q).
Proof.
  unfold is_move, move_towards.
  repeat case_match; unfold EA_MOVE_START, EA_MOVE_END, EA_MOVE_LEFT, EA_MOVE_RIGHT,
    EA_MOVE_UP, EA_MOVE_DOWN; lia.
Qed.

Lemma random_move_is_move {G} `{RandomSourceLaws G} (g : G) : is_move (random_move g).1.
Proof.
  unfold is_move, random_move. apply get_random_value_range.
  unfold EA_MOVE_START, EA_MOVE_END. lia.
Qed.

Lemma action_of_set_action w e a c :
  get_comps w e = Some c ->
  get_comps (set_action_of (modify_comps w e (fun c => ensure_pos (ensure_action c))) e a) e
  = Some (set_action (Some a) (ensure_pos (ensure_action c))).
Proof.
  intros Hc. unfold set_action_of. by rewrite !get_comps_modify_eq, Hc.
Qed.

(** C22: [Patrol::update] on a live entity whose patrol slot holds a
    [Position] never faults, returns [BEH_RUNNING] and sets the entity's
    action: when the entity is farther than [patrolDist] from the patrol
    centre, the step [move_towards] the centre, with no draw; otherwise one
    draw of [GetRandomValue(EA_MOVE_START, EA_MOVE_END - 1)].  With the
    documented range of [GetRandomValue], the action is a move. *)
Theorem Patrol_plans_a_move {G} `{RandomSourceLaws G} slot d e (w : World) (g : G) c pp :
  get_comps w e = Some c -> bb_get_position slot (bb_of c) = Some pp ->
  exists w' g' a,
    Patrol_update slot d e (w, g) = inr (BEH_RUNNING, (w', g')) /\
    (get_comps w' e ≫= c_action) = Some a /\ is_move a /\
    (if dist_le (dist2 (default (mkPosition 0 0) (c_pos c)) pp) d
     then (a, g') = get_random_value EA_MOVE_START (EA_MOVE_END - 1) g
     else a = move_towards (default (mkPosition 0 0) (c_pos c)) pp /\ g' = g).
Proof.
  intros Hc Hp. unfold Patrol_update, entity_set. rewrite Hc.
  change (bb_of (ensure_pos (ensure_action c))) with (bb_of c). rewrite Hp.
  change (pos_or_origin (ensure_pos (ensure_action c)))
    with (default (mkPosition 0 0) (c_pos c)).
  destruct (dist_le _ _) eqn:Hd; simpl.
  - pose proof (random_move_is_move g) as Hm. unfold random_move in *.
    destruct (get_random_value _ _ g) as [a g'] eqn:Hr. do 3 eexists. split; [reflexivity|].
    rewrite (action_of_set_action _ _ _ _ Hc). done.
  - do 3 eexists. split; [reflexivity|].
    rewrite (action_of_set_action _ _ _ _ Hc). split; [reflexivity|].
    split; [apply move_towards_is_move|done].
Qed.

(** An entity at the origin whose patrol centre is (9, 9). *)
Definition patrol_world : World :=
  mkWorld [(1, set_bb (Some {[0 := VPosition (mkPosition 9 9)]})
                 (set_pos (Some (mkPosition 0 0)) no_comps))] 2.

Lemma Patrol_plans_a_move_witness :
  exists c, get_comps patrol_world 1 = Some c /\
  bb_get_position 0 (bb_of c) = Some (mkPosition 9 9) /\
  exists w' g' a,
    Patrol_update 0 2 1 (patrol_world, (@nil Q, @nil Z)) = inr (BEH_RUNNING, (w', g')) /\
    (get_comps w' 1 ≫= c_action) = Some a /\ is_move a /\
    (if dist_le (dist2 (default (mkPosition 0 0) (c_pos c)) (mkPosition 9 9)) 2
     then (a, g') = get_random_value EA_MOVE_START (EA_MOVE_END - 1) (@nil Q, @nil Z)
     else a = move_towards (default (mkPosition 0 0) (c_pos c)) (mkPosition 9 9) /\
          g' = (@nil Q, @nil Z)).
Proof.
  eexists. split; [reflexivity|]. split; [reflexivity|].
  eapply (Patrol_plans_a_move 0 2 1); reflexivity.
Defined.

(** C25: [IsLowHp::update] (w2 lines 190-198) never faults and never
    changes the world; it fails exactly when the entity has [Hitpoints] not
    below the threshold.  So an entity without [Hitpoints] (or a dead
    handle) counts as low: [res] starts as [BEH_SUCCESS] and [entity.get]
    does not call the lambda. *)
Theorem IsLowHp_update_spec threshold e w :
  exists r, IsLowHp_update threshold e w = inr (r, w) /\
    (r = BEH_FAIL <-> exists hp, get_comps w e ≫= c_hp = Some hp /\ (threshold <= hp)%Q).
Proof.
  unfold IsLowHp_update. destruct (get_comps w e ≫= c_hp) as [hp|]; eexists; split; [done| |done|].
  - destruct (Qltb hp threshold) eqn:Hq.
    + apply rnd_facts.Qltb_true in Hq. split; [done|]. intros (? & [= <-] & ?). lra.
    + split; [|done]. intros _. exists hp. split; [done|].
      apply Qnot_lt_le. intros Hl. apply rnd_facts.Qltb_true in Hl. congruence.
  - split; [done|]. by intros (? & ? & ?).
Qed.
