(* ===== verification/Tree.v ===== *)
(** The evaluator: [BehNode::update] dispatched over the node language
    (virtual calls of behLibrary.cpp), the [BehaviourTree] façade of
    src/w2/behaviourTree.h (lines 30-53) and the tree pass of [process_turn]
    (src/w2/roguelike.cpp, lines 384-387).

    The state of a tick is the world and the random source; a node returns
    its result and itself, updated (only a [UtilitySelector] changes), and
    the tree is written back into the entity's [BehaviourTree] component. *)

From Stdlib Require Import QArith ZArith Lia.
From stdpp Require Import base decidable list gmap strings.
From S2P Require Import Prelude Types Blackboard RandomUtil Composite Utility Node World Leaves.

Section Eval.
Context {G : Type} `{!RandomSource G}.

(** The fuel of [rnd::sample]'s retry loop; [2] suffices (RandomUtil.v). *)
Variable sample_fuel : nat.

#[local] Abbreviation St := (World * G)%type.

Definition leaf (n : node) (r : fault + (BehResult * World)) (g : G)
    : fault + (BehResult * node * St) :=
  match r with
  | inl f => inl f
  | inr (res, w) => inr (res, n, (w, g))
  end.

Definition rleaf (n : node) (r : fault + (BehResult * St))
    : fault + (BehResult * node * St) :=
  match r with
  | inl f => inl f
  | inr (res, s) => inr (res, n, s)
  end.

Definition rewrap {X : Type} (k : X -> node) (r : fault + (BehResult * X * St))
    : fault + (BehResult * node * St) :=
  match r with
  | inl f => inl f
  | inr (res, x, s) => inr (res, k x, s)
  end.

(** A utility function reads the blackboard of the ticking entity. *)
Definition bb_score (e : Entity) (f : utility_function) (s : St) : Q :=
  f (default ∅ (get_comps s.1 e ≫= c_bb)).

Definition set_rng (g : G) (s : St) : St := (s.1, g).

Fixpoint update (n : node) (e : Entity) (s : St) {struct n}
    : fault + (BehResult * node * St) :=
  match n with
  | Sequence ns => rewrap Sequence (Sequence_update (fun c s => update c e s) ns s)
  | Selector ns => rewrap Selector (Selector_update (fun c s => update c e s) ns s)
  | OrNode ns => rewrap OrNode (OrNode_update (fun c s => update c e s) ns s)
  | Parallel ns => rewrap Parallel (Parallel_update (fun c s => update c e s) ns s)
  | NotNode c => rewrap NotNode (NotNode_update (fun c s => update c e s) c s)
  | UtilitySelector u =>
      rewrap UtilitySelector
        (UtilitySelector_update (fun c s => update c e s) (bb_score e) snd set_rng
           SamplerExhausted sample_fuel u s)
  | MoveToEntity slot => leaf n (MoveToEntity_update slot e s.1) s.2
  | IsLowHp thr => leaf n (IsLowHp_update thr e s.1) s.2
  | FindClosestOf k slot d => leaf n (FindClosestOf_update k slot d e s.1) s.2
  | FindEnemy slot d => leaf n (FindEnemy_update slot d e s.1) s.2
  | FindWaypoint slot => leaf n (FindWaypoint_update slot e s.1) s.2
  | Flee slot => leaf n (Flee_update slot e s.1) s.2
  | Patrol slot d => rleaf n (Patrol_update slot d e s)
  | HoardListener _ _ => leaf n (HoardListener_update s.1) s.2
  | AlertHoard d slot => leaf n (AlertHoard_update d slot e s.1) s.2
  | RandomWalk => rleaf n (RandomWalk_update e s)
  | PatchUp thr => leaf n (PatchUp_update thr e s.1) s.2
  end.

(** [BehaviourTree::update] (behaviourTree.h lines 45-48): the root's result
    is dropped; the updated root goes back into the component. *)
Definition BehaviourTree_update (root : node) (e : Entity) (s : St)
    : fault + St :=
  match update root e s with
  | inl f => inl f
  | inr (_, root', (w, g)) => inr (modify_comps w e (set_tree (Some root')), g)
  end.

(** The entities [ecs.query<BehaviourTree, Blackboard>()] visits. *)
Definition tree_entities (w : World) : list Entity :=
  omap (fun ec => match c_tree ec.2, c_bb ec.2 with
                  | Some _, Some _ => Some ec.1
                  | _, _ => None
                  end) (w_ents w).

(** One visit of [behTreeUpdate.each]: the tree is read when the entity's
    turn comes, after the trees before it have run. *)
Definition tick_one (s : St) (e : Entity) : fault + St :=
  match get_comps s.1 e ≫= c_tree with
  | Some root => BehaviourTree_update root e s
  | None => inr s
  end.

Fixpoint tick_list (es : list Entity) (s : St) : fault + St :=
  match es with
  | [] => inr s
  | e :: es => match tick_one s e with
               | inl f => inl f
               | inr s' => tick_list es s'
               end
  end.

(** [behTreeUpdate.each([&](e, bt, bb){ bt.update(ecs, e, bb); })]. *)
Definition tick_trees (s : St) : fault + St :=
  tick_list (tree_entities s.1) s.

End Eval.

(** ** A tick changes only the ticking entity, and blackboards *)

Section Frame.
Context {G : Type} `{!RandomSource G}.
Variable sample_fuel : nat.

Ltac unwrap H :=
  unfold rewrap, leaf, rleaf in H;
  match type of H with
  | match ?m with inl _ => _ | inr _ => _ end = _ =>
      let E := fresh "E" in
      first [destruct m as [|[[? ?] ?]] eqn:E | destruct m as [|[? ?]] eqn:E];
      simplify_eq/=
  end.

Definition st_frame (e : Entity) (s s' : World * G) : Prop := frame e s.1 s'.1.

Lemma st_frame_refl e s : st_frame e s s.
Proof. apply frame_refl. Qed.

Lemma st_frame_trans e s1 s2 s3 : st_frame e s1 s2 -> st_frame e s2 s3 -> st_frame e s1 s3.
Proof. apply frame_trans. Qed.

Lemma update_frame n e (s : World * G) r n' s' :
  update sample_fuel n e s = inr (r, n', s') -> st_frame e s s'.
Proof.
  revert s r n' s'. induction n as [n IH] using node_ind_children.
  intros [w g] r n' s' H. destruct n; simpl in H, IH.
  - unwrap H. eapply Sequence_update_keeps; [apply st_frame_refl|apply st_frame_trans|exact IH|done].
  - unwrap H. eapply Selector_update_keeps; [apply st_frame_refl|apply st_frame_trans|exact IH|done].
  - unwrap H. eapply OrNode_loop_keeps; [apply st_frame_refl|apply st_frame_trans|exact IH|done].
  - unwrap H. eapply Parallel_loop_keeps; [apply st_frame_refl|apply st_frame_trans|exact IH|done].
  - unwrap H. inv IH. eapply NotNode_update_keeps; [|done]. done.
  - unwrap H. eapply UtilitySelector_update_keeps with (set_rng := @set_rng G);
      [apply st_frame_refl|apply st_frame_trans|intros; apply frame_refl| |exact E].
    intros node f l Hin. rewrite Forall_forall in IH. apply IH.
    exact (list_elem_of_fmap_2 (fun e => e.1.1) _ (node, f, l) Hin).
  - unwrap H. eapply MoveToEntity_frame; eauto.
  - unwrap H. eapply IsLowHp_frame; eauto.
  - unwrap H. eapply FindClosestOf_frame; eauto.
  - unwrap H. eapply FindEnemy_frame; eauto.
  - unwrap H. eapply FindWaypoint_frame; eauto.
  - unwrap H. eapply Flee_frame; eauto.
  - unwrap H. eapply (Patrol_frame _ _ _ (w, g)); eauto.
  - simplify_eq/=. apply st_frame_refl.
  - unwrap H. eapply AlertHoard_frame; eauto.
  - unwrap H. eapply (RandomWalk_frame _ (w, g)); eauto.
  - unwrap H. eapply PatchUp_frame; eauto.
Qed.

Lemma BehaviourTree_update_frame root e (s s' : World * G) :
  BehaviourTree_update sample_fuel root e s = inr s' -> st_frame e s s'.
Proof.
  unfold BehaviourTree_update.
  destruct (update sample_fuel root e s) as [|[[r root'] [w g]]] eqn:Hu; [done|].
  intros [= <-]. apply frame_modify_r, (update_frame _ _ _ _ _ _ Hu).
Qed.

(** C14: A tick of one entity's tree ([BehaviourTree::update] with the
    write-back of the updated root) creates and destroys no entity, and
    changes nothing of another entity but, through [AlertHoard], its
    blackboard: side effects on other entities go only through [react]. *)
Theorem tick_one_frame (s s' : World * G) e :
  tick_one sample_fuel s e = inr s' -> frame e s.1 s'.1.
Proof.
  unfold tick_one. destruct (get_comps s.1 e ≫= c_tree) as [root|].
  - apply BehaviourTree_update_frame.
  - intros [= <-]. apply frame_refl.
Qed.

Lemma tick_list_entities es (s s' : World * G) :
  tick_list sample_fuel es s = inr s' ->
  map fst (w_ents s'.1) = map fst (w_ents s.1) /\ w_next s'.1 = w_next s.1.
Proof.
  revert s. induction es as [|e es IH]; intros s H; simpl in H.
  - by injection H as <-.
  - destruct (tick_one sample_fuel s e) as [|s1] eqn:H1; [done|].
    assert (st_frame e s s1) as (Hf & Hn & _).
    { unfold tick_one in H1. destruct (get_comps s.1 e ≫= c_tree).
      - by eapply BehaviourTree_update_frame.
      - injection H1 as <-. apply frame_refl. }
    destruct (IH _ H) as [Hf' Hn']. split; congruence.
Qed.

End Frame.

Lemma tick_one_frame_witness :
  exists s', tick_one 2 (alert_world, (@nil Q, @nil Z)) 1 = inr s' /\
    frame 1 (alert_world, (@nil Q, @nil Z)).1 s'.1.
Proof. eexists. split; [reflexivity|]. apply (tick_one_frame 2). reflexivity. Defined.
