(* ===== verification/Semantics.v ===== *)
(** A relational specification of one tick of a tree, read off the
    contracts of the composites (spec 4.2-4.6), and the refinement theorem:
    the evaluator [Tree.update] (the [update] overrides of
    src/w2/behLibrary.cpp, lines 56-148, dispatched virtually) only
    produces outcomes the specification allows.

    The specification does not loop: a short-circuiting composite is
    described by the prefix of its children that ran in full, none of them
    stopping it, then either the end of the list or the child that stopped
    it (or raised).  [Parallel] is the composite that never stops, and its
    result is the precedence of spec 4.5 over the whole list of results.
    Leaves are the primitive steps of the specification, as their [update]
    performs them (Leaves.v).  The [UtilitySelector] has its own contract,
    spec 4.7, proved in Utility.v; trees without one are the subject here. *)

From Stdlib Require Import QArith ZArith Lia.
From stdpp Require Import base decidable list gmap strings.
From S2P Require Import Prelude Types Blackboard RandomUtil Composite Utility Node World Leaves Tree.

(** ** Short-circuit evaluation of a list of children *)

Section Short.
Context {S E A : Type}.
(** The specification of a child: from a state, the outcome it may give. *)
Variable X : A -> S -> E + (BehResult * S) -> Prop.

(** The children [ns] all run, in order, from [s]: their results are [rs]
    and the state is then [s']. *)
Inductive all_run : list A -> S -> list BehResult -> S -> Prop :=
| all_run_nil s : all_run [] s [] s
| all_run_cons c cs s r s1 rs s2 :
    X c s (inr (r, s1)) -> all_run cs s1 rs s2 -> all_run (c :: cs) s (r :: rs) s2.

(** A composite that stops at the first result satisfying [stop] and
    otherwise finishes with [fin] of all the results. *)
Inductive short (stop : BehResult -> Prop) (fin : list BehResult -> BehResult)
    : list A -> S -> E + (BehResult * S) -> Prop :=
| short_all ns s rs s' :
    all_run ns s rs s' -> Forall (fun r => ¬ stop r) rs ->
    short stop fin ns s (inr (fin rs, s'))
| short_stop pre c post s rs s1 r s2 :
    all_run pre s rs s1 -> Forall (fun r => ¬ stop r) rs ->
    X c s1 (inr (r, s2)) -> stop r ->
    short stop fin (pre ++ c :: post) s (inr (r, s2))
| short_fault pre c post s rs s1 f :
    all_run pre s rs s1 -> Forall (fun r => ¬ stop r) rs ->
    X c s1 (inl f) ->
    short stop fin (pre ++ c :: post) s (inl f).

(** A child that ran without stopping extends every run of the rest. *)
Lemma short_cons stop fin c cs s r s1 o :
  X c s (inr (r, s1)) -> ¬ stop r ->
  short stop (fun rs => fin (r :: rs)) cs s1 o -> short stop fin (c :: cs) s o.
Proof.
  intros Hc Hr Hs. inversion Hs; subst.
  - apply (short_all _ _ _ _ (r :: rs)); [by econstructor|by constructor].
  - apply (short_stop _ _ (c :: pre) c0 post s (r :: rs) s2); [by econstructor|by constructor|done..].
  - apply (short_fault _ _ (c :: pre) c0 post s (r :: rs) s2); [by econstructor|by constructor|done].
Qed.

Lemma short_nil_inv stop fin s o : short stop fin [] s o -> o = inr (fin [], s).
Proof.
  intros Hs. inversion Hs as [? ? ? ? Hr|? ? ? ? ? ? ? ? ? Hl|? ? ? ? ? ? ? Hl]; subst.
  - by inversion Hr.
  - by destruct pre.
  - by destruct pre.
Qed.

(** The first child either raised, or stopped the composite, or let the
    rest run. *)
Lemma short_cons_inv stop fin c cs s o :
  short stop fin (c :: cs) s o ->
  (exists f, X c s (inl f) /\ o = inl f) \/
  (exists r s1, X c s (inr (r, s1)) /\ stop r /\ o = inr (r, s1)) \/
  (exists r s1, X c s (inr (r, s1)) /\ ¬ stop r /\
     short stop (fun rs => fin (r :: rs)) cs s1 o).
Proof.
  intros Hs. inversion Hs as [? ? rs ? Hr Hf|pre c0 post ? rs s1 r s2 Hr Hf Hc Hst Hl|
                              pre c0 post ? rs s1 f Hr Hf Hc Hl]; subst.
  - inversion Hr as [|? ? ? r s1 rs' ? Hc Hr']; subst. inversion Hf; subst.
    right; right. exists r, s1. split_and!; [done..|].
    by apply (short_all _ (fun rs => fin (r :: rs)) cs s1 rs' s').
  - destruct pre as [|c' pre]; simpl in Hl; injection Hl as <- <-; inversion Hr; subst.
    + right; left. eauto.
    + inversion Hf; subst. right; right. eexists _, _. split_and!; [done..|by eapply short_stop].
  - destruct pre as [|c' pre]; simpl in Hl; injection Hl as <- <-; inversion Hr; subst.
    + left. eauto.
    + inversion Hf; subst. right; right. eexists _, _. split_and!; [done..|by eapply short_fault].
Qed.

(** With deterministic children, a composite has one outcome. *)
Lemma short_det stop fin ns s o1 o2 :
  Forall (fun c => forall s o1 o2, X c s o1 -> X c s o2 -> o1 = o2) ns ->
  short stop fin ns s o1 -> short stop fin ns s o2 -> o1 = o2.
Proof.
  revert fin s. induction ns as [|c ns IH]; intros fin s Hdet H1 H2.
  { by rewrite (short_nil_inv _ _ _ _ H1), (short_nil_inv _ _ _ _ H2). }
  inversion Hdet as [|? ? Hc Hns]; subst.
  apply short_cons_inv in H1 as [(f1 & Hx1 & ->)|[(r1 & s1 & Hx1 & Hs1 & ->)|(r1 & s1 & Hx1 & Hs1 & H1)]];
  apply short_cons_inv in H2 as [(f2 & Hx2 & ->)|[(r2 & s2 & Hx2 & Hs2 & ->)|(r2 & s2 & Hx2 & Hs2 & H2)]];
  pose proof (Hc _ _ _ Hx1 Hx2) as Heq; simplify_eq; try done.
  by eapply IH.
Qed.
End Short.

(** ** The accumulating scan of Composite.v meets the specification *)

Definition forget {N St : Type} (o : fault + (BehResult * N * St)) : fault + (BehResult * St) :=
  match o with
  | inl f => inl f
  | inr (r, _, s) => inr (r, s)
  end.

(** The run gives its node back unchanged. *)
Definition keeps {N St : Type} (o : fault + (BehResult * N * St)) (n : N) : Prop :=
  forall r n' s', o = inr (r, n', s') -> n' = n.

Lemma forget_push_child {N St} (c : N) (m : fault + (BehResult * list N * St)) :
  forget (push_child c m) = forget m.
Proof. by destruct m as [|[[??]?]]. Qed.

Lemma keeps_push_child {N St} (c : N) cs (m : fault + (BehResult * list N * St)) :
  keeps m cs -> keeps (push_child c m) (c :: cs).
Proof. intros Hk r ns' s' (cs' & Hm & ->)%push_child_inr. by rewrite (Hk _ _ _ Hm). Qed.

Section ScanShort.
Context {S A : Type}.
Variable X : A -> S -> fault + (BehResult * S) -> Prop.
Variable upd : A -> S -> fault + (BehResult * A * S).

(** A child is specified by [X], and its run gives it back. *)
Definition child_ok (c : A) : Prop := forall s, X c s (forget (upd c s)) /\ keeps (upd c s) c.

Lemma scan_short {B} (stop_b : BehResult -> bool) step fin (acc : B) stop finS ns s :
  (forall r, stop_b r = true <-> stop r) ->
  (forall rs, finS rs = fin (foldl step acc rs)) ->
  Forall child_ok ns ->
  short X stop finS ns s (forget (scan_acc upd stop_b step fin acc ns s)) /\
  keeps (scan_acc upd stop_b step fin acc ns s) ns.
Proof.
  intros Hstop. revert s acc finS.
  induction ns as [|c ns IH]; intros s acc finS Hfin Hall; simpl.
  { split; [|by intros ??? [= _ <- _]]. change (fin acc) with (fin (foldl step acc [])). rewrite <-(Hfin []).
    apply (short_all _ _ _ _ _ []); constructor. }
  inversion Hall as [|? ? Hc Hns]; subst. destruct (Hc s) as [HX Hid].
  destruct (upd c s) as [f|[[r c'] s1]] eqn:Hu; simpl in HX |- *.
  { split; [|done]. apply (short_fault _ _ _ [] c ns s [] s); [constructor|constructor|done]. }
  rewrite (Hid _ _ _ eq_refl). destruct (stop_b r) eqn:Hs.
  { split; [|by intros ??? [= _ <- _]].
    apply (short_stop _ _ _ [] c ns s [] s); [constructor|constructor|done|by apply Hstop]. }
  destruct (IH s1 (step acc r) (fun rs => finS (r :: rs))) as [IHs IHk]; [by intros; rewrite Hfin|done|].
  split; [|by apply keeps_push_child].
  rewrite forget_push_child. eapply short_cons; [exact HX| |exact IHs].
  rewrite <-Hstop, Hs. done.
Qed.
End ScanShort.

(** ** The specification of a tick *)

Definition invert_outcome {St : Type} (o : fault + (BehResult * St)) : fault + (BehResult * St) :=
  match o with
  | inl f => inl f
  | inr (r, s) => inr (invert r, s)
  end.

(** Spec 4.5: running dominates failure, which dominates success. *)
Definition par_result (rs : list BehResult) : BehResult :=
  if bool_decide (BEH_RUNNING ∈ rs) then BEH_RUNNING
  else if bool_decide (BEH_FAIL ∈ rs) then BEH_FAIL else BEH_SUCCESS.

(** Spec 4.4: success iff some child succeeded. *)
Definition or_result (rs : list BehResult) : BehResult :=
  if bool_decide (BEH_SUCCESS ∈ rs) then BEH_SUCCESS else BEH_FAIL.

Definition is_leaf (n : node) : bool :=
  match n with
  | Sequence _ | Selector _ | OrNode _ | Parallel _ | NotNode _ | UtilitySelector _ => false
  | _ => true
  end.

(** The trees without a [UtilitySelector]. *)
Fixpoint usel_free (n : node) : bool :=
  match n with
  | Sequence ns | Selector ns | OrNode ns | Parallel ns => forallb usel_free ns
  | NotNode c => usel_free c
  | UtilitySelector _ => false
  | _ => true
  end.

Section Exec.
Context {G : Type} `{!RandomSource G}.
Variable sample_fuel : nat.
Variable e : Entity.

Inductive exec : node -> World * G -> fault + (BehResult * (World * G)) -> Prop :=
| exec_leaf n s :
    is_leaf n = true -> exec n s (forget (update sample_fuel n e s))
| exec_sequence ns s o :
    short exec (fun r => r ≠ BEH_SUCCESS) (fun _ => BEH_SUCCESS) ns s o ->
    exec (Sequence ns) s o
| exec_selector ns s o :
    short exec (fun r => r ≠ BEH_FAIL) (fun _ => BEH_FAIL) ns s o ->
    exec (Selector ns) s o
| exec_or ns s o :
    short exec (fun r => r = BEH_RUNNING) or_result ns s o ->
    exec (OrNode ns) s o
| exec_parallel ns s o :
    short exec (fun _ => False) par_result ns s o ->
    exec (Parallel ns) s o
| exec_not c s o :
    exec c s o -> exec (NotNode c) s (invert_outcome o).

(** The specification is deterministic: a tree has at most one outcome. *)
Lemma exec_det n s o1 o2 : exec n s o1 -> exec n s o2 -> o1 = o2.
Proof.
  revert s o1 o2. induction n as [n IH] using node_ind_children.
  intros s o1 o2 H1 H2.
  inversion H1; subst; inversion H2; subst; simpl in IH; try done;
    try (by eapply short_det).
  inversion IH as [|? ? Hc]; subst. f_equal. by eapply Hc.
Qed.
End Exec.

(** ** The evaluator refines the specification *)

Section Refinement.
Context {G : Type} `{!RandomSource G}.
Variable sample_fuel : nat.
Variable e : Entity.

Lemma forget_rewrap {X} (k : X -> node) (m : fault + (BehResult * X * (World * G))) :
  forget (rewrap k m) = forget m.
Proof. by destruct m as [|[[??]?]]. Qed.

Lemma keeps_rewrap {X} (k : X -> node) (m : fault + (BehResult * X * (World * G))) x :
  keeps m x -> keeps (rewrap k m) (k x).
Proof.
  unfold keeps, rewrap. destruct m as [|[[r x'] s]]; [done|].
  intros Hk ??? [= _ <- _]. by rewrite (Hk _ _ _ eq_refl).
Qed.

Lemma rewrap_ok (K : list node -> node) (P : _ -> Prop) ns s
    (m : fault + (BehResult * list node * (World * G))) :
  (forall o, P o -> exec sample_fuel e (K ns) s o) -> P (forget m) /\ keeps m ns ->
  exec sample_fuel e (K ns) s (forget (rewrap K m)) /\ keeps (rewrap K m) (K ns).
Proof. intros HK [HP Hk]. rewrite forget_rewrap. split; [by apply HK|by apply keeps_rewrap]. Qed.

Lemma par_result_flags rs :
  par_result rs =
  (fun '((a, f) : bool * bool) => if negb f then BEH_RUNNING else if a then BEH_SUCCESS else BEH_FAIL)
    (foldl (fun '(a, f) r => (a && bool_decide (r ≠ BEH_FAIL),
                              f && bool_decide (r ≠ BEH_RUNNING))) (true, true) rs).
Proof. rewrite foldl_parallel_flags. unfold par_result. by repeat case_bool_decide. Qed.

Lemma or_result_foldl rs :
  or_result rs =
  (fun b : bool => if b then BEH_SUCCESS else BEH_FAIL)
    (foldl (fun b r => b || bool_decide (r = BEH_SUCCESS)) false rs).
Proof. by rewrite foldl_or_success. Qed.

Lemma bool_decide_stop (P : BehResult -> Prop) `{!forall r, Decision (P r)} r :
  bool_decide (P r) = true <-> P r.
Proof. apply bool_decide_eq_true. Qed.

(** Every run of the evaluator on such a tree is a run of the
    specification, and gives the tree back. *)
Lemma update_exec n s :
  usel_free n = true ->
  exec sample_fuel e n s (forget (update sample_fuel n e s)) /\
  keeps (update sample_fuel n e s) n.
Proof.
  revert s. induction n as [n IH] using node_ind_children. intros s Hf.
  assert (forall ns, Forall (fun c => forall s, usel_free c = true ->
            exec sample_fuel e c s (forget (update sample_fuel c e s)) /\
            keeps (update sample_fuel c e s) c) ns ->
          forallb usel_free ns = true ->
          Forall (child_ok (exec sample_fuel e) (fun c s => update sample_fuel c e s)) ns)
    as Hch.
  { intros ns H1 H2.
    assert (Forall (fun c => usel_free c = true) ns) as H3.
    { apply Forall_forall. intros x Hx.
      apply (proj1 (forallb_forall _ _) H2), list_elem_of_In, Hx. }
    eapply Forall_impl; [apply Forall_and; split; [exact H1|exact H3]|].
    intros c [Hc Hu] s'. by apply Hc. }
  destruct n; simpl in Hf, IH |- *; try discriminate.
  all: try (match goal with |- exec _ _ ?n ?s _ /\ _ =>
              split; [by apply (exec_leaf _ _ n s)|] end;
            unfold keeps, leaf, rleaf; intros ???; repeat case_match; by intros; simplify_eq).
  - eapply rewrap_ok; [intros o; apply exec_sequence|]. rewrite Sequence_update_scan.
    apply scan_short; [apply bool_decide_stop|done|by apply Hch].
  - eapply rewrap_ok; [intros o; apply exec_selector|]. rewrite Selector_update_scan.
    apply scan_short; [apply bool_decide_stop|done|by apply Hch].
  - eapply rewrap_ok; [intros o; apply exec_or|]. unfold OrNode_update. rewrite OrNode_loop_scan.
    apply scan_short; [apply bool_decide_stop|apply or_result_foldl|by apply Hch].
  - eapply rewrap_ok; [intros o; apply exec_parallel|]. unfold Parallel_update.
    rewrite Parallel_loop_scan. apply scan_short; [done|apply par_result_flags|by apply Hch].
  - rewrite forget_rewrap. inversion IH as [|? ? Hc]; subst. destruct (Hc s Hf) as [Hx Hk].
    split; [|apply keeps_rewrap]; unfold NotNode_update, keeps in *;
      destruct (update sample_fuel n e s) as [|[[r n'] s']]; simpl in *.
    + by apply (exec_not _ _ _ _ (inl f)).
    + by apply (exec_not _ _ _ _ (inr (r, s'))).
    + done.
    + intros ??? [= _ <- _]. by apply (Hk r n' s').
Qed.

(** C33: Refinement.  On a tree without a [UtilitySelector], the outcomes
    the specification allows are exactly the evaluator's: each composite
    ran a prefix of its children, none of which stopped it, then stopped
    at the first child whose result its contract (spec 4.2-4.6) says stops
    it, or that raised, or ran them all and combined their results as the
    contract says; and the tree comes back unchanged. *)
Theorem update_refines_exec n s :
  usel_free n = true ->
  (forall o, exec sample_fuel e n s o <-> o = forget (update sample_fuel n e s)) /\
  keeps (update sample_fuel n e s) n.
Proof.
  intros Hf. destruct (update_exec n s Hf) as [Hx Hk]. split; [|done].
  intros o. split; [intros Ho; by eapply exec_det|by intros ->].
Qed.

End Refinement.

(** The tree of a cautious wanderer: flee when low, else walk at random. *)
Definition wanderer : node :=
  Selector [Sequence [IsLowHp 30; Flee 0]; NotNode (Parallel [RandomWalk; IsLowHp 10])].

(** An entity with [Position] [(0, 0)], 50 hit points and an [Action], and a
    random source whose next integer is [3]. *)
Definition wanderer_state : World * (list Q * list Z) :=
  (mkWorld [(1, set_hp (Some 50%Q) (set_action (Some EA_NOP)
                  (set_pos (Some (mkPosition 0 0)) no_comps)))] 2, ([], [3%Z])).

Lemma update_refines_exec_witness :
  usel_free wanderer = true /\
  (forall o, exec 2 1 wanderer wanderer_state o <->
     o = forget (update 2 wanderer 1 wanderer_state)) /\
  keeps (update 2 wanderer 1 wanderer_state) wanderer /\
  exists s', forget (update 2 wanderer 1 wanderer_state) = inr (BEH_RUNNING, s').
Proof.
  destruct (update_refines_exec 2 1 wanderer wanderer_state eq_refl) as [Hx Hk].
  split_and!; [reflexivity|exact Hx|exact Hk|eexists; vm_compute; reflexivity].
Defined.
