(* ===== verification/Build.v ===== *)
(** Construction: the factories of src/w2/behLibrary.cpp (lines 428-509) and
    src/w3/behLibrary.cpp (lines 290-345) with the constructors they call,
    the behaviour builders and the entity constructors of
    src/w2/roguelike.cpp, and the world [init_roguelike] builds.

    A construction runs in [Build], a state-and-error computation over the
    process-wide name table and the world: node constructors register their
    blackboard names ([reg_entity_blackboard_var]) and some write the
    entity's blackboard.  The children of a composite are built first, left
    to right, as the elements of the braced list passed to the factory. *)

From Stdlib Require Import QArith ZArith Lia Init.Byte.
From stdpp Require Import base decidable list gmap strings.
From S2P Require Import Prelude Types Blackboard RandomUtil Composite Utility Node World Leaves Tree.

#[local] Open Scope bt_scope.
#[local] Open Scope string_scope.

Abbreviation Build A := (SE (NameTable * World) fault A).

(** [reg_entity_blackboard_var<T>(entity, name)] (blackboard.h). *)
Definition reg_entity_blackboard_var (ty : bbtype) (bb_name : string) : Build nat :=
  fun s => let (slot, tbl) := reg_name bb_name ty s.1 in inr (slot, (tbl, s.2)).

(** [entity.set(...)] on a live entity of the world. *)
Definition entity_modify (e : Entity) (f : Comps -> Comps) : Build unit :=
  fun s => if is_alive s.2 e then inr (tt, (s.1, modify_comps s.2 e f))
           else inl (InvalidEntity e).

(** ** Leaf factories *)

Definition move_to_entity (e : Entity) (bb_name : string) : Build node :=
  let* slot := reg_entity_blackboard_var TEntity bb_name in se_ret (MoveToEntity slot).

Definition find_enemy (e : Entity) (dist : Q) (bb_name : string) : Build node :=
  let* slot := reg_entity_blackboard_var TEntity bb_name in se_ret (FindEnemy slot dist).

Definition find_waypoint (e : Entity) (bb_name : string) : Build node :=
  let* slot := reg_entity_blackboard_var TEntity bb_name in se_ret (FindWaypoint slot).

Definition flee (e : Entity) (bb_name : string) : Build node :=
  let* slot := reg_entity_blackboard_var TEntity bb_name in se_ret (Flee slot).

(** [find_powerup] and [find_heal]: [FindClosestOf] over their query. *)
Definition find_closest_of (k : closest_kind) (e : Entity) (dist : Q)
    (bb_name : string) : Build node :=
  let* slot := reg_entity_blackboard_var TEntity bb_name in
  se_ret (FindClosestOf k slot dist).

Definition alert_hoard (e : Entity) (alert_dist : Q) (bb_name : string) : Build node :=
  let* slot := reg_entity_blackboard_var TEntity bb_name in
  se_ret (AlertHoard alert_dist slot).

(** [HoardListener::HoardListener] (w2 lines 370-376): the target and the
    flag are registered under the same name, then the flag is set to
    [false] in the entity's blackboard. *)
Definition hoard_listener (e : Entity) (bb_name : string) : Build node :=
  let* target_index := reg_entity_blackboard_var TEntity bb_name in
  let* flag_index := reg_entity_blackboard_var TBool bb_name in
  let* _ := entity_modify e (fun c =>
              set_bb (Some (bb_set flag_index (VBool false) (bb_of c))) c) in
  se_ret (HoardListener target_index flag_index).

(** [Patrol::Patrol] (w2 lines 341-350): the patrol centre is the entity's
    position at construction. *)
Definition patrol (e : Entity) (patrol_dist : Q) (bb_name : string) : Build node :=
  let* pposBb := reg_entity_blackboard_var TPosition bb_name in
  let* _ := entity_modify e (fun c =>
              let c := ensure_pos (ensure_bb c) in
              set_bb (Some (bb_set pposBb (VPosition (pos_or_origin c)) (bb_of c))) c) in
  se_ret (Patrol pposBb patrol_dist).

Definition is_low_hp (thres : Q) : Build node := se_ret (IsLowHp thres).
Definition patch_up (thres : Q) : Build node := se_ret (PatchUp thres).
Definition random_walk : Build node := se_ret RandomWalk.

(** ** Composite factories *)

Definition sequence (nodes : list (Build node)) : Build node :=
  let* ns := se_mapM nodes in se_ret (Sequence ns).
Definition selector (nodes : list (Build node)) : Build node :=
  let* ns := se_mapM nodes in se_ret (Selector ns).
Definition or_node (nodes : list (Build node)) : Build node :=
  let* ns := se_mapM nodes in se_ret (OrNode ns).
Definition parallel (nodes : list (Build node)) : Build node :=
  let* ns := se_mapM nodes in se_ret (Parallel ns).
Definition not_node (child : Build node) : Build node :=
  let* n := child in se_ret (NotNode n).

(** [utility_selector] (w3 lines 306-311): no previous choice, [stale = 0]. *)
Definition utility_selector (nodes : list (Build node * utility_function * string))
    : Build node :=
  let* ns := se_mapM (map (fun t => t.1.1) nodes) in
  se_ret (UtilitySelector
            (mkUSel (zip_with (fun n t => (n, t.1.2, t.2)) ns nodes) None 0%Q)).

(** ** The behaviour builders of roguelike.cpp (lines 9-81) *)

(** [e.set(Blackboard{})]: a fresh, empty blackboard. *)
Definition reset_bb (e : Entity) : Build unit := entity_modify e (set_bb (Some ∅)).

(** [e.set(BehaviourTree{root})]. *)
Definition set_behaviour_tree (e : Entity) (root : node) : Build unit :=
  entity_modify e (set_tree (Some root)).

Definition create_minotaur_beh (e : Entity) : Build unit :=
  let* _ := reset_bb e in
  let* root :=
    selector [
      sequence [is_low_hp 50; find_enemy e 4 "flee_enemy"; flee e "flee_enemy"];
      sequence [find_enemy e 3 "attack_enemy"; move_to_entity e "attack_enemy"];
      patrol e 2 "patrol_pos"] in
  set_behaviour_tree e root.

Definition create_gatherer_beh (e : Entity) : Build unit :=
  let* _ := reset_bb e in
  let* root :=
    selector [
      sequence [find_enemy e 2 "attack_enemy"; move_to_entity e "attack_enemy"];
      sequence [
        selector [find_closest_of QPowerup e 100 "gather_bonus";
                  find_closest_of QHeal e 100 "gather_bonus"];
        move_to_entity e "gather_bonus"];
      sequence [find_enemy e 200 "attack_enemy"; move_to_entity e "attack_enemy"]] in
  set_behaviour_tree e root.

Definition create_hoard_beh (e : Entity) : Build unit :=
  let* _ := reset_bb e in
  let* root :=
    selector [
      hoard_listener e "hoard provoker";
      move_to_entity e "hoard provoker";
      sequence [find_enemy e 2 "hoard provoker"; alert_hoard e 100 "hoard provoker"];
      patrol e 2 "patrol_pos"] in
  set_behaviour_tree e root.

Definition create_guard_beh (e : Entity) : Build unit :=
  let* _ := reset_bb e in
  let* root :=
    selector [
      sequence [
        selector [find_enemy e 3 "chosen entity"; find_waypoint e "chosen entity"];
        move_to_entity e "chosen entity"]] in
  set_behaviour_tree e root.

(** ** Entities (roguelike.cpp lines 83-172)

    The empty [StateMachine] of an NPC is the flag [l_sm]; textures are the
    file [LoadTexture] read. *)

Definition spawn (c : Comps) : Build Entity :=
  fun s => let (e, w) := new_entity c s.2 in inr (e, (s.1, w)).

(** The first entity of the world with the name [name]. *)
Definition find_named (name : string) (w : World) : option Entity :=
  fst <$> List.find (fun ec => bool_decide (l_name (c_look ec.2) = Some name)) (w_ents w).

(** [ecs.entity(name)]: the entity with that name, created if there is
    none. *)
Definition entity_named (name : string) : Build Entity :=
  fun s => match find_named name s.2 with
           | Some e => inr (e, s)
           | None => spawn (set_look (mkLook (Some name) None None None false) no_comps) s
           end.

Definition npc_comps (x y : Z) (col : Color) (tex : Entity) (team : Z) : Comps :=
  mkComps (Some (mkPosition x y)) (Some (mkPosition x y)) (Some 100%Q)
    (Some EA_NOP) (Some team) (Some (1, 0)%Z) (Some 20%Q) false false
    None None None None (Some ∅) None None
    (mkLook None (Some col) (Some tex) None true).

Definition create_npc (x y : Z) (col : Color) (texture_src : string) (team : Z)
    : Build Entity :=
  let* tex := entity_named texture_src in
  spawn (npc_comps x y col tex team).

Definition create_monster (x y : Z) (col : Color) (texture_src : string) : Build Entity :=
  create_npc x y col texture_src 1.
Definition create_ally (x y : Z) (col : Color) (texture_src : string) : Build Entity :=
  create_npc x y col texture_src 0.

Definition create_gatherer (x y : Z) (col : Color) (texture_src : string) : Build Entity :=
  let* e := create_ally x y col texture_src in
  let* _ := entity_modify e (set_can_pickup true) in
  se_ret e.

Definition yellow : Color := mkColor xff xff x00 xff.
Definition heal_red : Color := mkColor xff x44 x44 xff.
Definition white : Color := mkColor xff xff xff xff.

Definition create_powerup (x y : Z) (amount : Q) : Build unit :=
  let* _ := spawn (set_look (mkLook None (Some yellow) None None false)
                     (set_powerup (Some amount) (set_pos (Some (mkPosition x y)) no_comps))) in
  se_ret tt.

Definition create_heal (x y : Z) (amount : Q) : Build unit :=
  let* _ := spawn (set_look (mkLook None (Some heal_red) None None false)
                     (set_heal (Some amount) (set_pos (Some (mkPosition x y)) no_comps))) in
  se_ret tt.

(** The [.set] chain of [create_player] on the entity named "player". *)
Definition player_comps (x y : Z) (tex : Entity) (c : Comps) : Comps :=
  set_dmg (Some 50%Q)
    (set_look (mkLook (l_name (c_look c)) (Some white) (Some tex) (l_texture (c_look c))
                 (l_sm (c_look c)))
    (set_numactions (Some (2, 0)%Z)
    (set_input (Some (mkPlayerInput false false false false false))
    (set_team (Some 0%Z) (set_can_pickup true (set_is_player true
    (set_action (Some EA_NOP) (set_hp (Some 100%Q)
    (set_mpos (Some (mkPosition x y)) (set_pos (Some (mkPosition x y)) c)))))))))).

Definition create_player (x y : Z) (texture_src : string) : Build unit :=
  let* tex := entity_named texture_src in
  let* p := entity_named "player" in
  entity_modify p (player_comps x y tex).

(** The loop of [generate_waypoints] (lines 121-139), with [i], [first] and
    [last]. *)
Fixpoint gen_wp_loop (i : nat) (pts : list (Z * Z)) (first last : Entity)
    : Build (Entity * Entity) :=
  match pts with
  | [] => se_ret (first, last)
  | (x, y) :: pts' =>
      let* current := spawn (set_pos (Some (mkPosition x y)) no_comps) in
      let* first :=
        if Nat.eqb i 0 then se_ret current
        else let* _ := entity_modify last (set_next_wp (Some current)) in se_ret first in
      gen_wp_loop (S i) pts' first current
  end.

Definition generate_waypoints (pts : list (Z * Z)) (cycle : bool) : Build Entity :=
  let* fl := gen_wp_loop 0 pts null_entity null_entity in
  let* _ := if cycle then entity_modify fl.2 (set_next_wp (Some fl.1)) else se_ret tt in
  se_ret fl.1.

Definition create_guard (x y : Z) (col : Color) (texture_src : string)
    (pts : list (Z * Z)) : Build Entity :=
  let* e := create_ally x y col texture_src in
  let* wp := generate_waypoints pts true in
  let* _ := entity_modify e (set_cur_wp (Some wp)) in
  se_ret e.

(** [ecs.entity(name).set(Texture2D{LoadTexture(path)})]. *)
Definition load_texture (name path : string) : Build unit :=
  let* t := entity_named name in
  entity_modify t (fun c => set_look (mkLook (l_name (c_look c)) (l_color (c_look c))
                                     (l_texsrc (c_look c)) (Some path) (l_sm (c_look c))) c).

Definition magenta : Color := mkColor xee x00 xee xff.
Definition green : Color := mkColor x00 xff x00 xff.

(** [init_roguelike] (lines 219-261), without the systems (Input.v and
    Render.v model them) and the observer that unloads textures. *)
Definition init_roguelike : Build unit :=
  let* _ := load_texture "swordsman_tex" "w2/assets/swordsman.png" in
  let* _ := load_texture "minotaur_tex" "w2/assets/minotaur.png" in
  let* _ := load_texture "cow1_tex" "w2/assets/cow1.png" in
  let* _ := load_texture "cow2_tex" "w2/assets/cow2.png" in
  let* _ := load_texture "cow3_tex" "w2/assets/cow3.png" in
  let* m1 := create_monster 5 5 magenta "minotaur_tex" in let* _ := create_minotaur_beh m1 in
  let* m2 := create_monster (-5) 5 green "minotaur_tex" in let* _ := create_minotaur_beh m2 in
  let* g := create_gatherer (-3) 3 white "swordsman_tex" in let* _ := create_gatherer_beh g in
  let* gd := create_guard 3 3 green "swordsman_tex" [(0, 0); (3, 3)]%Z in
  let* _ := create_guard_beh gd in
  let* h1 := create_monster 10 0 green "cow1_tex" in let* _ := create_hoard_beh h1 in
  let* h2 := create_monster 12 2 green "cow2_tex" in let* _ := create_hoard_beh h2 in
  let* h3 := create_monster 10 4 green "cow3_tex" in let* _ := create_hoard_beh h3 in
  let* h4 := create_monster 12 6 green "cow1_tex" in let* _ := create_hoard_beh h4 in
  let* _ := create_player 0 0 "swordsman_tex" in
  let* _ := create_powerup 7 7 10 in
  let* _ := create_powerup 10 (-6) 10 in
  let* _ := create_powerup 10 (-4) 10 in
  let* _ := create_heal (-5) (-5) 50 in
  let* _ := create_heal (-5) 5 50 in
  se_ret tt.

Definition initial_state : NameTable * World := (empty_table, mkWorld [] 1).

(** ** Running the constructions *)

Lemma reg_var_inv ty name s slot s' :
  reg_entity_blackboard_var ty name s = inr (slot, s') ->
  reg_name name ty s.1 = (slot, s'.1) /\ s'.2 = s.2.
Proof.
  unfold reg_entity_blackboard_var. destruct (reg_name name ty s.1) eqn:H.
  by intros [= -> <-].
Qed.

Lemma entity_modify_inv e f s u s' :
  entity_modify e f s = inr (u, s') ->
  is_alive s.2 e = true /\ s' = (s.1, modify_comps s.2 e f).
Proof. unfold entity_modify. destruct (is_alive s.2 e); [by intros [= _ <-]|done]. Qed.

(** [peel] splits a successful construction into its steps. *)
Ltac peel H :=
  repeat match type of H with
  | se_bind _ _ _ = inr _ =>
      let a := fresh "a" in let s := fresh "s" in let H1 := fresh "H" in
      apply se_bind_inv in H as (a & s & H1 & H); peel H1
  | se_ret _ _ = inr _ => apply se_ret_inv in H as [? ?]; subst
  | reg_entity_blackboard_var _ _ _ = inr _ => apply reg_var_inv in H as [? ?]
  | entity_modify _ _ _ = inr _ => apply entity_modify_inv in H as [? ?]; subst
  | se_mapM (_ :: _) _ = inr _ => cbn [se_mapM] in H
  | se_mapM [] _ = inr _ => cbn [se_mapM] in H
  | _ _ _ = inr _ => progress (unfold move_to_entity, find_enemy, alert_hoard,
                                 hoard_listener, patrol, sequence, selector,
                                 set_behaviour_tree, reset_bb in H)
  end.

(** Registering a name a second time returns the slot of the first
    registration and leaves the table as it was. *)
Ltac same_slots :=
  repeat match goal with
  | H1 : reg_name ?n _ ?t = (?a, ?t'), H2 : reg_name ?n ?ty ?t' = (?b, ?u) |- _ =>
      rewrite (reg_name_idempotent _ _ ty _ _ _ H1) in H2;
      let Heq := fresh "Heq" in
      injection H2 as <- Heq; rewrite <- Heq in *; clear Heq
  end.

(** C10: [HoardListener]'s constructor registers the target and the flag
    under the same name ([bb_name]), so the two indices are one slot, the
    slot the name has in the table; the constructor then stores the flag
    [false] in it. *)
Theorem hoard_listener_aliases e name s n s' :
  hoard_listener e name s = inr (n, s') ->
  exists slot, n = HoardListener slot slot /\
    names s'.1 !! name = Some slot /\
    (get_comps s'.2 e ≫= c_bb) ≫= (.!! slot) = Some (VBool false).
Proof.
  intros H. peel H. destruct s as [tbl w]; simpl in *.
  match goal with
  | H1 : reg_name name TEntity tbl = _, H2 : reg_name name TBool _ = _ |- _ =>
      rewrite (reg_name_idempotent _ _ TBool _ _ _ H1) in H2;
      injection H2 as <- <-; pose proof (reg_name_lookup _ _ _ _ _ H1)
  end.
  eexists; split; [reflexivity|]. simpl. split; [done|].
  rewrite get_comps_modify_eq.
  match goal with Ha : is_alive _ e = true |- _ => apply is_alive_Some in Ha as [c ->] end.
  simpl. unfold bb_set. apply lookup_insert_eq.
Qed.

Lemma hoard_listener_aliases_witness :
  exists n s',
    hoard_listener 1 "hoard provoker" (empty_table, mkWorld [(1, no_comps)] 2) = inr (n, s') /\
    exists slot, n = HoardListener slot slot /\
      names s'.1 !! "hoard provoker" = Some slot /\
      (get_comps s'.2 1 ≫= c_bb) ≫= (.!! slot) = Some (VBool false).
Proof.
  do 2 eexists. split; [reflexivity|].
  eapply (hoard_listener_aliases 1 "hoard provoker" (empty_table, mkWorld [(1, no_comps)] 2)).
  reflexivity.
Defined.

(** The tree [create_hoard_beh] builds, with the slot [t] of
    "hoard provoker" and the slot [p] of "patrol_pos". *)
Definition hoard_root (t p : nat) : node :=
  Selector [HoardListener t t; MoveToEntity t;
            Sequence [FindEnemy t 2; AlertHoard 100 t]; Patrol p 2].

Lemma create_hoard_beh_state e s s' :
  wf_table s.1 -> create_hoard_beh e s = inr (tt, s') ->
  exists t p c, names s'.1 !! "hoard provoker" = Some t /\ t ≠ p /\
    get_comps s'.2 e = Some c /\ c_tree c = Some (hoard_root t p) /\
    bb_of c !! t = Some (VBool false).
Proof.
  intros Hwf H. unfold create_hoard_beh in H. peel H.
  destruct s as [tbl w]; simpl in *. same_slots.
  match goal with
  | H1 : reg_name "hoard provoker" TEntity tbl = (?t, ?tbl1),
    H2 : reg_name "patrol_pos" TPosition ?tbl1 = (?p, ?tbl2) |- _ =>
      pose proof (reg_name_distinct "hoard provoker" "patrol_pos" _ _ _ _ _ _ _ Hwf
                    ltac:(discriminate) H1 H2);
      pose proof (reg_name_wf "hoard provoker" TEntity tbl Hwf) as Hwf1;
      rewrite H1 in Hwf1;
      pose proof (reg_name_stable _ _ _ _ _ _ _ Hwf1 H2
                    (reg_name_lookup _ _ _ _ _ H1)) as [? _];
      exists t, p
  end.
  apply is_alive_Some in H0 as [c0 Hc0].
  repeat match goal with Hs : ?s.2 = _ |- _ => rewrite Hs; clear Hs end.
  rewrite !get_comps_modify_eq, Hc0. simpl. eexists; repeat split; try done.
  unfold bb_of, bb_set; simpl. rewrite lookup_insert_ne by done.
  apply lookup_insert_eq.
Qed.

(** The tree [create_hoard_beh] installs starts with the listener, whose
    target and flag are one slot. *)
Lemma create_hoard_beh_listener e s s' :
  wf_table s.1 -> create_hoard_beh e s = inr (tt, s') ->
  exists c t ns, get_comps s'.2 e = Some c /\
    c_tree c = Some (Selector (HoardListener t t :: ns)).
Proof.
  intros Hwf H. unfold create_hoard_beh in H. peel H.
  destruct s as [tbl w]; simpl in *. same_slots.
  apply is_alive_Some in H0 as [c0 Hc0].
  repeat match goal with Hs : ?s.2 = _ |- _ => rewrite Hs; clear Hs end.
  rewrite !get_comps_modify_eq, Hc0. simpl. eauto.
Qed.

Lemma hoard_tick_faults {G} `{!RandomSource G} fuel (w : World) (g : G) e c t p b :
  get_comps w e = Some c -> c_tree c = Some (hoard_root t p) ->
  bb_of c !! t = Some (VBool b) ->
  tick_one fuel (w, g) e = inl (BadAnyCast t).
Proof.
  intros Hc Ht Hb. unfold tick_one. cbn [fst snd]. rewrite Hc. simpl. rewrite Ht.
  unfold BehaviourTree_update. simpl.
  unfold MoveToEntity_update, entity_set. cbn [fst snd]. rewrite Hc. simpl.
  change (bb_of (ensure_pos (ensure_action c))) with (bb_of c).
  unfold bb_get_entity, bb_get. rewrite Hb. done.
Qed.

(** C11: A hoard member faults on its first tick.  After [create_hoard_beh]
    the slot of "hoard provoker" holds the [bool] the listener's constructor
    stored; the root selector's [HoardListener] fails and the next child,
    [MoveToEntity], reads that slot as an entity: [bb.get] fails
    ([std::bad_any_cast] under type-checked storage) unless an alert has
    overwritten the slot first. *)
Theorem hoard_member_first_tick_faults {G} `{!RandomSource G} fuel e s s' (g : G) :
  wf_table s.1 -> create_hoard_beh e s = inr (tt, s') ->
  exists t, names s'.1 !! "hoard provoker" = Some t /\
    tick_one fuel (s'.2, g) e = inl (BadAnyCast t).
Proof.
  intros Hwf H.
  destruct (create_hoard_beh_state e s s' Hwf H) as (t & p & c & Hn & _ & Hc & Ht & Hb).
  exists t. split; [done|]. eapply hoard_tick_faults; eauto.
Qed.

Lemma hoard_member_first_tick_faults_witness :
  exists s',
    create_hoard_beh 1 (empty_table, mkWorld [(1, npc_comps 10 0 green 2 1)] 2) = inr (tt, s') /\
    exists t, names s'.1 !! "hoard provoker" = Some t /\
      tick_one 2 (s'.2, (@nil Q, @nil Z)) 1 = inl (BadAnyCast t).
Proof.
  eexists. split; [reflexivity|].
  apply (hoard_member_first_tick_faults 2 1
           (empty_table, mkWorld [(1, npc_comps 10 0 green 2 1)] 2)).
  - apply empty_table_wf.
  - reflexivity.
Defined.

(** The game of [init_roguelike]: the first pass of the trees (the player's
    first action with [NumActions{2, 0}] does not reach it; the second one
    does) stops at the first hoard member, with the slot of
    "hoard provoker" ([5]) holding the flag. *)
Lemma init_roguelike_first_pass_faults :
  match init_roguelike initial_state with
  | inr (_, (tbl, w)) =>
      names tbl !! "hoard provoker" = Some 5 /\
      tick_trees 2 (w, (@nil Q, @nil Z)) = inl (BadAnyCast 5)
  | inl _ => False
  end.
Proof. vm_compute. split; reflexivity. Qed.

(** C26: [generate_waypoints] (roguelike.cpp lines 121-139) of an empty
    container with [cycle] sets [NextWaypoint] on the default entity
    [last{}], which is not alive in a well-formed world: the call faults. *)
Theorem generate_waypoints_empty_cycle s :
  wf_world s.2 -> generate_waypoints [] true s = inl (InvalidEntity null_entity).
Proof.
  destruct s as [tbl w]. intros Hwf. unfold generate_waypoints, entity_modify.
  simpl. unfold se_bind, se_ret. simpl. by rewrite null_not_alive.
Qed.

Lemma generate_waypoints_empty_cycle_witness :
  wf_world initial_state.2 /\
  generate_waypoints [] true initial_state = inl (InvalidEntity null_entity).
Proof.
  assert (wf_world initial_state.2) as Hwf by (apply wf_worldb_sound; reflexivity).
  split; [exact Hwf|]. apply (generate_waypoints_empty_cycle initial_state Hwf).
Defined.

Lemma reg_name_keeps name ty tbl slot tbl' :
  wf_table tbl -> reg_name name ty tbl = (slot, tbl') ->
  names tbl' !! name = Some slot /\ wf_table tbl' /\
  (forall n j, names tbl !! n = Some j -> names tbl' !! n = Some j).
Proof.
  intros Hwf H. split_and!.
  - by eapply reg_name_lookup.
  - pose proof (reg_name_wf name ty tbl Hwf) as W. by rewrite H in W.
  - intros n j Hn. by destruct (reg_name_stable _ _ _ _ _ _ _ Hwf H Hn).
Qed.

(** The tree [create_minotaur_beh] builds, with the slots of "flee_enemy",
    "attack_enemy" and "patrol_pos". *)
Definition minotaur_root (fl atk pp : nat) : node :=
  Selector [Sequence [IsLowHp 50; FindEnemy fl 4; Flee fl];
            Sequence [FindEnemy atk 3; MoveToEntity atk];
            Patrol pp 2].

(** C24: [create_minotaur_beh] (roguelike.cpp lines 9-26) installs the
    tree flee-when-low / attack / patrol on the entity, wired through three
    distinct blackboard slots registered under "flee_enemy", "attack_enemy"
    and "patrol_pos": each [FindEnemy] writes the slot its sibling
    [Flee] or [MoveToEntity] reads, and the branches share no slot (unlike
    the hoard behaviour, [hoard_listener_aliases]). *)
Theorem create_minotaur_beh_wiring e s s' :
  wf_table s.1 -> create_minotaur_beh e s = inr (tt, s') ->
  exists fl atk pp c, get_comps s'.2 e = Some c /\
    c_tree c = Some (minotaur_root fl atk pp) /\
    names s'.1 !! "flee_enemy" = Some fl /\ names s'.1 !! "attack_enemy" = Some atk /\
    names s'.1 !! "patrol_pos" = Some pp /\ NoDup [fl; atk; pp].
Proof.
  intros Hwf H. unfold create_minotaur_beh, flee, is_low_hp in H. peel H.
  destruct s as [tbl w]; simpl in *. same_slots.
  match goal with
  | H1 : reg_name "flee_enemy" TEntity tbl = (?fl, ?t1),
    H2 : reg_name "attack_enemy" TEntity ?t1 = (?atk, ?t2),
    H3 : reg_name "patrol_pos" TPosition ?t2 = (?pp, ?t3) |- _ =>
      destruct (reg_name_keeps _ _ _ _ _ Hwf H1) as (L1 & W1 & K1);
      destruct (reg_name_keeps _ _ _ _ _ W1 H2) as (L2 & W2 & K2);
      destruct (reg_name_keeps _ _ _ _ _ W2 H3) as (L3 & W3 & K3);
      exists fl, atk, pp
  end.
  apply is_alive_Some in H0 as [c0 Hc0].
  repeat match goal with Hs : ?s.2 = _ |- _ => rewrite Hs; clear Hs end.
  rewrite !get_comps_modify_eq, Hc0. eexists; split; [reflexivity|].
  split; [done|]. split_and!; [auto..|].
  pose proof (K3 _ _ (K2 _ _ L1)) as F1; pose proof (K3 _ _ L2) as F2.
  assert (a6 <> a7) by (intros ->; pose proof (wf_inj _ W3 _ _ _ F1 F2); done).
  assert (a6 <> a5) by (intros ->; pose proof (wf_inj _ W3 _ _ _ F1 L3); done).
  assert (a7 <> a5) by (intros ->; pose proof (wf_inj _ W3 _ _ _ F2 L3); done).
  repeat constructor; set_solver.
Qed.

Lemma create_minotaur_beh_wiring_witness :
  exists s',
    create_minotaur_beh 1 (empty_table, mkWorld [(1, npc_comps 10 0 green 2 1)] 2) = inr (tt, s') /\
    exists fl atk pp c, get_comps s'.2 1 = Some c /\
      c_tree c = Some (minotaur_root fl atk pp) /\
      names s'.1 !! "flee_enemy" = Some fl /\ names s'.1 !! "attack_enemy" = Some atk /\
      names s'.1 !! "patrol_pos" = Some pp /\ NoDup [fl; atk; pp].
Proof.
  eexists. split; [reflexivity|].
  apply (create_minotaur_beh_wiring 1 (empty_table, mkWorld [(1, npc_comps 10 0 green 2 1)] 2)).
  - apply empty_table_wf.
  - reflexivity.
Defined.
