(* ===== verification/Turn.v ===== *)
(** The turn loop of src/w2/roguelike.cpp: [is_player_acted] (lines
    263-272), [upd_player_actions_count] (274-284), [move_pos] (286-297),
    [process_actions] (299-367) and [process_turn] (369-392).

    [ecs.defer] blocks: component writes through the references an [each]
    loop hands out take effect at once; [entity.destruct()] inside a
    deferred block takes effect when the block ends, so the entity is still
    visited by the queries of the same block. *)

From Stdlib Require Import QArith ZArith Lia.
From stdpp Require Import base decidable list gmap strings.
From S2P Require Import Prelude Types Blackboard RandomUtil Node World Leaves Tree.

(** ** The player's turn counters *)

(** [is_player_acted]: the action of the last player the query visits. *)
Definition is_player_acted (w : World) : bool :=
  foldl (fun acted ec =>
           if c_is_player ec.2
           then match c_action ec.2 with
                | Some a => negb (Z.eqb a EA_NOP)
                | None => acted
                end
           else acted) false (w_ents w).

(** [na.curActions = (na.curActions + 1) % na.numActions]: C++ [%]
    truncates, as [Z.rem]. *)
Definition next_cur_actions (na : Z * Z) : Z * Z :=
  (na.1, Z.rem (na.2 + 1) na.1).

(** [upd_player_actions_count]: [actionsReached |= na.curActions == 0]. *)
Definition upd_player_actions_count (w : World) : bool * World :=
  let step (acc : bool * list (Entity * Comps)) (ec : Entity * Comps) :=
    match c_is_player ec.2, c_numactions ec.2 with
    | true, Some na =>
        let na' := next_cur_actions na in
        (acc.1 || Z.eqb na'.2 0, acc.2 ++ [(ec.1, set_numactions (Some na') ec.2)])
    | _, _ => (acc.1, acc.2 ++ [ec])
    end in
  let r := foldl step (false, []) (w_ents w) in
  (r.1, mkWorld r.2 (w_next w)).

(** ** Moves and attacks *)

Definition move_pos (pos : Position) (action : Z) : Position :=
  if Z.eqb action EA_MOVE_LEFT then mkPosition (px pos - 1) (py pos)
  else if Z.eqb action EA_MOVE_RIGHT then mkPosition (px pos + 1) (py pos)
  else if Z.eqb action EA_MOVE_UP then mkPosition (px pos) (py pos - 1)
  else if Z.eqb action EA_MOVE_DOWN then mkPosition (px pos) (py pos + 1)
  else pos.

(** One visit of [checkAttacks.each] (lines 310-318): an entity other than
    the mover whose [MovePos] is the target cell blocks the move, and takes
    the mover's damage if it is on another team. *)
Definition check_attack (me : Entity) (nextPos : Position) (dmg : Q) (team : Z)
    (ec : Entity * Comps) : bool * (Entity * Comps) :=
  match c_mpos ec.2, c_hp ec.2, c_team ec.2 with
  | Some epos, Some hp, Some enemy_team =>
      if negb (Nat.eqb me ec.1) && bool_decide (epos = nextPos)
      then (true, if Z.eqb team enemy_team then ec
                  else (ec.1, set_hp (Some (hp - dmg)%Q) ec.2))
      else (false, ec)
  | _, _, _ => (false, ec)
  end.

Definition check_attacks (me : Entity) (nextPos : Position) (dmg : Q) (team : Z)
    (l : list (Entity * Comps)) : bool * list (Entity * Comps) :=
  let rs := map (check_attack me nextPos dmg team) l in
  (existsb fst rs, map snd rs).

(** The entities of [processActions]: [Action, Position, MovePos,
    MeleeDamage, Team]. *)
Definition acts (c : Comps) : bool :=
  bool_decide (is_Some (c_action c) /\ is_Some (c_pos c) /\ is_Some (c_mpos c)
               /\ is_Some (c_dmg c) /\ is_Some (c_team c)).

Definition action_entities (w : World) : list Entity :=
  map fst (filter (fun ec => acts ec.2 = true) (w_ents w)).

(** The body of the first [processActions.each] (lines 306-323). *)
Definition plan_move (w : World) (me : Entity) : World :=
  match get_comps w me with
  | Some c =>
      match c_action c, c_pos c, c_dmg c, c_team c with
      | Some a, Some pos, Some dmg, Some team =>
          let nextPos := move_pos pos a in
          let (blocked, ents) := check_attacks me nextPos dmg team (w_ents w) in
          let w := mkWorld ents (w_next w) in
          if blocked then set_action_of w me EA_NOP
          else modify_comps w me (set_mpos (Some nextPos))
      | _, _, _, _ => w
      end
  | None => w
  end.

(** The second [processActions.each] (lines 325-329). *)
Definition commit_move (c : Comps) : Comps :=
  if acts c then set_action (Some EA_NOP) (set_pos (c_mpos c) c) else c.

(** [deleteAllDead] (lines 332-340): [hp <= 0] destroys the entity. *)
Definition alive_after (c : Comps) : bool :=
  match c_hp c with
  | Some hp => negb (Qle_bool hp 0)
  | None => true
  end.

(** The pickups of one [pickuppers] entity (lines 347-365): every heal and
    powerup on its cell, each added to its hit points or damage; the
    picked entities are destroyed when the block ends. *)
Definition on_cell (pos : Position) (get : Comps -> option Q)
    (l : list (Entity * Comps)) : list (Entity * Q) :=
  omap (fun ec => match c_pos ec.2, get ec.2 with
                  | Some ppos, Some amt => if bool_decide (pos = ppos)
                                           then Some (ec.1, amt) else None
                  | _, _ => None
                  end) l.

Definition sum_amounts (base : Q) (l : list (Entity * Q)) : Q :=
  foldl (fun acc ea => (acc + ea.2)%Q) base l.

Definition pickup_one (s : World * list Entity) (p : Entity) : World * list Entity :=
  let (w, destroyed) := s in
  match get_comps w p with
  | Some c =>
      match c_can_pickup c, c_pos c, c_hp c, c_dmg c with
      | true, Some pos, Some hp, Some dmg =>
          let heals := on_cell pos c_heal (w_ents w) in
          let w := modify_comps w p (set_hp (Some (sum_amounts hp heals))) in
          let pows := on_cell pos c_powerup (w_ents w) in
          let w := modify_comps w p (set_dmg (Some (sum_amounts dmg pows))) in
          (w, destroyed ++ map fst heals ++ map fst pows)
      | _, _, _, _ => (w, destroyed)
      end
  | None => (w, destroyed)
  end.

Definition destroy (es : list Entity) (w : World) : World :=
  mkWorld (filter (fun ec => ec.1 ∉ es) (w_ents w)) (w_next w).

Definition process_actions (w : World) : World :=
  let w := foldl plan_move w (action_entities w) in
  let w := mkWorld (map (fun ec => (ec.1, commit_move ec.2)) (w_ents w)) (w_next w) in
  let w := mkWorld (filter (fun ec => alive_after ec.2) (w_ents w)) (w_next w) in
  let pickuppers := map fst (w_ents w) in
  let (w, destroyed) := foldl pickup_one (w, []) pickuppers in
  destroy destroyed w.

(** ** The turn *)

Section Turn.
Context {G : Type} `{!RandomSource G}.
Variable sample_fuel : nat.

(** [process_turn]: the state machines are empty in w2 and not modelled. *)
Definition process_turn (s : World * G) : fault + (World * G) :=
  if is_player_acted s.1 then
    let (reached, w) := upd_player_actions_count s.1 in
    match (if reached then tick_trees sample_fuel (w, s.2) else inr (w, s.2)) with
    | inl f => inl f
    | inr (w, g) => inr (process_actions w, g)
    end
  else inr s.

End Turn.

(** ** Movement towards and away from a target *)

Lemma position_neq x y tx ty :
  mkPosition x y <> mkPosition tx ty -> x <> tx \/ y <> ty.
Proof.
  intros Hne. destruct (decide (x = tx)); [|auto]. subst.
  right. intros ->. done.
Qed.

Ltac move_cases :=
  unfold move_towards, inverse_move, dist2;
  repeat match goal with
         | |- context [Z.ltb ?a ?b] => destruct (Z.ltb_spec a b)
         end;
  cbn in *.

(** C19: [MoveToEntity] makes progress: the step [move_towards(pos, target)]
    that it plans, once [process_actions] applies it with [move_pos],
    brings the entity strictly closer to a target at another cell. *)
Theorem move_towards_closer p t :
  p <> t -> (dist2 (move_pos p (move_towards p t)) t < dist2 p t)%Z.
Proof.
  destruct p as [x y], t as [tx ty]. intros Hne%position_neq.
  move_cases; nia.
Qed.

Lemma move_towards_closer_witness :
  mkPosition 0 0 <> mkPosition 2 1 /\
  (dist2 (move_pos (mkPosition 0 0) (move_towards (mkPosition 0 0) (mkPosition 2 1)))
     (mkPosition 2 1) < dist2 (mkPosition 0 0) (mkPosition 2 1))%Z.
Proof. split; [done|]. apply move_towards_closer. done. Defined.

(** C20: [Flee] makes progress: the step [inverse_move(move_towards(pos,
    target))] takes the entity strictly farther from the target. *)
Theorem inverse_move_farther p t :
  p <> t ->
  (dist2 p t < dist2 (move_pos p (inverse_move (move_towards p t))) t)%Z.
Proof.
  destruct p as [x y], t as [tx ty]. intros Hne%position_neq.
  move_cases; nia.
Qed.

Lemma inverse_move_farther_witness :
  mkPosition 0 0 <> mkPosition 2 1 /\
  (dist2 (mkPosition 0 0) (mkPosition 2 1) <
   dist2 (move_pos (mkPosition 0 0) (inverse_move (move_towards (mkPosition 0 0)
     (mkPosition 2 1)))) (mkPosition 2 1))%Z.
Proof. split; [done|]. apply inverse_move_farther. done. Defined.

(** ** The action counter *)

(** The entities [updPlayerActions] visits ([IsPlayer] and [NumActions]). *)
Definition counts_actions (c : Comps) : bool :=
  c_is_player c && bool_decide (is_Some (c_numactions c)).

Definition upd_flag (ec : Entity * Comps) : bool :=
  match c_is_player ec.2, c_numactions ec.2 with
  | true, Some na => Z.eqb (next_cur_actions na).2 0 | _, _ => false end.

Definition upd_entry (ec : Entity * Comps) : Entity * Comps :=
  match c_is_player ec.2, c_numactions ec.2 with
  | true, Some na => (ec.1, set_numactions (Some (next_cur_actions na)) ec.2)
  | _, _ => ec end.

(** One call of [upd_player_actions_count], entity by entity: the query's
    entities advance their counter, and the flag is set iff one of them
    wraps to 0. *)
Lemma upd_player_actions_count_eq w :
  upd_player_actions_count w =
    (existsb upd_flag (w_ents w), mkWorld (map upd_entry (w_ents w)) (w_next w)).
Proof.
  unfold upd_player_actions_count.
  assert (forall l b acc, foldl (fun acc ec =>
     match c_is_player ec.2, c_numactions ec.2 with
     | true, Some na => let na' := next_cur_actions na in
         (acc.1 || Z.eqb na'.2 0, acc.2 ++ [(ec.1, set_numactions (Some na') ec.2)])
     | _, _ => (acc.1, acc.2 ++ [ec]) end) (b, acc) l =
     (b || existsb upd_flag l, acc ++ map upd_entry l)) as H.
  { induction l as [|[e c] l IH]; intros b acc; simpl; [by rewrite orb_false_r, app_nil_r|].
    unfold upd_flag, upd_entry. simpl.
    destruct (c_is_player c), (c_numactions c); rewrite IH; simpl;
      by rewrite ?orb_assoc, ?orb_false_r, <-?app_assoc. }
  by rewrite H.
Qed.

Lemma next_cur_actions_mod n (k : nat) :
  (0 < n)%Z -> next_cur_actions (n, Z.of_nat k mod n)%Z = (n, Z.of_nat (S k) mod n)%Z.
Proof.
  intros Hn. unfold next_cur_actions. cbn [fst snd]. f_equal.
  rewrite Z.rem_mod_nonneg by (pose proof (Z.mod_pos_bound (Z.of_nat k) n); lia).
  rewrite Nat2Z.inj_succ, <- Z.add_1_r, Zplus_mod_idemp_l. reflexivity.
Qed.

(** C21: [upd_player_actions_count] cycles the player's counter.  In a
    world whose entities with [IsPlayer] and [NumActions] all hold
    [NumActions{n, 0}] ([n > 0]), after [k] calls every such entity holds
    [NumActions{n, k mod n}] and every other entity is unchanged, and the
    next call reports [actionsReached] iff there is such an entity and
    [k + 1] is a multiple of [n]: the trees run every [n]-th acting turn. *)
Theorem upd_player_actions_count_cycle w n k :
  (0 < n)%Z ->
  (forall ec na, ec ∈ w_ents w -> c_is_player ec.2 = true ->
     c_numactions ec.2 = Some na -> na = (n, 0%Z)) ->
  Nat.iter k (fun w => (upd_player_actions_count w).2) w =
    mkWorld (map (fun ec => if counts_actions ec.2
                  then (ec.1, set_numactions (Some (n, Z.of_nat k mod n)%Z) ec.2)
                  else ec) (w_ents w)) (w_next w) /\
  (upd_player_actions_count (Nat.iter k (fun w => (upd_player_actions_count w).2) w)).1 =
    existsb (fun ec => counts_actions ec.2) (w_ents w) && Z.eqb (Z.of_nat (S k) mod n)%Z 0.
Proof.
  intros Hn Hw.
  assert (Hk : Nat.iter k (fun w => (upd_player_actions_count w).2) w =
    mkWorld (map (fun ec => if counts_actions ec.2
                  then (ec.1, set_numactions (Some (n, Z.of_nat k mod n)%Z) ec.2)
                  else ec) (w_ents w)) (w_next w)).
  { induction k as [|k IH]; [simpl|rewrite Nat.iter_succ].
    - destruct w as [ents nx]; simpl in *. f_equal. rewrite <-(map_id ents) at 1.
      apply map_ext_in. intros [e c] Hin%list_elem_of_In. unfold counts_actions; simpl.
      destruct (c_is_player c) eqn:Hp, (c_numactions c) as [na|] eqn:Hna; try done.
      pose proof (Hw (e, c) na Hin Hp Hna) as ->. rewrite bool_decide_true by done.
      destruct c; simpl in *; by subst.
    - rewrite IH, upd_player_actions_count_eq. simpl. f_equal.
      rewrite map_map. apply map_ext. intros [e c]. unfold counts_actions, upd_entry; simpl.
      destruct (c_is_player c) eqn:Hp, (c_numactions c) eqn:Hna; simpl;
        rewrite ?Hp, ?Hna; try done.
      by rewrite next_cur_actions_mod. }
  split; [done|]. rewrite Hk, upd_player_actions_count_eq. simpl. clear Hk Hw.
  induction (w_ents w) as [|[e c] l IH]; [done|]. simpl.
  rewrite IH. unfold counts_actions, upd_flag, set_numactions. simpl.
  destruct (c_is_player c) eqn:Hp, (c_numactions c) eqn:Hna; simpl;
    rewrite ?Hp, ?Hna; [|done..].
  pose proof (next_cur_actions_mod n k Hn) as Hm. injection Hm as Hm. rewrite Hm.
  by destruct (Z.eqb _ 0), (existsb _ l).
Qed.

(** The player's [NumActions{2, 0}] beside a monster's [NumActions{1, 0}]
    that the query skips. *)
Definition counter_world : World :=
  mkWorld [(1, set_is_player true (set_numactions (Some (2, 0)%Z) no_comps));
           (2, set_numactions (Some (1, 0)%Z) no_comps)] 3.

Lemma upd_player_actions_count_cycle_witness :
  (0 < 2)%Z /\
  Nat.iter 3 (fun w => (upd_player_actions_count w).2) counter_world =
    mkWorld [(1, set_is_player true (set_numactions (Some (2, 1)%Z) no_comps));
             (2, set_numactions (Some (1, 0)%Z) no_comps)] 3 /\
  (upd_player_actions_count
     (Nat.iter 3 (fun w => (upd_player_actions_count w).2) counter_world)).1 = true.
Proof.
  split; [lia|].
  destruct (upd_player_actions_count_cycle counter_world 2 3) as [H1 H2]; [lia| |].
  - intros ec na Hin Hp Hna. apply list_elem_of_In in Hin.
    vm_compute in Hin. repeat destruct Hin as [<-|Hin]; simpl in *; first [done|congruence].
  - split; [rewrite H1; reflexivity|rewrite H2; reflexivity].
Defined.

(** ** Combatants never share a cell *)

(** The cell [checkAttacks] sees for an entity: its [MovePos], when it also
    has [Hitpoints] and a [Team]. *)
Definition cell (c : Comps) : option Position :=
  match c_mpos c, c_hp c, c_team c with
  | Some m, Some _, Some _ => Some m
  | _, _, _ => None
  end.

Definition distinct_cells (w : World) : Prop :=
  forall e1 c1 e2 c2, (e1, c1) ∈ w_ents w -> (e2, c2) ∈ w_ents w ->
    is_Some (cell c1) -> cell c1 = cell c2 -> e1 = e2.

Lemma check_attack_spec me np dmg team ec :
  (check_attack me np dmg team ec).2.1 = ec.1 /\
  cell (check_attack me np dmg team ec).2.2 = cell ec.2 /\
  ((check_attack me np dmg team ec).1 = false -> cell ec.2 = Some np -> ec.1 = me).
Proof.
  destruct ec as [e c]. unfold check_attack, cell. simpl.
  destruct (c_mpos c) as [m|] eqn:Hm, (c_hp c) as [hp|] eqn:Hh,
    (c_team c) as [t|] eqn:Ht; simpl; rewrite ?Hm, ?Hh, ?Ht;
    try (split_and!; done).
  destruct (Nat.eqb_spec me e) as [->|Hne]; simpl.
  - rewrite Hm, Hh, Ht. split_and!; done.
  - case_bool_decide as Hx; simpl.
    + case_match; simpl; rewrite ?Hm, ?Hh, ?Ht; split_and!; done.
    + rewrite Hm, Hh, Ht. split_and!; [done|done|]. intros _ [= ->]. done.
Qed.

Lemma check_attacks_elem me np dmg team l e' c' :
  (e', c') ∈ (check_attacks me np dmg team l).2 ->
  exists c0, (e', c0) ∈ l /\ cell c' = cell c0 /\
    ((check_attacks me np dmg team l).1 = false -> cell c0 = Some np -> e' = me).
Proof.
  unfold check_attacks. cbn [fst snd]. rewrite map_map.
  intros (ec & Hx & Hin)%list_elem_of_In%in_map_iff.
  destruct (check_attack_spec me np dmg team ec) as (Hid & Hcell & Hblk).
  destruct ec as [e c]. rewrite Hx in Hid, Hcell. simpl in *. subst e.
  exists c. split; [by apply list_elem_of_In|]. split; [done|].
  intros Hnone. apply Hblk.
  destruct (check_attack me np dmg team (e', c)).1 eqn:Hb; [|done].
  exfalso. assert (existsb fst (map (check_attack me np dmg team) l) = true) as Ht;
    [|by rewrite Ht in Hnone].
  apply existsb_exists. exists (check_attack me np dmg team (e', c)).
  split; [by apply in_map|done].
Qed.

Lemma cell_set_mpos np c :
  is_Some (cell (set_mpos (Some np) c)) -> cell (set_mpos (Some np) c) = Some np.
Proof. unfold cell. simpl. destruct (c_hp c), (c_team c); by intros []. Qed.

Lemma distinct_cells_of ents n w :
  distinct_cells w ->
  (forall e' c', (e', c') ∈ ents -> exists c0, (e', c0) ∈ w_ents w /\ cell c' = cell c0) ->
  distinct_cells (mkWorld ents n).
Proof.
  intros Hd Hents e1 c1 e2 c2 H1 H2 Hs Heq. simpl in *.
  destruct (Hents _ _ H1) as (c1' & H1' & E1), (Hents _ _ H2) as (c2' & H2' & E2).
  eapply Hd; [exact H1'|exact H2'|by rewrite <- E1|congruence].
Qed.

Lemma distinct_cells_modify_same w e f :
  (forall c, cell (f c) = cell c) -> distinct_cells w -> distinct_cells (modify_comps w e f).
Proof.
  intros Hf Hd. unfold modify_comps. apply (distinct_cells_of _ _ w); [done|].
  intros e' c' [(-> & c & Hin & ->)|Hin]%elem_of_amodify_inv; eauto.
Qed.

Lemma distinct_cells_move w me np :
  distinct_cells w ->
  (forall e' c', (e', c') ∈ w_ents w -> cell c' = Some np -> e' = me) ->
  distinct_cells (modify_comps w me (set_mpos (Some np))).
Proof.
  intros Hd Hfree e1 c1 e2 c2 H1 H2 Hs Heq. simpl in *.
  apply elem_of_amodify_inv in H1 as [(-> & c1' & H1 & ->)|H1];
    apply elem_of_amodify_inv in H2 as [(-> & c2' & H2 & ->)|H2]; [done|..].
  - rewrite cell_set_mpos in Heq by done. symmetry. by apply (Hfree _ c2).
  - assert (cell c1 = Some np) as Hc1.
    { rewrite Heq. apply cell_set_mpos. by rewrite <- Heq. }
    by apply (Hfree _ c1).
  - eauto.
Qed.

(** One visit of the first [processActions.each]. *)
Lemma plan_move_distinct_cells w me :
  distinct_cells w -> distinct_cells (plan_move w me).
Proof.
  intros Hd. unfold plan_move.
  destruct (get_comps w me) as [c|]; [|done].
  destruct (c_action c) as [a|], (c_pos c) as [pos|], (c_dmg c) as [dmg|],
    (c_team c) as [team|]; try done.
  pose proof (check_attacks_elem me (move_pos pos a) dmg team (w_ents w)) as HA.
  destruct (check_attacks me (move_pos pos a) dmg team (w_ents w)) as [blocked ents].
  simpl in HA. assert (distinct_cells (mkWorld ents (w_next w))) as Hd'.
  { apply (distinct_cells_of _ _ w); [done|]. intros e' c' (c0 & ? & ? & _)%HA. eauto. }
  destruct blocked.
  - apply distinct_cells_modify_same; [done|exact Hd'].
  - apply distinct_cells_move; [exact Hd'|]. simpl.
    intros e' c' Hin Hc. destruct (HA _ _ Hin) as (c0 & _ & E & Hfree).
    apply Hfree; [done|congruence].
Qed.

(** C15: Moves never stack combatants.  The first [processActions.each]
    loop of [process_actions] keeps the entities that [checkAttacks] sees
    (those with a [MovePos], [Hitpoints] and a [Team]) on pairwise distinct
    [MovePos] cells: a move onto an occupied cell is blocked, and an attack
    changes only hit points. *)
Theorem plan_moves_distinct_cells w :
  distinct_cells w -> distinct_cells (foldl plan_move w (action_entities w)).
Proof.
  generalize (action_entities w). intros es. revert w.
  induction es as [|me es IH]; intros w Hd; [done|]. simpl.
  apply IH, plan_move_distinct_cells, Hd.
Qed.

(** A decision procedure for [distinct_cells]. *)
Definition distinct_cellsb (w : World) : bool :=
  forallb (fun x => forallb (fun y =>
     negb (bool_decide (is_Some (cell x.2)) && bool_decide (cell x.2 = cell y.2))
     || Nat.eqb x.1 y.1) (w_ents w)) (w_ents w).

Lemma distinct_cellsb_sound w : distinct_cellsb w = true -> distinct_cells w.
Proof.
  unfold distinct_cellsb. rewrite forallb_forall. intros H e1 c1 e2 c2 H1 H2 Hs Heq.
  apply list_elem_of_In in H1, H2. specialize (H _ H1).
  rewrite forallb_forall in H. specialize (H _ H2). simpl in H.
  rewrite bool_decide_true, bool_decide_true in H by done.
  by apply Nat.eqb_eq.
Qed.

(** Two fighters of opposite teams side by side, the first stepping onto
    the second. *)
Definition fighter (x y a team : Z) : Comps :=
  mkComps (Some (mkPosition x y)) (Some (mkPosition x y)) (Some 100%Q) (Some a)
    (Some team) None (Some 20%Q) false false None None None None None None None
    no_look.

Definition duel_world : World :=
  mkWorld [(1, fighter 0 0 EA_MOVE_RIGHT 0); (2, fighter 1 0 EA_NOP 1)] 3.

Lemma plan_moves_distinct_cells_witness :
  distinct_cells duel_world /\
  distinct_cells (foldl plan_move duel_world (action_entities duel_world)).
Proof.
  assert (Hd : distinct_cells duel_world)
    by (apply distinct_cellsb_sound; reflexivity).
  split; [exact Hd|]. apply plan_moves_distinct_cells. exact Hd.
Defined.

(** ** Attacks *)

Lemma check_attack_blocks me np dmg team ec :
  (check_attack me np dmg team ec).1 = true <-> ec.1 ≠ me /\ cell ec.2 = Some np.
Proof.
  destruct ec as [e c]. unfold check_attack, cell. simpl.
  destruct (c_mpos c), (c_hp c), (c_team c); simpl; try (split; [done|by intros [_ ?]]).
  destruct (Nat.eqb_spec me e) as [->|Hne]; simpl.
  - split; [done|]. by intros [? _].
  - case_bool_decide as Hpn; simpl.
    + split; [intros _; split; [done|congruence]|done].
    + split; [done|]. intros [_ [= ?]]. done.
Qed.

Lemma alookup_check_attacks me np dmg team l e' :
  alookup e' (check_attacks me np dmg team l).2 =
  (fun c' => (check_attack me np dmg team (e', c')).2.2) <$> alookup e' l.
Proof.
  unfold check_attacks. simpl. rewrite map_map.
  induction l as [|[e c] l IH]; [done|]. simpl.
  destruct (check_attack_spec me np dmg team (e, c)) as [Hid _].
  destruct (check_attack me np dmg team (e, c)) as [b [e0 c0]] eqn:Hca.
  simpl in *. subst e0. destruct (decide (e' = e)) as [->|Hne]; simpl; [by rewrite Hca|apply IH].
Qed.

Lemma existsb_check_attacks me np dmg team l :
  (check_attacks me np dmg team l).1 = true <->
  Exists (fun ec => ec.1 ≠ me /\ cell ec.2 = Some np) l.
Proof.
  unfold check_attacks. simpl. rewrite existsb_exists, Exists_exists. split.
  - intros (x & (ec & <- & Hin)%in_map_iff & Hx).
    exists ec. split; [by apply list_elem_of_In|]. exact (proj1 (check_attack_blocks me np dmg team ec) Hx).
  - intros (ec & Hin & Hx). exists (check_attack me np dmg team ec).
    split; [apply in_map; by apply list_elem_of_In|]. exact (proj2 (check_attack_blocks me np dmg team ec) Hx).
Qed.

Lemma set_hp_eta c : set_hp (c_hp c) c = c.
Proof. by destruct c. Qed.

Lemma check_attack_other me np dmg team e' c' :
  e' ≠ me ->
  (check_attack me np dmg team (e', c')).2.2 =
    set_hp (c_hp (check_attack me np dmg team (e', c')).2.2) c' /\
  ((exists hp t', c_hp c' = Some hp /\
     c_hp (check_attack me np dmg team (e', c')).2.2 = Some (hp - dmg)%Q /\
     cell c' = Some np /\ c_team c' = Some t' /\ t' ≠ team) \/
   (c_hp (check_attack me np dmg team (e', c')).2.2 = c_hp c' /\
    ~ exists t', cell c' = Some np /\ c_team c' = Some t' /\ t' ≠ team)).
Proof.
  intros Hne. unfold check_attack, cell. simpl.
  destruct (c_mpos c') as [m|] eqn:Hm, (c_hp c') as [hp|] eqn:Hh,
    (c_team c') as [t'|] eqn:Ht; simpl; rewrite ?set_hp_eta, ?Hh;
    try (split; [done|right; split; [done|by intros (? & ? & ? & ?)]]).
  destruct (Nat.eqb_spec me e'); [congruence|]. simpl.
  destruct (decide (m = np)) as [<-|Hmn].
  - rewrite bool_decide_true by done. simpl.
    destruct (Z.eqb_spec team t'); simpl; rewrite ?set_hp_eta, ?Hh.
    + split; [done|right; split; [done|]]. intros (? & _ & [= <-] & ?). congruence.
    + split; [done|]. left. exists hp, t'. split_and!; congruence.
  - rewrite bool_decide_false by done. simpl. rewrite set_hp_eta, Hh.
    split; [done|right; split; [done|]]. intros (? & [= ?] & _). congruence.
Qed.

(** C23: An attack is a blocked move.  When an entity plans the step of its
    action, every other entity keeps all its components but its hit points:
    a combatant of another team on the target cell loses exactly the
    mover's damage, and every other entity keeps its hit points (a
    combatant of the mover's team on the target cell blocks it without
    being hurt); the mover itself is
    blocked (action reset to [EA_NOP], [MovePos] kept) iff another
    combatant is on the target cell, and otherwise takes the cell. *)
Theorem plan_move_attacks w me c a pos dmg team :
  get_comps w me = Some c -> c_action c = Some a -> c_pos c = Some pos ->
  c_dmg c = Some dmg -> c_team c = Some team ->
  (forall e' c', e' ≠ me -> get_comps w e' = Some c' ->
     exists c'', get_comps (plan_move w me) e' = Some c'' /\
       c'' = set_hp (c_hp c'') c' /\
       ((exists hp t', c_hp c' = Some hp /\ c_hp c'' = Some (hp - dmg)%Q /\
          cell c' = Some (move_pos pos a) /\ c_team c' = Some t' /\ t' ≠ team) \/
        (c_hp c'' = c_hp c' /\
         ~ exists t', cell c' = Some (move_pos pos a) /\ c_team c' = Some t' /\ t' ≠ team))) /\
  ((get_comps (plan_move w me) me = Some (set_action (Some EA_NOP) c) /\
    Exists (fun ec => ec.1 ≠ me /\ cell ec.2 = Some (move_pos pos a)) (w_ents w)) \/
   (get_comps (plan_move w me) me = Some (set_mpos (Some (move_pos pos a)) c) /\
    ~ Exists (fun ec => ec.1 ≠ me /\ cell ec.2 = Some (move_pos pos a)) (w_ents w))).
Proof.
  intros Hc Ha Hp Hd Ht. unfold plan_move. rewrite Hc, Ha, Hp, Hd, Ht.
  pose proof (existsb_check_attacks me (move_pos pos a) dmg team (w_ents w)) as Hex.
  pose proof (alookup_check_attacks me (move_pos pos a) dmg team (w_ents w)) as Hlk.
  destruct (check_attacks me (move_pos pos a) dmg team (w_ents w)) as [blocked ents].
  simpl in Hex, Hlk.
  assert (Hme : alookup me ents = Some c).
  { rewrite Hlk. unfold get_comps in Hc. rewrite Hc. simpl.
    unfold check_attack. simpl. repeat case_match; simpl; try done.
    by rewrite Nat.eqb_refl in *. }
  split.
  - intros e' c' Hne Hc'. unfold set_action_of.
    exists (check_attack me (move_pos pos a) dmg team (e', c')).2.2.
    split; [|by apply check_attack_other].
    destruct blocked; rewrite get_comps_modify_ne by done;
      unfold get_comps; simpl; rewrite Hlk; unfold get_comps in Hc'; by rewrite Hc'.
  - unfold set_action_of. destruct blocked.
    + left. split; [|by apply Hex]. by rewrite get_comps_modify_eq; unfold get_comps; simpl; rewrite Hme.
    + right. split; [|intros ?%Hex; done].
      by rewrite get_comps_modify_eq; unfold get_comps; simpl; rewrite Hme.
Qed.

Lemma plan_move_attacks_witness :
  get_comps duel_world 1 = Some (fighter 0 0 EA_MOVE_RIGHT 0) /\
  (forall e' c', e' ≠ 1 -> get_comps duel_world e' = Some c' ->
     exists c'', get_comps (plan_move duel_world 1) e' = Some c'' /\
       c'' = set_hp (c_hp c'') c' /\
       ((exists hp t', c_hp c' = Some hp /\ c_hp c'' = Some (hp - 20)%Q /\
          cell c' = Some (move_pos (mkPosition 0 0) EA_MOVE_RIGHT) /\
          c_team c' = Some t' /\ t' ≠ 0%Z) \/
        (c_hp c'' = c_hp c' /\
         ~ exists t', cell c' = Some (move_pos (mkPosition 0 0) EA_MOVE_RIGHT) /\
             c_team c' = Some t' /\ t' ≠ 0%Z))) /\
  ((get_comps (plan_move duel_world 1) 1 =
      Some (set_action (Some EA_NOP) (fighter 0 0 EA_MOVE_RIGHT 0)) /\
    Exists (fun ec => ec.1 ≠ 1 /\ cell ec.2 = Some (move_pos (mkPosition 0 0) EA_MOVE_RIGHT))
      (w_ents duel_world)) \/
   (get_comps (plan_move duel_world 1) 1 =
      Some (set_mpos (Some (move_pos (mkPosition 0 0) EA_MOVE_RIGHT))
              (fighter 0 0 EA_MOVE_RIGHT 0)) /\
    ~ Exists (fun ec => ec.1 ≠ 1 /\ cell ec.2 = Some (move_pos (mkPosition 0 0) EA_MOVE_RIGHT))
      (w_ents duel_world))).
Proof.
  split; [reflexivity|]. apply plan_move_attacks; reflexivity.
Defined.
