(* ===== verification/Typing.v ===== *)
(** Typed use of the blackboard.  Every read of the code is a
    [bb.get<T>(slot)], which throws [std::bad_any_cast] when the slot holds
    no value of type [T] (spec §4.8); the hoard behaviour does (Build.v).
    This file gives the discipline under which no tree raises at all.

    A slot typing [Γ] (the [slot_types] of the name table) gives each slot
    its type; [wt Γ D n] checks a tree against it, [D] being the slots known
    to hold a value when [n] starts.  A read needs its slot in [D] at its
    type; a search leaf ([FindEnemy], [FindClosestOf], [FindWaypoint])
    writes its slot on success, so a [Sequence] passes it on to the next
    child ([chain]); a [HoardListener] must have its target typed as an
    entity and its flag as a bool, since [react] writes both.  A world is
    typed ([inv]) when every blackboard holds values of their slots' types
    and every tree is typed from slots its blackboard holds.

    A tick of a typed tree from a typed world returns (never raises), and
    leaves a typed world ([update_safe]); the tree pass of [process_turn]
    keeps the world typed ([tick_trees_typed]).  The minotaur behaviour is
    typed; the hoard behaviour is not ([create_hoard_beh_untyped]). *)

From Stdlib Require Import QArith ZArith Lia.
From stdpp Require Import base decidable list gmap sets strings.
From S2P Require Import Prelude Types Blackboard RandomUtil Composite Utility Node World Leaves Tree Build.

#[local] Open Scope bt_scope.

Section Typing.
Context (Γ : gmap nat bbtype).

Definition slot_is (i : nat) (t : bbtype) : bool := bool_decide (Γ !! i = Some t).

(** A read of slot [i] at type [t] with the slots [D] known to be set. *)
Definition reads (D : gset nat) (i : nat) (t : bbtype) : bool :=
  bool_decide (i ∈ D) && slot_is i t.

Definition typed_opt {X} (o : option X) : bool :=
  match o with Some _ => true | None => false end.

(** The alternatives of a [Selector] or an [OrNode]: each child typed; on
    success some child succeeded, so the slots all of them set are set. *)
Fixpoint meet_types {A} (f : A -> option (gset nat)) (D : gset nat) (ns : list A)
    : option (gset nat) :=
  match ns with
  | [] => Some D
  | c :: cs => f c ≫= fun d =>
      match cs with
      | [] => Some d
      | _ => meet_types f D cs ≫= fun d' => Some (d ∩ d')
      end
  end.

(** The typing of a tree: [Some D'] when [n] is typed from [D], [D'] being
    the slots set when it succeeds. *)
Fixpoint wt (D : gset nat) (n : node) {struct n} : option (gset nat) :=
  match n with
  | Sequence ns => chain wt D ns
  | Selector ns | OrNode ns => meet_types (wt D) D ns
  | Parallel ns =>
      if forallb (fun c => typed_opt (wt D c)) ns then Some D else None
  | NotNode c => if typed_opt (wt D c) then Some D else None
  | UtilitySelector u =>
      if forallb (fun ent => typed_opt (wt D ent.1.1)) (utilityNodes u) then Some D else None
  | MoveToEntity i | Flee i | AlertHoard _ i =>
      if reads D i TEntity then Some D else None
  | Patrol i _ => if reads D i TPosition then Some D else None
  | FindEnemy i _ | FindClosestOf _ i _ | FindWaypoint i =>
      if slot_is i TEntity then Some ({[i]} ∪ D) else None
  | HoardListener t f => if slot_is t TEntity && slot_is f TBool then Some D else None
  | IsLowHp _ | RandomWalk | PatchUp _ => Some D
  end.

(** Every value a blackboard holds has its slot's type. *)
Definition bb_typed (bb : Blackboard) : Prop :=
  map_Forall (fun i v => Γ !! i = Some (type_of v)) bb.

Definition tree_typed (t : node) (bb : Blackboard) : Prop :=
  exists D D', wt D t = Some D' /\ D ⊆ dom bb.

(** The typed world. *)
Definition inv (w : World) : Prop :=
  forall e c, get_comps w e = Some c ->
    bb_typed (bb_of c) /\ forall t, c_tree c = Some t -> tree_typed t (bb_of c).

(** A step that keeps every entity with its tree and lets blackboards only
    grow, typed values staying typed. *)
Definition grows (w w' : World) : Prop :=
  (forall e c, get_comps w e = Some c -> exists c', get_comps w' e = Some c' /\
     c_tree c' = c_tree c /\ dom (bb_of c) ⊆ dom (bb_of c') /\
     (bb_typed (bb_of c) -> bb_typed (bb_of c'))) /\
  (forall e c', get_comps w' e = Some c' -> is_Some (get_comps w e)).

(** What a tick of [e]'s tree from [D] may assume. *)
Definition pre (e : Entity) (D : gset nat) (w : World) : Prop :=
  inv w /\ exists c, get_comps w e = Some c /\ D ⊆ dom (bb_of c).

(** ** The world relation *)

Lemma grows_refl w : grows w w.
Proof. split; [intros e c Hc; exists c; naive_solver|eauto]. Qed.

Lemma grows_trans w1 w2 w3 : grows w1 w2 -> grows w2 w3 -> grows w1 w3.
Proof.
  intros [F1 B1] [F2 B2]. split.
  - intros e c Hc. destruct (F1 _ _ Hc) as (c2 & H2 & T2 & D2 & Y2).
    destruct (F2 _ _ H2) as (c3 & H3 & T3 & D3 & Y3).
    exists c3. split_and!; [done|congruence|set_solver|auto].
  - intros e c3 H3. destruct (B2 _ _ H3) as [c2 H2]. by eapply B1.
Qed.

Lemma inv_grows w w' : inv w -> grows w w' -> inv w'.
Proof.
  intros Hinv [F B] e c' Hc'. destruct (B _ _ Hc') as [c Hc].
  destruct (F _ _ Hc) as (c'' & Hc'' & Ht & Hd & Hy). rewrite Hc' in Hc''.
  injection Hc'' as <-. destruct (Hinv _ _ Hc) as [Hbb Htr]. split; [auto|].
  intros t Hteq. rewrite Ht in Hteq. destruct (Htr _ Hteq) as (D & D' & Hw & HD).
  exists D, D'. split; [done|set_solver].
Qed.

Lemma pre_grows e D w w' : pre e D w -> grows w w' -> pre e D w'.
Proof.
  intros [Hinv (c & Hc & HD)] Hg. split; [by eapply inv_grows|].
  destruct Hg as [F _]. destruct (F _ _ Hc) as (c' & Hc' & _ & Hd & _).
  exists c'. split; [done|set_solver].
Qed.

(** A change of one entity's components that keeps its tree and grows its
    blackboard, typed values staying typed. *)
Definition grows_comps (f : Comps -> Comps) (c : Comps) : Prop :=
  c_tree (f c) = c_tree c /\ dom (bb_of c) ⊆ dom (bb_of (f c)) /\
  (bb_typed (bb_of c) -> bb_typed (bb_of (f c))).

Lemma grows_comps_same_bb f c :
  c_tree (f c) = c_tree c -> c_bb (f c) = c_bb c -> grows_comps f c.
Proof. unfold grows_comps, bb_of. intros -> ->. done. Qed.

Lemma grows_modify w e f :
  (forall c, get_comps w e = Some c -> grows_comps f c) ->
  grows w (modify_comps w e f).
Proof.
  intros Hf. split.
  - intros e' c Hc. rewrite get_comps_modify. case_decide as He; [subst e'|].
    + rewrite Hc. exists (f c). split; [done|]. apply Hf, Hc.
    + exists c. split; [done|]. naive_solver.
  - intros e' c'. rewrite get_comps_modify. case_decide; [subst|eauto].
    destruct (get_comps w e); [eauto|done].
Qed.

(** The value of a slot the typing says is set. *)
Lemma bb_typed_read bb D i t :
  bb_typed bb -> D ⊆ dom bb -> i ∈ D -> Γ !! i = Some t ->
  exists v, bb !! i = Some v /\ type_of v = t.
Proof.
  intros Hty HD Hi Ht. assert (i ∈ dom bb) as [v Hv]%elem_of_dom by set_solver.
  exists v. split; [done|]. specialize (Hty _ _ Hv). simpl in Hty. congruence.
Qed.

Lemma bb_typed_set bb i v :
  bb_typed bb -> Γ !! i = Some (type_of v) -> bb_typed (bb_set i v bb).
Proof. intros Hty Hi. by apply map_Forall_insert_2. Qed.

Lemma dom_bb_set bb i v : dom (bb_set i v bb) = {[i]} ∪ dom bb.
Proof. unfold bb_set. by rewrite dom_insert_L. Qed.

(** ** Listeners *)

Lemma chain_Forall {X A} (step : X -> A -> option X) x cs x' :
  chain step x cs = Some x' -> Forall (fun c => exists y y', step y c = Some y') cs.
Proof.
  revert x. induction cs as [|c cs IH]; intros x H; simpl in H; [done|].
  destruct (step x c) as [y|] eqn:Hy; [|done]. constructor; eauto.
Qed.

Lemma forallb_typed {A} (f : A -> option (gset nat)) l :
  forallb (fun c => typed_opt (f c)) l = true -> Forall (fun c => exists y, f c = Some y) l.
Proof.
  rewrite forallb_forall, Forall_forall. intros H c Hc. specialize (H c).
  rewrite <-list_elem_of_In in H. destruct (f c); [eauto|]. by specialize (H Hc).
Qed.

Lemma meet_types_spec {A} (f : A -> option (gset nat)) D ns d :
  meet_types f D ns = Some d -> Forall (fun c => exists y, f c = Some y /\ d ⊆ y) ns.
Proof.
  revert d. induction ns as [|c cs IH]; intros d H; simpl in H; [done|].
  destruct (f c) as [y|] eqn:Hy; simpl in H; [|done].
  destruct cs as [|c' cs'].
  - injection H as <-. constructor; [eauto|done].
  - destruct (meet_types f D (c' :: cs')) as [d'|] eqn:Hm; simpl in H; [|done].
    injection H as <-. constructor; [exists y; split; [done|set_solver]|].
    eapply Forall_impl; [by apply IH|]. intros x (z & Hz & Hs). exists z. split; [done|set_solver].
Qed.

(** The children of a typed node are typed, from some slots. *)
Lemma wt_children D D' n :
  wt D n = Some D' -> Forall (fun c => exists D1 D2, wt D1 c = Some D2) (children n).
Proof.
  destruct n; simpl; intros H; repeat case_match; simplify_eq; try done.
  1: eapply Forall_impl; [by eapply chain_Forall|]; naive_solver.
  1-2: eapply Forall_impl; [by eapply meet_types_spec|]; naive_solver.
  1: eapply Forall_impl; [by eapply forallb_typed|]; naive_solver.
  1: constructor; [|done]; destruct (wt D' n) eqn:?; simpl in *; [eauto|congruence].
  apply Forall_map. eapply Forall_impl; [exact (forallb_typed (fun ent => wt D' ent.1.1) _ H0)|]. naive_solver.
Qed.

Definition listener_typed (tf : nat * nat) : Prop :=
  Γ !! tf.1 = Some TEntity /\ Γ !! tf.2 = Some TBool.

Lemma Forall_flat_map_intro {A B} (P : B -> Prop) (f : A -> list B) l :
  Forall (fun x => Forall P (f x)) l -> Forall P (flat_map f l).
Proof. induction 1; simpl; [done|]. by apply Forall_app. Qed.

(** Every listener of a typed tree has its target and flag typed. *)
Lemma wt_all_listeners n D D' :
  wt D n = Some D' -> Forall listener_typed (all_listeners n).
Proof.
  revert D D'. induction n as [n IH] using node_ind_children. intros D D' H.
  pose proof (wt_children _ _ _ H) as Hc.
  assert (Forall (fun c => Forall listener_typed (all_listeners c)) (children n)) as Hall.
  { eapply Forall_impl; [apply Forall_and; split; [exact IH|exact Hc]|].
    intros c [Hi (D1 & D2 & Hw)]. eauto. }
  destruct n; simpl in *; try done.
  1-4: by apply Forall_flat_map_intro.
  - by inv Hall.
  - apply (Forall_flat_map_intro _ (fun ent => all_listeners ent.1.1)).
    apply Forall_forall. intros x Hx. rewrite Forall_forall in Hall. apply Hall.
    apply list_elem_of_In, (in_map (fun ent : node * utility_function * string => ent.1.1)), list_elem_of_In, Hx.
  - repeat case_match; simplify_eq. constructor; [|done].
    apply andb_true_iff in H0 as [H1 H2]. unfold slot_is in H1, H2. rewrite bool_decide_eq_true in H1, H2. by split.
Qed.

Lemma HoardListener_react_typed t f ev bb :
  listener_typed (t, f) -> bb_typed bb ->
  bb_typed (HoardListener_react t f ev bb) /\ dom bb ⊆ dom (HoardListener_react t f ev bb).
Proof.
  intros [Ht Hf] Hbb. unfold HoardListener_react. destruct (type ev).
  split; [apply bb_typed_set; [apply bb_typed_set|]; done|].
  rewrite !dom_bb_set. set_solver.
Qed.

(** What a reaction may do to a blackboard: keep it typed and only add. *)
Definition reacts_ok (r : Blackboard -> Blackboard) : Prop :=
  forall bb, bb_typed bb -> bb_typed (r bb) /\ dom bb ⊆ dom (r bb).

Lemma react_all_ok {A} (r : A -> Blackboard -> Blackboard) ns :
  Forall (fun c => reacts_ok (r c)) ns -> reacts_ok (react_all r ns).
Proof.
  unfold react_all. induction 1 as [|c ns Hc _ IH]; intros bb Hbb; simpl; [done|].
  destruct (Hc bb Hbb) as [Hty Hd]. destruct (IH _ Hty) as [Hty' Hd']. split; [done|set_solver].
Qed.

Lemma all_listeners_child n c :
  c ∈ children n -> forall tf, tf ∈ all_listeners c -> tf ∈ all_listeners n.
Proof.
  intros Hc tf Htf. destruct n; simpl in *; try by apply elem_of_nil in Hc.
  1-4: apply list_elem_of_In, in_flat_map; exists c; split; by apply list_elem_of_In.
  - apply list_elem_of_singleton in Hc. by subst.
  - apply list_elem_of_In in Hc as (ent & <- & Hin)%in_map_iff.
    apply list_elem_of_In, in_flat_map. exists ent. split; [done|]. by apply list_elem_of_In.
Qed.

(** An alert reaching a tree whose listeners are typed keeps the blackboard
    typed and only adds to it, in either library. *)
Lemma react_ok l n ev :
  Forall listener_typed (all_listeners n) -> reacts_ok (react l n ev).
Proof.
  induction n as [n IH] using node_ind_children. intros Hl.
  assert (Forall (fun c => reacts_ok (react l c ev)) (children n)) as Hc.
  { rewrite Forall_forall in IH |- *. intros c Hin. apply IH; [done|].
    rewrite Forall_forall in Hl |- *. intros tf Htf. by eapply Hl, all_listeners_child. }
  destruct n; simpl in Hc |- *; repeat case_match;
    try (intros bb Hbb; split; [done|done]);
    try (by apply react_all_ok); try (inv Hc; by auto).
  intros bb Hbb. apply HoardListener_react_typed; [|done]. by inv Hl.
Qed.

Lemma react_typed t D D' ev bb :
  wt D t = Some D' -> bb_typed bb ->
  bb_typed (react W2 t ev bb) /\ dom bb ⊆ dom (react W2 t ev bb).
Proof. intros Hw. apply react_ok. by eapply wt_all_listeners. Qed.

(** ** Leaves *)

Definition same_tb (f : Comps -> Comps) : Prop :=
  forall c, c_tree (f c) = c_tree c /\ c_bb (f c) = c_bb c.

Lemma grows_modify_same w w1 e f : grows w w1 -> same_tb f -> grows w (modify_comps w1 e f).
Proof.
  intros Hg Hf. eapply grows_trans; [exact Hg|]. apply grows_modify.
  intros c _. apply grows_comps_same_bb; apply Hf.
Qed.

Lemma pre_comps e D w :
  pre e D w -> exists c, get_comps w e = Some c /\ bb_typed (bb_of c) /\ D ⊆ dom (bb_of c).
Proof. intros [Hinv (c & Hc & HD)]. exists c. split_and!; [done| |done]. by apply (Hinv e). Qed.

Lemma entity_set_same f w e c :
  same_tb f -> get_comps w e = Some c ->
  entity_set f w e = inr (f c, modify_comps w e f) /\
  get_comps (modify_comps w e f) e = Some (f c).
Proof. intros _ Hc. unfold entity_set. rewrite get_comps_modify_eq, Hc. done. Qed.

Lemma read_entity bb D i :
  bb_typed bb -> D ⊆ dom bb -> reads D i TEntity = true -> exists x, bb_get_entity i bb = Some x.
Proof.
  unfold reads, slot_is. rewrite andb_true_iff, !bool_decide_eq_true. intros Hty HD [Hi Ht].
  destruct (bb_typed_read _ _ _ _ Hty HD Hi Ht) as ([] & Hv & [=]).
  exists e. unfold bb_get_entity, bb_get. by rewrite Hv.
Qed.

Lemma read_position bb D i :
  bb_typed bb -> D ⊆ dom bb -> reads D i TPosition = true ->
  exists p, bb_get_position i bb = Some p.
Proof.
  unfold reads, slot_is. rewrite andb_true_iff, !bool_decide_eq_true. intros Hty HD [Hi Ht].
  destruct (bb_typed_read _ _ _ _ Hty HD Hi Ht) as ([] & Hv & [=]).
  exists p. unfold bb_get_position, bb_get. by rewrite Hv.
Qed.

Lemma bb_of_set_bb b c : bb_of (set_bb (Some b) c) = b.
Proof. done. Qed.

(** A write of a typed value into [e]'s blackboard adds its slot. *)
Lemma pre_set_bb e D w c bb i v :
  pre e D w -> get_comps w e = Some c -> bb_of c = bb -> Γ !! i = Some (type_of v) ->
  grows w (set_bb_of w e (bb_set i v bb)) /\ pre e ({[i]} ∪ D) (set_bb_of w e (bb_set i v bb)).
Proof.
  intros Hp Hc <- Hi.
  assert (grows w (set_bb_of w e (bb_set i v (bb_of c)))) as Hg.
  { apply grows_modify. intros c' Hc'. rewrite Hc in Hc'. injection Hc' as <-.
    unfold grows_comps. rewrite bb_of_set_bb, dom_bb_set. split_and!; [done|set_solver|].
    intros Hty. by apply bb_typed_set. }
  split; [done|]. split; [by eapply inv_grows, Hg; apply Hp|].
  exists (set_bb (Some (bb_set i v (bb_of c))) c).
  unfold set_bb_of. rewrite get_comps_modify_eq, Hc. split; [done|].
  destruct (pre_comps _ _ _ Hp) as (c0 & Hc0 & _ & HD). rewrite Hc in Hc0. injection Hc0 as <-.
  rewrite bb_of_set_bb, dom_bb_set. set_solver.
Qed.

Lemma find_finish_safe e D w c i d found :
  pre e D w -> get_comps w e = Some c -> Γ !! i = Some TEntity ->
  grows w (find_finish i d found e c w).2 /\
  ((find_finish i d found e c w).1 = BEH_SUCCESS -> pre e ({[i]} ∪ D) (find_finish i d found e c w).2).
Proof.
  intros Hp Hc Hi. unfold find_finish.
  destruct found as [[ce cd]|]; [|split; [apply grows_refl|done]].
  destruct (is_valid w ce && dist_le cd d); [|split; [apply grows_refl|done]].
  destruct (pre_set_bb e D w c (bb_of c) i (VEntity ce)) as [Hg Hp']; auto.
Qed.

(** A leaf run on the world, safe from [D] to [D']. *)
Definition leaf_safe (e : Entity) (D D' : gset nat)
    (run : World -> fault + (BehResult * World)) : Prop :=
  forall w, pre e D w -> exists r w',
    run w = inr (r, w') /\ grows w w' /\ (r = BEH_SUCCESS -> pre e D' w').

Lemma leaf_safe_same e D run :
  (forall w, pre e D w -> exists r w', run w = inr (r, w') /\ grows w w') ->
  leaf_safe e D D run.
Proof.
  intros H w Hp. destruct (H w Hp) as (r & w' & Hr & Hg). eauto 10 using pre_grows.
Qed.

End Typing.

Create HintDb typing.
#[export] Hint Resolve grows_refl grows_modify_same : typing.
#[export] Hint Extern 1 (same_tb _) => (intros ?; split; reflexivity) : typing.

Section Leaves.
Context (Γ : gmap nat bbtype) (e : Entity).

(** The steps shared by the leaves: the entity is found, [entity.set]
    adds its components, the read succeeds, every branch grows. *)
Ltac leaf_start Hp :=
  let c := fresh "c" in let Hc := fresh "Hc" in let Hty := fresh "Hty" in
  let HD := fresh "HD" in
  destruct (pre_comps _ _ _ _ Hp) as (c & Hc & Hty & HD);
  unfold entity_set; rewrite ?Hc; cbn [fst snd].
Ltac leaf_finish :=
  unfold set_action_of; repeat case_match; simplify_eq/=;
  (do 2 eexists; split; [reflexivity|eauto 6 with typing]).

Lemma MoveToEntity_safe D i :
  reads Γ D i TEntity = true -> leaf_safe Γ e D D (MoveToEntity_update i e).
Proof.
  intros Hr. apply leaf_safe_same. intros w Hp. leaf_start Hp. unfold MoveToEntity_update, entity_set.
  rewrite Hc. change (bb_of (ensure_pos (ensure_action c))) with (bb_of c).
  destruct (read_entity _ _ _ _ Hty HD Hr) as [x ->]. leaf_finish.
Qed.

Lemma Flee_safe D i :
  reads Γ D i TEntity = true -> leaf_safe Γ e D D (Flee_update i e).
Proof.
  intros Hr. apply leaf_safe_same. intros w Hp. leaf_start Hp. unfold Flee_update, entity_set.
  rewrite Hc. change (bb_of (ensure_pos (ensure_action c))) with (bb_of c).
  destruct (read_entity _ _ _ _ Hty HD Hr) as [x ->]. leaf_finish.
Qed.

Lemma IsLowHp_safe D thr : leaf_safe Γ e D D (IsLowHp_update thr e).
Proof.
  apply leaf_safe_same. intros w Hp. destruct (IsLowHp_update_spec thr e w) as (r & -> & _).
  eauto with typing.
Qed.

Lemma HoardListener_safe D : leaf_safe Γ e D D HoardListener_update.
Proof. apply leaf_safe_same. intros w _. eauto with typing. Qed.

Lemma PatchUp_safe D thr : leaf_safe Γ e D D (PatchUp_update thr e).
Proof. apply leaf_safe_same. intros w Hp. leaf_start Hp. unfold PatchUp_update, entity_set.
  rewrite Hc. leaf_finish.
Qed.

(** The searches write their slot on success, whatever candidate they
    found. *)
Lemma search_finish D i ensure w c d found :
  same_tb ensure -> Γ !! i = Some TEntity -> pre Γ e D w -> get_comps w e = Some c ->
  exists r w', @inr fault _ (find_finish i d found e (ensure c) (modify_comps w e ensure))
    = inr (r, w') /\
    grows Γ w w' /\ (r = BEH_SUCCESS -> pre Γ e ({[i]} ∪ D) w').
Proof.
  intros Hs Hi Hp Hc.
  destruct (entity_set_same ensure w e c Hs Hc) as [_ Hc1].
  assert (grows Γ w (modify_comps w e ensure)) as Hg by eauto with typing.
  destruct (find_finish_safe Γ e D _ _ i d found (pre_grows _ _ _ _ _ Hp Hg) Hc1 Hi)
    as [Hg' Hp'].
  destruct (find_finish _ _ _ _ _ _) as [r w'] eqn:Hf. simpl in *.
  do 2 eexists. split; [reflexivity|]. split; [by eapply grows_trans|done].
Qed.

Ltac search_case Hi :=
  let w := fresh "w" in let Hp := fresh "Hp" in
  intros w Hp; apply bool_decide_eq_true in Hi;
  destruct (pre_comps _ _ _ _ Hp) as (c & Hc & _ & _);
  unfold entity_set; rewrite Hc; cbn zeta;
  match goal with |- context [modify_comps w _ ?f] => eapply (search_finish _ _ f) end;
  eauto with typing.

Lemma FindEnemy_safe D i d :
  slot_is Γ i TEntity = true -> leaf_safe Γ e D ({[i]} ∪ D) (FindEnemy_update i d e).
Proof. intros Hi. unfold FindEnemy_update. search_case Hi. Qed.

Lemma FindClosestOf_safe D k i d :
  slot_is Γ i TEntity = true -> leaf_safe Γ e D ({[i]} ∪ D) (FindClosestOf_update k i d e).
Proof. intros Hi. unfold FindClosestOf_update. search_case Hi. Qed.

Lemma FindWaypoint_safe D i :
  slot_is Γ i TEntity = true -> leaf_safe Γ e D ({[i]} ∪ D) (FindWaypoint_update i e).
Proof.
  intros Hi w Hp. apply bool_decide_eq_true in Hi.
  destruct (pre_comps _ _ _ _ Hp) as (c & Hc & _ & _).
  unfold FindWaypoint_update. rewrite (proj1 (entity_set_same (fun c => ensure_cur_wp (ensure_pos c)) w e c
    ltac:(eauto with typing) Hc)).
  set (w1 := modify_comps w e _).
  match goal with |- context [modify_comps w1 e (set_cur_wp (Some ?wp))] => set (wp' := wp) end.
  set (w2 := modify_comps w1 e (set_cur_wp (Some wp'))).
  assert (grows Γ w w2) as Hg by (unfold w2, w1; eauto with typing).
  destruct (is_valid w2 wp'); [|do 2 eexists; split_and!; [reflexivity|done|discriminate]].
  destruct (pre_set_bb Γ e D w2 (set_cur_wp (Some wp') (ensure_cur_wp (ensure_pos c)))
              (bb_of (ensure_cur_wp (ensure_pos c))) i (VEntity wp')) as [Hg' Hp'];
    [by eapply pre_grows|unfold w2, w1; by rewrite !get_comps_modify_eq, Hc|done|done|].
  do 2 eexists. split; [reflexivity|]. split; [by eapply grows_trans|done].
Qed.

(** An alert reaches only typed trees, which keep their blackboards typed. *)
Lemma grows_alert p d enemy w :
  inv Γ w -> grows Γ w (mkWorld (map (alert_one p d enemy) (w_ents w)) (w_next w)).
Proof.
  intros Hinv.
  rewrite (map_ext _ (fun ec => (ec.1, alerted p d enemy ec.2))) by apply alert_one_alerted.
  split; unfold get_comps; simpl.
  - intros e' c Hc. rewrite alookup_map_snd, Hc. eexists; split; [reflexivity|].
    unfold alerted. destruct (c_pos c), (c_tree c) as [t|] eqn:Ht, (c_bb c) as [bb0|] eqn:Hb;
      try (split_and!; done).
    destruct (dist_le _ _); [|split_and!; done].
    destruct (Hinv e' c Hc) as [Hty Htr]. destruct (Htr t Ht) as (D & D' & Hw & _).
    unfold bb_of in Hty |- *. rewrite Hb in Hty |- *. simpl.
    destruct (react_typed Γ t D D' (mkEvent HoardAlert enemy) bb0 Hw Hty) as [Hty' Hd].
    split_and!; auto.
  - intros e' c'. rewrite alookup_map_snd. destruct (alookup e' (w_ents w)); [eauto|done].
Qed.

Lemma AlertHoard_safe D d i :
  reads Γ D i TEntity = true -> leaf_safe Γ e D D (AlertHoard_update d i e).
Proof.
  intros Hr. apply leaf_safe_same. intros w Hp. leaf_start Hp. unfold AlertHoard_update.
  rewrite Hc. destruct (read_entity _ _ _ _ Hty HD Hr) as [x ->].
  destruct (negb _ || negb _); [eauto with typing|].
  destruct (c_pos c); [|eauto with typing].
  do 2 eexists. split; [reflexivity|]. apply grows_alert, Hp.
Qed.

(** The leaves that draw from the random source, on the whole state. *)
Definition rleaf_safe {G} (D D' : gset nat)
    (run : World * G -> fault + (BehResult * (World * G))) : Prop :=
  forall s, pre Γ e D s.1 -> exists r s',
    run s = inr (r, s') /\ grows Γ s.1 s'.1 /\ (r = BEH_SUCCESS -> pre Γ e D' s'.1).

Lemma Patrol_safe {G} `{!RandomSource G} D i pd :
  reads Γ D i TPosition = true -> rleaf_safe D D (Patrol_update (G:=G) i pd e).
Proof.
  intros Hr [w g] Hp. simpl in Hp. leaf_start Hp. unfold Patrol_update, entity_set.
  rewrite Hc. change (bb_of (ensure_pos (ensure_action c))) with (bb_of c).
  destruct (read_position _ _ _ _ Hty HD Hr) as [pp ->].
  destruct (negb _); [|destruct (random_move g)];
    do 2 eexists; (split; [reflexivity|]); split; simpl; eauto with typing; discriminate.
Qed.

Lemma RandomWalk_safe {G} `{!RandomSource G} D : rleaf_safe D D (RandomWalk_update (G:=G) e).
Proof.
  intros [w g] Hp. simpl in Hp. leaf_start Hp. unfold RandomWalk_update, entity_set.
  rewrite Hc. destruct (random_move g).
  do 2 eexists. split; [reflexivity|]. split; simpl; [eauto with typing|discriminate].
Qed.
End Leaves.

(** ** A tick of a typed tree *)

Section Tick.
Context {G : Type} `{!RandomSource G, !RandomSourceLaws G}.
Context (Γ : gmap nat bbtype) (e : Entity) (sample_fuel : nat).
Hypothesis sample_fuel_2 : (2 <= sample_fuel)%nat.

#[local] Abbreviation St := (World * G)%type.
#[local] Abbreviation run := (fun (c : node) (s : St) => update sample_fuel c e s).
#[local] Abbreviation Rs := (fun s s' : St => grows Γ s.1 s'.1).
#[local] Abbreviation Ps := (fun D (s : St) => pre Γ e D s.1).

Lemma Ps_mono D (s s' : St) : Ps D s -> Rs s s' -> Ps D s'.
Proof. apply pre_grows. Qed.

Lemma Rs_trans (s1 s2 s3 : St) : Rs s1 s2 -> Rs s2 s3 -> Rs s1 s3.
Proof. apply grows_trans. Qed.

Lemma Rs_refl (s : St) : Rs s s.
Proof. apply grows_refl. Qed.

Lemma leaf_lift D D' n (f : World -> fault + (BehResult * World)) (s : St) :
  leaf_safe Γ e D D' f -> Ps D s ->
  exists r c' s', leaf n (f s.1) s.2 = inr (r, c', s') /\ Rs s s' /\ (r = BEH_SUCCESS -> Ps D' s').
Proof.
  intros Hf Hs. destruct (Hf _ Hs) as (r & w' & -> & Hg & Hp).
  exists r, n, (w', s.2). auto.
Qed.

Lemma rleaf_lift D D' n (f : St -> fault + (BehResult * St)) (s : St) :
  rleaf_safe Γ e D D' f -> Ps D s ->
  exists r c' s', rleaf n (f s) = inr (r, c', s') /\ Rs s s' /\ (r = BEH_SUCCESS -> Ps D' s').
Proof.
  intros Hf Hs. destruct (Hf _ Hs) as (r & s' & -> & Hg & Hp). exists r, n, s'. auto.
Qed.

Lemma rewrap_lift {X} (k : X -> node) D' (m : fault + (BehResult * X * St)) (s : St) :
  (exists r x s', m = inr (r, x, s') /\ Rs s s' /\ (r = BEH_SUCCESS -> Ps D' s')) ->
  exists r c' s', rewrap k m = inr (r, c', s') /\ Rs s s' /\ (r = BEH_SUCCESS -> Ps D' s').
Proof. intros (r & x & s' & -> & ? & ?). exists r, (k x), s'. auto. Qed.

Lemma weak_lift {X} D (m : fault + (BehResult * X * St)) (s : St) :
  Ps D s -> (exists r x s', m = inr (r, x, s') /\ Rs s s') ->
  exists r x s', m = inr (r, x, s') /\ Rs s s' /\ (r = BEH_SUCCESS -> Ps D s').
Proof.
  intros Hs (r & x & s' & -> & HR). exists r, x, s'.
  split_and!; [done|done|intros _; exact (Ps_mono D s s' Hs HR)].
Qed.

(** Every child of a typed composite is safe from its slots. *)
Lemma children_safe D ns :
  Forall (fun c => forall D D', wt Γ D c = Some D' -> safe run Rs Ps D c D') ns ->
  forallb (fun c => typed_opt (wt Γ D c)) ns = true ->
  Forall (fun c => exists D', safe run Rs Ps D c D') ns.
Proof.
  intros IH Hf. apply forallb_typed in Hf.
  eapply Forall_impl; [apply Forall_and; split; [exact IH|exact Hf]|].
  intros c [Hc [D' Hw]]. eauto.
Qed.

Lemma pre_anti D0 D w : D0 ⊆ D -> pre Γ e D w -> pre Γ e D0 w.
Proof. intros Hsub [Hinv (c & Hc & HD)]. split; [done|]. exists c. split; [done|set_solver]. Qed.

Lemma meet_safe D D' ns :
  Forall (fun c => forall D D', wt Γ D c = Some D' -> safe run Rs Ps D c D') ns ->
  meet_types (wt Γ D) D ns = Some D' ->
  Forall (fun c => exists y, safe run Rs Ps D c y /\ forall s, Ps y s -> Ps D' s) ns.
Proof.
  intros IH Hm. apply meet_types_spec in Hm.
  eapply Forall_impl; [apply Forall_and; split; [exact IH|exact Hm]|].
  intros c [Hc (y & Hy & Hsub)]. exists y. split; [by apply Hc|]. intros s. by apply pre_anti.
Qed.

Ltac composite_case H :=
  apply rewrap_lift; eapply weak_lift; [eassumption|];
  eapply (H _ _ _ _ run Rs Rs_trans Ps Ps_mono Rs_refl); [|eassumption];
  by apply children_safe.

(** A tick of a tree typed from [D], from a typed world where [e]'s
    blackboard holds [D], returns; it only grows the world, and on success
    the slots of the typing hold values. *)
Lemma update_safe n : forall D D', wt Γ D n = Some D' -> safe run Rs Ps D n D'.
Proof.
  induction n as [n IH] using node_ind_children. intros D D' Hw s Hs.
  destruct n; simpl in Hw, IH |- *.
  - apply rewrap_lift. exact (Sequence_update_safe run Rs Rs_trans Ps Rs_refl
      (wt Γ) D D' nodes s IH Hw Hs).
  - apply rewrap_lift.
    exact (Selector_update_safe run Rs Rs_trans Ps Ps_mono Rs_refl D D' nodes s
             (meet_safe D D' nodes IH Hw) Hs).
  - apply rewrap_lift.
    exact (OrNode_update_safe run Rs Rs_trans Ps Ps_mono Rs_refl D D' nodes s
             (meet_safe D D' nodes IH Hw) Hs).
  - case_match; simplify_eq. composite_case @Parallel_update_safe.
  - match type of Hw with context [wt Γ D ?c] => destruct (wt Γ D c) as [D1|] eqn:Hc end;
      simplify_eq/=.
    apply rewrap_lift; eapply weak_lift; [eassumption|]. inv IH.
    eapply (NotNode_update_safe run Rs Ps); [by eauto|done].
  - case_match; simplify_eq. apply rewrap_lift; eapply weak_lift; [eassumption|].
    eapply (UtilitySelector_update_safe _ _ _ _ _ _ Rs (Ps D'));
      [apply Rs_refl|apply Rs_trans|intros g0 s0; exact (grows_refl Γ s0.1)|apply Ps_mono|done| |done].
    intros c f l Hin s1 Hs1.
    assert (exists D2, wt Γ D' c = Some D2) as [D2 Hc].
    { match goal with H : forallb _ _ = true |- _ =>
        apply (forallb_typed (fun ent => wt Γ D' ent.1.1)) in H end.
      rewrite Forall_forall in *. by apply (H (c, f, l)). }
    rewrite Forall_forall in IH.
    assert (c ∈ map (fun ent : node * utility_function * string => ent.1.1) (utilityNodes u))
      as Hc'.
    { apply list_elem_of_In.
      apply (in_map (fun ent : node * utility_function * string => ent.1.1) _ (c, f, l)).
      by apply list_elem_of_In. }
    destruct (IH c Hc' D' D2 Hc s1 Hs1) as (r & a & s' & Hr & HR & _). eauto.
  - case_match; simplify_eq. eapply leaf_lift; [|exact Hs]; by apply MoveToEntity_safe.
  - simplify_eq. eapply leaf_lift; [|exact Hs]; by apply IsLowHp_safe.
  - case_match; simplify_eq. eapply leaf_lift; [|exact Hs]; by apply FindClosestOf_safe.
  - case_match; simplify_eq. eapply leaf_lift; [|exact Hs]; by apply FindEnemy_safe.
  - case_match; simplify_eq. eapply leaf_lift; [|exact Hs]; by apply FindWaypoint_safe.
  - case_match; simplify_eq. eapply leaf_lift; [|exact Hs]; by apply Flee_safe.
  - case_match; simplify_eq. eapply rleaf_lift; [|exact Hs]; by apply Patrol_safe.
  - case_match; simplify_eq. do 3 eexists. split_and!; [reflexivity|apply grows_refl|discriminate].
  - case_match; simplify_eq. eapply leaf_lift; [|exact Hs]; by apply AlertHoard_safe.
  - simplify_eq. eapply rleaf_lift; [|exact Hs]; by apply RandomWalk_safe.
  - simplify_eq. eapply leaf_lift; [|exact Hs]; by apply PatchUp_safe.
Qed.

(** ** A tick keeps the typing of the tree *)

Definition same_wt (c c' : node) : Prop := forall D, wt Γ D c' = wt Γ D c.

Lemma chain_Forall2 cs cs' D :
  Forall2 same_wt cs cs' -> chain (wt Γ) D cs' = chain (wt Γ) D cs.
Proof.
  intros Hf. revert D. induction Hf as [|c c' cs cs' Hc _ IH]; intros D; simpl; [done|].
  rewrite Hc. destruct (wt Γ D c); simpl; [apply IH|done].
Qed.

Lemma meet_types_Forall2 cs cs' D :
  Forall2 same_wt cs cs' -> meet_types (wt Γ D) D cs' = meet_types (wt Γ D) D cs.
Proof.
  induction 1 as [|c c' cs cs' Hc Hf IH]; simpl; [done|].
  rewrite Hc. destruct (wt Γ D c); simpl; [|done].
  destruct cs; inv Hf; [done|]. by rewrite IH.
Qed.

Lemma forallb_Forall2 {A} (f : A -> bool) (R : A -> A -> Prop) cs cs' :
  (forall c c', R c c' -> f c' = f c) -> Forall2 R cs cs' -> forallb f cs' = forallb f cs.
Proof. intros Hf. induction 1; simpl; [done|]. f_equal; auto. Qed.

Lemma update_wt n s r n' s' : update sample_fuel n e s = inr (r, n', s') -> same_wt n n'.
Proof.
  revert s r n' s'. induction n as [n IH] using node_ind_children. intros s r n' s' H.
  assert (Forall (gives_back run same_wt) (children n)) as Hg.
  { eapply Forall_impl; [exact IH|]. intros c Hc s1 r1 c' s1' H1. by eapply Hc. }
  destruct n; simpl in H, Hg |- *; unfold rewrap, leaf, rleaf in H;
    repeat (case_match; simplify_eq/=); try done; unfold same_wt.
  1: intros D; simpl; apply chain_Forall2;
     eapply composite_children; [intros ? ?; reflexivity|exact Hg|]; eauto.
  1-2: intros D; simpl; erewrite meet_types_Forall2; [reflexivity|];
       eapply composite_children; [intros ? ?; reflexivity|exact Hg|]; eauto 6.
  1: intros D; simpl; erewrite (forallb_Forall2 _ same_wt);
       [reflexivity|intros c c' Hc; by rewrite Hc|];
       eapply composite_children; [intros ? ?; reflexivity|exact Hg|]; eauto 6.
  - intros D. simpl. inv Hg.
    unfold NotNode_update in H0. destruct (update _ n e s) as [|[[r1 c1] s1]] eqn:Hr;
      simplify_eq/=. by rewrite (H2 _ _ _ _ Hr).
  - intros D. simpl. erewrite (forallb_Forall2 _ (entry_rel same_wt)); [reflexivity| |].
    { intros ent ent' (Hc & _ & _). by rewrite Hc. }
    eapply UtilitySelector_update_children; [intros ? ?; reflexivity| |eassumption].
    intros c f l Hin s1 r1 a s1' H1. rewrite Forall_forall in Hg.
    refine (Hg c _ _ _ _ _ H1). apply list_elem_of_In.
    apply (in_map (fun ent : node * utility_function * string => ent.1.1) _ (c, f, l)).
    by apply list_elem_of_In.
  - unfold HoardListener_update in H. by simplify_eq/=.
Qed.

Lemma inv_set_tree w t :
  inv Γ w -> (forall c, get_comps w e = Some c -> tree_typed Γ t (bb_of c)) ->
  inv Γ (modify_comps w e (set_tree (Some t))).
Proof.
  intros Hinv Ht e' c'. rewrite get_comps_modify. case_decide; [subst e'|by apply Hinv].
  destruct (get_comps w e) as [c|] eqn:Hc; intros [= <-].
  destruct (Hinv e c Hc) as [Hty _]. split; [done|]. intros t' [= <-]. exact (Ht c eq_refl).
Qed.

(** [BehaviourTree::update] on a typed world returns a typed world. *)
Lemma tick_one_safe (s : St) :
  inv Γ s.1 -> exists s', tick_one sample_fuel s e = inr s' /\ inv Γ s'.1.
Proof.
  intros Hinv. unfold tick_one.
  destruct (get_comps s.1 e) as [c|] eqn:Hc; simpl; [|eauto].
  destruct (c_tree c) as [root|] eqn:Ht; simpl; [|eauto].
  destruct (Hinv e c Hc) as [_ Htr]. destruct (Htr root Ht) as (D & D' & Hw & HD).
  assert (Ps D s) as Hs by (split; [done|eauto]).
  destruct (update_safe root D D' Hw s Hs) as (r & root' & s1 & Hu & HR & _).
  pose proof (update_wt _ _ _ _ _ Hu) as Hsame.
  unfold BehaviourTree_update. rewrite Hu. destruct s1 as [w1 g1].
  eexists. split; [reflexivity|]. simpl.
  destruct (pre_grows _ _ _ _ _ Hs HR) as [Hinv1 (c1 & Hc1 & HD1)]. simpl in *.
  apply inv_set_tree; [done|]. intros c' Hc'. rewrite Hc1 in Hc'. injection Hc' as <-.
  exists D, D'. by rewrite Hsame.
Qed.
End Tick.

(** The tree pass of [process_turn] over any list of entities. *)
Lemma tick_list_safe {G} `{!RandomSource G, !RandomSourceLaws G} Γ fuel es (s : World * G) :
  (2 <= fuel)%nat -> inv Γ s.1 -> exists s', tick_list fuel es s = inr s' /\ inv Γ s'.1.
Proof.
  intros Hf. revert s. induction es as [|e es IH]; intros s Hinv; simpl; [eauto|].
  destruct (tick_one_safe Γ e fuel Hf s Hinv) as (s1 & -> & Hinv1). by apply IH.
Qed.


(** ** The tree pass, and the behaviours of the game *)

(** C27: Type safety of the tree pass of [process_turn].  From a typed
    world (every blackboard value has its slot's type, every tree is typed
    from slots its blackboard holds), the pass [behTreeUpdate.each] raises
    nothing: no [bad_any_cast], no dead ticking entity, no exhausted
    sampler; and it leaves a typed world, so the next turn's pass is safe
    too. *)
Theorem tick_trees_typed {G} `{!RandomSource G, !RandomSourceLaws G} Γ fuel (w : World) (g : G) :
  (2 <= fuel)%nat -> inv Γ w ->
  exists s', tick_trees fuel (w, g) = inr s' /\ inv Γ s'.1.
Proof. intros Hf Hinv. by apply tick_list_safe. Qed.

(** A decision procedure for [inv] on a concrete world: each tree is
    checked from the slots its blackboard holds. *)
Definition invb (Γ : gmap nat bbtype) (w : World) : bool :=
  forallb (fun ec =>
    bool_decide (bb_typed Γ (bb_of ec.2)) &&
    match c_tree ec.2 with
    | Some t => typed_opt (wt Γ (dom (bb_of ec.2)) t)
    | None => true
    end) (w_ents w).

Lemma invb_sound Γ w : invb Γ w = true -> inv Γ w.
Proof.
  unfold invb. rewrite forallb_forall. intros H e c Hc.
  apply alookup_elem_inv, list_elem_of_In in Hc. specialize (H _ Hc). simpl in H.
  apply andb_true_iff in H as [Hty%bool_decide_eq_true Ht]. split; [done|].
  intros t Hteq. rewrite Hteq in Ht. destruct (wt Γ (dom (bb_of c)) t) as [D'|] eqn:Hw; [|done].
  by exists (dom (bb_of c)), D'.
Qed.




(** A monster with the minotaur behaviour facing an ally, built by the
    constructors of roguelike.cpp from the empty name table. *)
Definition minotaur_duel : Build unit :=
  let* m := create_monster 0 0 magenta "minotaur_tex" in let* _ := create_minotaur_beh m in
  let* _ := create_ally 3 0 white "swordsman_tex" in se_ret tt.

Definition minotaur_duel_state : NameTable * World :=
  match minotaur_duel initial_state with inr (_, s) => s | inl _ => initial_state end.

Lemma tick_trees_typed_witness :
  (2 <= 2)%nat /\ inv (slot_types minotaur_duel_state.1) minotaur_duel_state.2 /\
  exists s', tick_trees 2 (minotaur_duel_state.2, (@nil Q, @nil Z)) = inr s' /\
    inv (slot_types minotaur_duel_state.1) s'.1.
Proof.
  assert (inv (slot_types minotaur_duel_state.1) minotaur_duel_state.2) as Hinv
    by (apply invb_sound; vm_compute; reflexivity).
  split; [lia|]. split; [exact Hinv|].
  apply (tick_trees_typed (slot_types minotaur_duel_state.1) 2); [lia|exact Hinv].
Defined.

(** The entities of a world that have a tree, and those whose blackboard
    and tree check. *)
Definition tree_holders (w : World) : list Entity :=
  omap (fun ec => (fun _ => ec.1) <$> c_tree ec.2) (w_ents w).

Definition typed_holders (Γ : gmap nat bbtype) (w : World) : list Entity :=
  omap (fun ec =>
    match c_tree ec.2 with
    | Some t => if bool_decide (bb_typed Γ (bb_of ec.2)) && typed_opt (wt Γ (dom (bb_of ec.2)) t)
                then Some ec.1 else None
    | None => None
    end) (w_ents w).

(** In the world [init_roguelike] builds, eight entities have a tree:
    the two minotaurs, the gatherer and the guard (entities 6 to 9) are
    typed against the slot types of the name table, and the four hoard
    members (entities 12 to 15) are exactly the ones that are not. *)
Theorem init_roguelike_typed_holders :
  match init_roguelike initial_state with
  | inr (_, (tbl, w)) =>
      tree_holders w = [6; 7; 8; 9; 12; 13; 14; 15] /\
      typed_holders (slot_types tbl) w = [6; 7; 8; 9]
  | inl _ => False
  end.
Proof. vm_compute. split; reflexivity. Qed.
