(* ===== verification/Dmaps.v ===== *)
(** The helpers of src/w5: [sgn] and the stream output of a [Position]
    (dijkstraMapGen.h, lines 16-22), and the [DmapWeights] presets of
    dmapBeh.cpp.  The Dijkstra-map generators themselves are only declared
    under src/ (dijkstraMapGen.h, lines 9-13) and are not modelled.

    [sgn] is instantiated at [int]: [(T(0) < val) - (val < T(0))] with the
    two comparisons converted to [0] or [1].  [operator<<] writes the two
    coordinates in decimal, as [std::ostream] does for [int], separated by
    one space; [parse_position] reads such a text back, and the two are
    inverse ([position_print_parse]). *)

From Stdlib Require Import QArith ZArith Lia String Ascii DecimalString DecimalZ.
From stdpp Require Import base list gmap.
From S2P Require Import Types.

(** ** [sgn] *)

(** [template <typename T> int sgn(T val)] at [T = int]. *)
Definition sgn (val : Z) : Z := Z.b2z (0 <? val)%Z - Z.b2z (val <? 0)%Z.

(** ** [operator<<(std::ostream&, const Position&)] *)

(** [ostr << n] for an [int]: decimal digits, a leading ['-'] when
    negative, no leading zeros. *)
Definition string_of_Z (z : Z) : string := NilEmpty.string_of_int (Z.to_int z).

Definition show_position (pos : Position) : string :=
  (string_of_Z (px pos) ++ String " " (string_of_Z (py pos)))%string.

(** Reading back: the text before the first space and the text after it. *)
Fixpoint split_at_space (s : string) : string * string :=
  match s with
  | EmptyString => (EmptyString, EmptyString)
  | String c s' =>
      if Ascii.eqb c " " then (EmptyString, s')
      else let (a, b) := split_at_space s' in (String c a, b)
  end.

Definition parse_position (s : string) : option Position :=
  let (a, b) := split_at_space s in
  match NilEmpty.int_of_string a, NilEmpty.int_of_string b with
  | Some x, Some y => Some (mkPosition (Z.of_int x) (Z.of_int y))
  | _, _ => None
  end.

(** ** The [DmapWeights] presets of dmapBeh.cpp *)

(** [DmapWeights]: for each Dijkstra map, by name, the pair of floats of
    its initializer. *)
Definition DmapWeights : Type := gmap string (Q * Q).

(** The components of a w5 entity these presets set. *)
Record W5Comps : Type := mkW5Comps {
  dmap_weights : option DmapWeights;
  ranged_attack : option (Z * Z)
}.

Definition set_dmap_weights (l : list (string * (Q * Q))) (c : W5Comps) : W5Comps :=
  mkW5Comps (Some (list_to_map l : gmap string (Q * Q))) (ranged_attack c).

Definition create_player_approacher (c : W5Comps) : W5Comps :=
  set_dmap_weights [("approach_map", (1, 1)%Q)]%string c.

Definition create_player_fleer (c : W5Comps) : W5Comps :=
  set_dmap_weights [("flee_map", (1, 1)%Q)]%string c.

Definition create_archer (c : W5Comps) : W5Comps :=
  let c := set_dmap_weights [("player_near", (1, 1)%Q); ("gen_player_visibility", (2, 1)%Q);
                             ("approach_map", (1#10, 1)%Q)]%string c in
  mkW5Comps (dmap_weights c) (Some (4, 10)%Z).

Definition create_hive_follower (c : W5Comps) : W5Comps :=
  set_dmap_weights [("hive_map", (1, 1)%Q)]%string c.

Definition create_hive_monster (c : W5Comps) : W5Comps :=
  set_dmap_weights [("hive_map", (1, 1)%Q); ("approach_map", (18#10, 8#10)%Q)]%string c.

(** ** [sgn] is the sign function *)

(** [sgn] at [int] computes the sign of its argument: [-1], [0] or
    [1], as the Standard Library's [Z.sgn]. *)
Theorem sgn_spec (val : Z) : sgn val = Z.sgn val.
Proof. destruct val; reflexivity. Qed.

(** ** The stream output of a position reads back *)

Fixpoint no_space (s : string) : bool :=
  match s with
  | EmptyString => true
  | String c s' => negb (Ascii.eqb c " ") && no_space s'
  end.

Lemma no_space_uint d : no_space (NilEmpty.string_of_uint d) = true.
Proof. induction d; simpl; auto. Qed.

Lemma no_space_string_of_Z z : no_space (string_of_Z z) = true.
Proof. unfold string_of_Z. destruct (Z.to_int z); simpl; apply no_space_uint. Qed.

Lemma split_at_space_app a b :
  no_space a = true -> split_at_space (a ++ String " " b) = (a, b).
Proof.
  induction a as [|c a IH]; simpl; [done|].
  rewrite andb_true_iff, negb_true_iff. intros [-> Ha]. by rewrite IH.
Qed.

Lemma int_of_string_of_Z z : NilEmpty.int_of_string (string_of_Z z) = Some (Z.to_int z).
Proof. apply NilEmpty.isi. Qed.

(** C30: The text [operator<<] writes for a position determines it: reading
    back the two decimal numbers around the first space gives the
    position. *)
Theorem position_print_parse (pos : Position) : parse_position (show_position pos) = Some pos.
Proof.
  destruct pos as [x y]. unfold parse_position, show_position. simpl.
  rewrite split_at_space_app by apply no_space_string_of_Z.
  rewrite !int_of_string_of_Z, !DecimalZ.of_to. done.
Qed.
