(* ===== verification/Input.v ===== *)
(** The player's input and the actions the turn consumes.

    The input system of [register_roguelike_systems] (src/w2/roguelike.cpp,
    lines 176-199) turns key presses into the player's [Action]: a key sets
    its action only on the frame it goes down (the [PlayerInput] component
    latches the keys of the previous frame), and a later key of the order
    left, right, up, down, enter overrides an earlier one.  [process_turn]
    runs only when the player's action is not [EA_NOP], and
    [process_actions] consumes every action ([process_actions_consumes]).
    So a player who keeps holding the keys of the last frame, with no action
    pending, makes no turn happen ([held_keys_no_turn]). *)

From Stdlib Require Import QArith ZArith Lia.
From stdpp Require Import base decidable list gmap strings.
From S2P Require Import Prelude Types Blackboard RandomUtil Node World Leaves Tree Build Turn.

(** The keys [IsKeyDown] reports on a frame: [KEY_LEFT], [KEY_RIGHT],
    [KEY_UP], [KEY_DOWN], [KEY_ENTER]. *)
Record Keys : Type := mkKeys {
  key_left : bool; key_right : bool; key_up : bool; key_down : bool; key_enter : bool
}.

(** [inp.left = left; ...; inp.skip = skip;] *)
Definition latch (k : Keys) : PlayerInput :=
  mkPlayerInput (key_left k) (key_right k) (key_up k) (key_down k) (key_enter k).

(** The body of the system's [each] (lines 179-198). *)
Definition input_step (k : Keys) (inp : PlayerInput) (a : Z) : PlayerInput * Z :=
  let a := if key_left k && negb (inp_left inp) then EA_MOVE_LEFT else a in
  let a := if key_right k && negb (inp_right inp) then EA_MOVE_RIGHT else a in
  let a := if key_up k && negb (inp_up inp) then EA_MOVE_UP else a in
  let a := if key_down k && negb (inp_down inp) then EA_MOVE_DOWN else a in
  let a := if key_enter k && negb (inp_skip inp) then EA_MOVE_SKIP else a in
  (latch k, a).

(** [ecs.system<PlayerInput, Action, const IsPlayer>().each(...)]. *)
Definition input_comps (k : Keys) (c : Comps) : Comps :=
  match c_input c, c_action c, c_is_player c with
  | Some inp, Some a, true =>
      let (inp', a') := input_step k inp a in set_input (Some inp') (set_action (Some a') c)
  | _, _, _ => c
  end.

Definition input_system (k : Keys) (w : World) : World :=
  mkWorld (map (fun ec => (ec.1, input_comps k ec.2)) (w_ents w)) (w_next w).

(** ** Held keys *)

Lemma input_step_held k a : input_step k (latch k) a = (latch k, a).
Proof. destruct k as [[] [] [] [] []]; reflexivity. Qed.

Lemma input_comps_held k c :
  c_input c = Some (latch k) -> input_comps k c = c.
Proof.
  intros Hi. unfold input_comps. rewrite Hi.
  destruct (c_action c) as [a|] eqn:Ha, (c_is_player c); try done.
  rewrite input_step_held. destruct c; simpl in *. by subst.
Qed.

Lemma is_player_acted_false w :
  (forall ec, ec ∈ w_ents w -> c_is_player ec.2 = true -> c_action ec.2 = Some EA_NOP) ->
  is_player_acted w = false.
Proof.
  unfold is_player_acted. intros Hall.
  cut (forall acted, acted = false -> foldl (fun acted ec =>
         if c_is_player ec.2 then match c_action ec.2 with
           | Some a => negb (Z.eqb a EA_NOP) | None => acted end else acted)
         acted (w_ents w) = false); [intros H; by apply H|].
  induction (w_ents w) as [|ec l IH]; intros acted ->; simpl; [done|].
  apply IH; [intros ec' Hin; apply Hall; by right|].
  destruct (c_is_player ec.2) eqn:Hp; [|done].
  by rewrite (Hall ec ltac:(by left) Hp).
Qed.

(** ** [process_actions] consumes every action *)

(** Every entity the action queries visit has no action pending. *)
Definition consumed (w : World) : Prop :=
  forall ec, ec ∈ w_ents w -> acts ec.2 = true -> c_action ec.2 = Some EA_NOP.

Lemma consumed_filter P `{!forall x, Decision (P x)} w :
  consumed w -> consumed (mkWorld (filter P (w_ents w)) (w_next w)).
Proof. intros Hc ec Hin. apply Hc. by apply list_elem_of_filter in Hin as [_ ?]. Qed.

(** The entries of [modify_comps w p f]: the first entry of [p], changed,
    and entries of [w]. *)
Lemma elem_of_amodify_first p f l c0 e c :
  alookup p l = Some c0 -> (e, c) ∈ amodify p f l -> (e = p /\ c = f c0) \/ (e, c) ∈ l.
Proof.
  induction l as [|[e1 c1] l IH]; simpl; [done|].
  case_decide as Hd; [subst e1|]; intros Hl Hin.
  - injection Hl as ->. apply elem_of_cons in Hin as [[= -> ->]|Hin]; [by left|].
    right. by right.
  - apply elem_of_cons in Hin as [[= -> ->]|Hin]; [right; by left|].
    destruct (IH Hl Hin) as [?|?]; [by left|right; by right].
Qed.

Lemma consumed_modify w p f c0 :
  consumed w -> get_comps w p = Some c0 ->
  acts (f c0) = acts c0 -> c_action (f c0) = c_action c0 ->
  consumed (modify_comps w p f).
Proof.
  intros Hc Hp Ha Hact [e c] Hin. simpl in Hin.
  destruct (elem_of_amodify_first p f _ c0 e c Hp Hin) as [[-> ->]|Hin'].
  - simpl. rewrite Ha, Hact. apply (Hc (p, c0)). by apply alookup_elem_inv.
  - by apply (Hc (e, c)).
Qed.

Lemma consumed_pickup_one s p : consumed s.1 -> consumed (pickup_one s p).1.
Proof.
  destruct s as [w destroyed]. intros Hc. unfold pickup_one.
  destruct (get_comps w p) as [c|] eqn:Hp; [|done].
  destruct (c_can_pickup c), (c_pos c), (c_hp c), (c_dmg c) eqn:Hd; try done. simpl.
  eapply consumed_modify; [eapply consumed_modify; [done|exact Hp|done|done]|..].
  all: try (rewrite get_comps_modify_eq, Hp; reflexivity).
  all: unfold acts; simpl; rewrite ?Hd; try done.
  apply bool_decide_ext. split; intros (?&?&?&?&?); split_and!; eauto.
Qed.

Lemma consumed_commit w :
  consumed (mkWorld (map (fun ec => (ec.1, commit_move ec.2)) (w_ents w)) (w_next w)).
Proof.
  intros ec Hin. simpl in Hin. apply list_elem_of_fmap in Hin as ([e c] & -> & _).
  simpl. unfold commit_move. destruct (acts c) eqn:Ha; [done|]. by rewrite Ha.
Qed.

(** C31: [process_actions] consumes the turn's actions: afterwards every
    entity of the action queries ([Action], [Position], [MovePos],
    [MeleeDamage], [Team]) has the action [EA_NOP], whatever the world:
    the moves, attacks, deaths and pickups in between keep that. *)
Theorem process_actions_consumes w : consumed (process_actions w).
Proof.
  unfold process_actions.
  set (w2 := mkWorld (filter _ _) _).
  assert (consumed w2) as H2 by apply consumed_filter, consumed_commit.
  assert (forall ps s, consumed s.1 -> consumed (foldl pickup_one s ps).1) as Hf.
  { induction ps as [|p ps IH]; intros s Hs; simpl; [done|]. by apply IH, consumed_pickup_one. }
  destruct (foldl pickup_one (w2, []) (map fst (w_ents w2))) as [w3 ds] eqn:H3.
  apply consumed_filter. change w3 with (w3, ds).1. rewrite <-H3. by apply Hf.
Qed.

(** C32: A player who holds the keys of the last frame (its [PlayerInput]
    latched them) and has no action pending gets none from the input
    system: the world is unchanged, and [process_turn] then does nothing. *)
Theorem held_keys_no_turn {G} `{!RandomSource G} fuel k (w : World) (g : G) :
  (forall ec, ec ∈ w_ents w -> c_is_player ec.2 = true ->
     c_input ec.2 = Some (latch k) /\ c_action ec.2 = Some EA_NOP) ->
  input_system k w = w /\ process_turn fuel (input_system k w, g) = inr (w, g).
Proof.
  intros Hp.
  assert (input_system k w = w) as Hw.
  { destruct w as [ents n]. unfold input_system. simpl in *. f_equal.
    rewrite <-(map_id ents) at 2. apply map_ext_in. intros [e c] Hin. simpl.
    destruct (c_is_player c) eqn:Hpl.
    - rewrite input_comps_held; [done|]. apply (Hp (e, c)); [by apply list_elem_of_In|done].
    - unfold input_comps. rewrite Hpl. by destruct (c_input c), (c_action c). }
  split; [done|]. rewrite Hw. unfold process_turn. simpl.
  rewrite is_player_acted_false; [done|]. intros ec Hin Hpl. apply (Hp ec Hin Hpl).
Qed.

(** A world with the player of [create_player] (and its texture entity) and
    a powerup, and no key held. *)
Definition held_world : World :=
  match (let* _ := create_player 0 0 "swordsman_tex"%string in create_powerup 7 7 10)%bt initial_state with
  | inr (_, (_, w)) => w | inl _ => mkWorld [] 1 end.

Definition no_keys : Keys := mkKeys false false false false false.

Lemma held_keys_no_turn_witness :
  (length (w_ents held_world) = 3)%nat /\
  input_system no_keys held_world = held_world /\
  process_turn 2 (input_system no_keys held_world, (@nil Q, @nil Z)) =
    inr (held_world, (@nil Q, @nil Z)).
Proof.
  split; [reflexivity|].
  apply held_keys_no_turn. intros ec Hin. apply list_elem_of_In in Hin.
  vm_compute in Hin. repeat destruct Hin as [<-|Hin]; try done; vm_compute; done.
Defined.
