(* ===== verification/Render.v ===== *)
(** The drawing systems of [register_roguelike_systems]
    (src/w2/roguelike.cpp, lines 200-215) and [print_stats] (lines
    394-402), as the list of raylib draw calls a frame makes.

    The first system draws every entity with a [Position] and a [Color] and
    no [TextureSource] pair as a unit rectangle; the second draws every such
    entity with a [TextureSource] as a textured quad, with the [Texture2D]
    of the pair's target.  [textureSrc.get<Texture2D>()] is a pointer: the
    code dereferences it unchecked, so a target without a texture is an
    error of the frame ([NoTexture]), as is a dead target ([DeadTarget],
    a flecs assertion).  The two systems run in the order they were
    registered, each over the entities in query order.

    [print_stats] writes the player's hit points and damage, converted to
    [int] by truncation toward zero; a value out of the range of [int]
    makes the conversion undefined ([OutOfIntRange]). *)

From Stdlib Require Import QArith ZArith Lia String Init.Byte.
From stdpp Require Import base decidable list gmap.
From S2P Require Import Prelude Types World Build Dmaps.

(** [Rectangle] (raylib): position and size, in floats. *)
Record Rectangle : Type := mkRectangle { rect_x : Q; rect_y : Q; rect_w : Q; rect_h : Q }.

Inductive DrawCmd : Type :=
| DrawRectangleRec (rec : Rectangle) (color : Color)
| DrawTextureQuad (texture : string) (tiling offset : Q * Q) (quad : Rectangle) (tint : Color)
| DrawText (text : string) (posX posY fontSize : Z) (color : Color).

Inductive render_fault : Type :=
| DeadTarget (t : Entity)    (** [get] on a dead target entity *)
| NoTexture (t : Entity)     (** [*textureSrc.get<Texture2D>()] of a null pointer *)
| OutOfIntRange (v : Q).     (** [int(v)] of a float outside the range of [int] *)

(** [Rectangle{float(pos.x), float(pos.y), 1, 1}]. *)
Definition cell_rect (pos : Position) : Rectangle :=
  mkRectangle (inject_Z (px pos)) (inject_Z (py pos)) 1 1.

(** The first system: [ecs.system<const Position, const Color>()
    .term<TextureSource>(flecs::Wildcard).not_()] (lines 200-206). *)
Definition draw_flat (ec : Entity * Comps) : option DrawCmd :=
  match c_pos ec.2, l_color (c_look ec.2), l_texsrc (c_look ec.2) with
  | Some pos, Some col, None => Some (DrawRectangleRec (cell_rect pos) col)
  | _, _, _ => None
  end.

(** [*textureSrc.get<Texture2D>()]. *)
Definition texture_of (w : World) (t : Entity) : render_fault + string :=
  match get_comps w t with
  | None => inl (DeadTarget t)
  | Some c => match l_texture (c_look c) with
              | Some tex => inr tex
              | None => inl (NoTexture t)
              end
  end.

(** The body of the second system (lines 209-214). *)
Definition draw_textured (w : World) (ec : Entity * Comps)
    : render_fault + option DrawCmd :=
  match c_pos ec.2, l_color (c_look ec.2), l_texsrc (c_look ec.2) with
  | Some pos, Some col, Some t =>
      match texture_of w t with
      | inl f => inl f
      | inr tex => inr (Some (DrawTextureQuad tex (1, 1)%Q (0, 0)%Q (cell_rect pos) col))
      end
  | _, _, _ => inr None
  end.

(** The second system's [each], stopping at the first error. *)
Fixpoint draw_textured_all (w : World) (l : list (Entity * Comps))
    : render_fault + list DrawCmd :=
  match l with
  | [] => inr []
  | ec :: l' =>
      match draw_textured w ec with
      | inl f => inl f
      | inr d => match draw_textured_all w l' with
                 | inl f => inl f
                 | inr ds => inr (option_list d ++ ds)
                 end
      end
  end.

(** One frame of the two drawing systems. *)
Definition render (w : World) : render_fault + list DrawCmd :=
  match draw_textured_all w (w_ents w) with
  | inl f => inl f
  | inr quads => inr (omap draw_flat (w_ents w) ++ quads)
  end.

(** ** [print_stats] *)

(** [int(v)] of a [float]: truncation toward zero, defined only when the
    result fits in a 32-bit [int]. *)
Definition float_to_int (v : Q) : render_fault + Z :=
  let z := Z.quot (Qnum v) (Zpos (Qden v)) in
  if bool_decide (- 2 ^ 31 <= z < 2 ^ 31)%Z then inr z else inl (OutOfIntRange v).

(** The two [DrawText] calls of one player (lines 399-400). *)
Definition player_stats (hp dmg : Q) : render_fault + list DrawCmd :=
  match float_to_int hp, float_to_int dmg with
  | inl f, _ | _, inl f => inl f
  | inr h, inr d =>
      inr [DrawText ("hp: " ++ string_of_Z h) 20 20 20 white;
           DrawText ("power: " ++ string_of_Z d) 20 40 20 white]
  end.

(** [playerStatsQuery.each] over [IsPlayer, Hitpoints, MeleeDamage]. *)
Fixpoint print_stats_loop (l : list (Entity * Comps)) : render_fault + list DrawCmd :=
  match l with
  | [] => inr []
  | ec :: l' =>
      let here := match c_is_player ec.2, c_hp ec.2, c_dmg ec.2 with
                  | true, Some hp, Some dmg => player_stats hp dmg
                  | _, _, _ => inr []
                  end in
      match here, print_stats_loop l' with
      | inl f, _ | _, inl f => inl f
      | inr ds, inr ds' => inr (ds ++ ds')
      end
  end.

Definition print_stats (w : World) : render_fault + list DrawCmd :=
  print_stats_loop (w_ents w).

(** ** Every visible entity is drawn once *)

(** The entities each system visits. *)
Definition flat (ec : Entity * Comps) : bool :=
  bool_decide (is_Some (c_pos ec.2) /\ is_Some (l_color (c_look ec.2)) /\
               l_texsrc (c_look ec.2) = None).

Definition textured (ec : Entity * Comps) : bool :=
  bool_decide (is_Some (c_pos ec.2) /\ is_Some (l_color (c_look ec.2)) /\
               is_Some (l_texsrc (c_look ec.2))).

Definition is_rect (d : DrawCmd) : bool :=
  match d with DrawRectangleRec _ _ => true | _ => false end.

Definition is_quad (d : DrawCmd) : bool :=
  match d with DrawTextureQuad _ _ _ _ _ => true | _ => false end.

(** The target of every textured entity is alive and has a [Texture2D]. *)
Definition textures_loaded (w : World) (l : list (Entity * Comps)) : Prop :=
  Forall (fun ec => textured ec = true ->
            exists t tex, l_texsrc (c_look ec.2) = Some t /\ texture_of w t = inr tex) l.

Lemma draw_flat_spec ec :
  match draw_flat ec with
  | Some d => is_rect d = true /\ flat ec = true
  | None => flat ec = false
  end.
Proof.
  unfold draw_flat, flat.
  destruct (c_pos ec.2), (l_color (c_look ec.2)), (l_texsrc (c_look ec.2));
    rewrite ?bool_decide_true, ?bool_decide_false by naive_solver; done.
Qed.

Lemma omap_draw_flat l :
  Forall (fun d => is_rect d = true) (omap draw_flat l) /\
  length (omap draw_flat l) = length (filter flat l).
Proof.
  induction l as [|ec l [IHr IHl]]; simpl; [done|]. rewrite filter_cons.
  pose proof (draw_flat_spec ec) as Hs.
  destruct (draw_flat ec) as [d|]; [destruct Hs as [Hr ->]|rewrite Hs]; simpl; auto.
Qed.

Lemma draw_textured_ok w ec :
  (exists d, draw_textured w ec = inr d) <->
  (textured ec = true -> exists t tex, l_texsrc (c_look ec.2) = Some t /\ texture_of w t = inr tex).
Proof.
  unfold draw_textured, textured.
  destruct (c_pos ec.2), (l_color (c_look ec.2)), (l_texsrc (c_look ec.2)) as [t|];
    rewrite ?bool_decide_true, ?bool_decide_false by naive_solver;
    try (split; [done|by eauto]).
  destruct (texture_of w t) as [f|tex] eqn:Ht; split; [by intros [? ?]| |by eauto|by eauto].
  intros H. destruct (H eq_refl) as (? & ? & [= <-] & ?). congruence.
Qed.

Lemma draw_textured_all_spec w l :
  (exists ds, draw_textured_all w l = inr ds) <-> textures_loaded w l.
Proof.
  unfold textures_loaded. induction l as [|ec l IH]; simpl; [split; eauto|].
  rewrite Forall_cons, <-IH, <-draw_textured_ok.
  destruct (draw_textured w ec), (draw_textured_all w l); naive_solver.
Qed.

Lemma draw_textured_quad w ec d :
  draw_textured w ec = inr d ->
  Forall (fun d => is_quad d = true) (option_list d) /\
  length (option_list d) = length (filter textured [ec]).
Proof.
  rewrite filter_cons. unfold draw_textured, textured.
  destruct (c_pos ec.2), (l_color (c_look ec.2)), (l_texsrc (c_look ec.2)) as [t|];
    rewrite ?bool_decide_true, ?bool_decide_false by naive_solver;
    try destruct (texture_of w t); intros; simplify_eq/=; auto.
Qed.

Lemma draw_textured_all_quads w l ds :
  draw_textured_all w l = inr ds ->
  Forall (fun d => is_quad d = true) ds /\ length ds = length (filter textured l).
Proof.
  revert ds. induction l as [|ec l IH]; intros ds; simpl; [by intros [= <-]|].
  destruct (draw_textured w ec) as [|d] eqn:H1; [done|].
  destruct (draw_textured_all w l) as [|ds'] eqn:H2; [done|]. intros [= <-].
  destruct (draw_textured_quad _ _ _ H1) as [Hq Hn]. destruct (IH ds' eq_refl) as [Hq' Hn'].
  change (ec :: l) with ([ec] ++ l). rewrite filter_app, !length_app, Hn, Hn'.
  split; [by apply Forall_app|done].
Qed.

(** C29: A frame's drawing systems succeed exactly when the target of every
    entity drawn with a texture is alive and has a [Texture2D]; then every
    entity with a [Position] and a [Color] is drawn exactly once: as a
    rectangle, before all quads, if it has no [TextureSource], and as a
    textured quad if it has one. *)
Theorem render_draws_each_once w :
  ((exists cmds, render w = inr cmds) <-> textures_loaded w (w_ents w)) /\
  (forall cmds, render w = inr cmds ->
     exists rects quads, cmds = rects ++ quads /\
       Forall (fun d => is_rect d = true) rects /\ length rects = length (filter flat (w_ents w)) /\
       Forall (fun d => is_quad d = true) quads /\ length quads = length (filter textured (w_ents w))).
Proof.
  unfold render. rewrite <-draw_textured_all_spec. split.
  - destruct (draw_textured_all w (w_ents w)); naive_solver.
  - intros cmds. destruct (draw_textured_all w (w_ents w)) as [|ds] eqn:Hd; [done|].
    intros [= <-]. destruct (omap_draw_flat (w_ents w)).
    destruct (draw_textured_all_quads _ _ _ Hd). eauto 10.
Qed.

(** ** [int(v)] truncates toward zero *)

(** When [int(v)] is defined it is a 32-bit [int] whose magnitude is the
    integer part of [|v|]: [|z| <= |v| < |z| + 1]. *)
Lemma float_to_int_trunc v z :
  float_to_int v = inr z ->
  (- 2 ^ 31 <= z < 2 ^ 31)%Z /\
  (Z.abs z * Zpos (Qden v) <= Z.abs (Qnum v) < (Z.abs z + 1) * Zpos (Qden v))%Z.
Proof.
  unfold float_to_int. case_bool_decide as Hr; intros [= <-]; split; [done|].
  rewrite <-Z.quot_abs by lia. change (Z.abs (Zpos (Qden v))) with (Zpos (Qden v)).
  rewrite Z.quot_div_nonneg by lia.
  pose proof (Z.mul_div_le (Z.abs (Qnum v)) (Zpos (Qden v)) ltac:(lia)).
  pose proof (Z.mod_pos_bound (Z.abs (Qnum v)) (Zpos (Qden v)) ltac:(lia)).
  pose proof (Z.div_mod (Z.abs (Qnum v)) (Zpos (Qden v)) ltac:(lia)). nia.
Qed.

(** ** The first frame of the game *)

Definition game_world : World :=
  match init_roguelike initial_state with inr (_, (_, w)) => w | inl _ => mkWorld [] 1 end.

(** The first frame draws the three powerups and the two heals as
    rectangles, then the nine characters with their textures, and the
    player's stats. *)
Example game_world_first_frame :
  (exists ds, render game_world = inr ds /\ length ds = 14%nat /\
     length (filter is_rect ds) = 5%nat) /\
  print_stats game_world =
    inr [DrawText "hp: 100" 20 20 20 white; DrawText "power: 50" 20 40 20 white].
Proof.
  split; [|vm_compute; reflexivity].
  eexists. split; [vm_compute; reflexivity|]. vm_compute. split; reflexivity.
Qed.
